(** * Tracker coordination core of libtorrent: a shallow embedding

    The development follows three translation units of the library:
    - [connection_manager.cc] (its second half, the [Tracker] base class),
    - [tracker_list.cc] (the group-ordered [TrackerList]),
    - [dns_manager.cc] (the caching [DnsManager]).

    Unsigned 32-bit members are integers in [Z] with the wrap-around of each
    C++ operation written out ([wrap32]).  Trackers live in a heap indexed by
    their address and the list holds addresses, as [std::vector<Tracker*>]
    does.  Exceptions are a result type that keeps the state reached when the
    exception left the function. *)

From Stdlib Require Import ZArith Lia Bool String Ascii.
From stdpp Require Import gmap strings list fin_maps sorting.

Local Open Scope Z_scope.

(** ** Machine integers *)

Module U32.

Definition modulus : Z := 2 ^ 32.

(** Conversion to [uint32_t]. *)
Definition wrap32 (z : Z) : Z := z mod modulus.

Definition in_range (z : Z) : Prop := 0 <= z < modulus.

Definition add (a b : Z) : Z := wrap32 (a + b).
Definition sub (a b : Z) : Z := wrap32 (a - b).
(** [x++] on a [uint32_t]. *)
Definition incr (a : Z) : Z := wrap32 (a + 1).

End U32.
Export U32.

(** ** Exceptions and results *)

Inductive exception : Type :=
| internal_error (msg : string)
| input_error (msg : string).

(** What a call leaves behind: a value and the state, or the exception that
    left the function together with the state at the [throw]. *)
Inductive result (S A : Type) : Type :=
| Ret (a : A) (s : S)
| Throw (e : exception) (s : S).
Arguments Ret {S A} a s.
Arguments Throw {S A} e s.

Definition is_internal_error (e : exception) : bool :=
  match e with internal_error _ => true | input_error _ => false end.

Definition threw {S A} (r : result S A) : bool :=
  match r with Ret _ _ => false | Throw _ _ => true end.

Definition state_of {S A} (r : result S A) : S :=
  match r with Ret _ s => s | Throw _ s => s end.

(** ** Strings as [std::string] uses them *)

Module StdString.

Local Open Scope nat_scope.
Local Open Scope string_scope.

(** [s.rfind(c)]: the last position of [c], [None] for [npos]. *)
Fixpoint rfind (c : ascii) (s : string) : option nat :=
  match s with
  | EmptyString => None
  | String a s' =>
      match rfind c s' with
      | Some i => Some (S i)
      | None => if Ascii.eqb a c then Some 0 else None
      end
  end.

(** Does [pat] occur in [s] at position 0? *)
Fixpoint starts_with (pat s : string) : bool :=
  match pat, s with
  | EmptyString, _ => true
  | String _ _, EmptyString => false
  | String a pat', String b s' => Ascii.eqb a b && starts_with pat' s'
  end.

(** First position of [pat] in [s], searching from position 0. *)
Fixpoint find0 (pat s : string) : option nat :=
  if starts_with pat s then Some 0
  else match s with
       | EmptyString => None
       | String _ s' => option_map S (find0 pat s')
       end.

Fixpoint skip (n : nat) (s : string) : option string :=
  match n, s with
  | O, _ => Some s
  | S _, EmptyString => None
  | S n', String _ s' => skip n' s'
  end.

(** [s.find(pat, pos)]: the first position at or after [pos] where [pat]
    occurs; [None] for [npos] (also when [pos] is past the end). *)
Definition find (pat s : string) (pos : nat) : option nat :=
  match skip pos s with
  | Some tl => option_map (Nat.add pos) (find0 pat tl)
  | None => None
  end.

Fixpoint take_str (n : nat) (s : string) : string :=
  match n, s with
  | S n', String a s' => String a (take_str n' s')
  | _, _ => EmptyString
  end.

Fixpoint drop_str (n : nat) (s : string) : string :=
  match n, s with
  | S n', String _ s' => drop_str n' s'
  | _, _ => s
  end.

(** [s.replace(pos, len, str)] for [pos <= s.size()]: the [len] characters
    from [pos] (fewer when the string ends first) give way to [str]. *)
Definition replace (pos len : nat) (str s : string) : string :=
  take_str pos s ++ str ++ drop_str (pos + len) s.

Fixpoint contains_char (c : ascii) (s : string) : bool :=
  match s with
  | EmptyString => false
  | String a s' => Ascii.eqb a c || contains_char c s'
  end.

End StdString.

(** ** The [Tracker] base class *)

Inductive TrackerType : Type :=
| TRACKER_NONE | TRACKER_HTTP | TRACKER_UDP | TRACKER_DHT.

Inductive enabled_status_t : Type := on | off | undefined.

Inductive Event : Type :=
| EVENT_NONE | EVENT_COMPLETED | EVENT_STARTED | EVENT_STOPPED | EVENT_SCRAPE.

(** The members of [Tracker].  The last three are what the virtual functions
    of the concrete tracker ([TrackerHttp], [TrackerUdp], [TrackerDht])
    answer for the object in its present state; those classes are outside
    this development. *)
Record Tracker : Type := MkTracker {
  m_flags : Z;
  m_group : Z;
  m_url : string;
  m_normal_interval : Z;
  m_min_interval : Z;
  m_latest_event : Event;
  m_latest_new_peers : Z;
  m_latest_sum_peers : Z;
  m_success_time_last : Z;
  m_success_counter : Z;
  m_failed_time_last : Z;
  m_failed_counter : Z;
  m_scrape_time_last : Z;
  m_scrape_counter : Z;
  m_scrape_complete : Z;
  m_scrape_incomplete : Z;
  m_scrape_downloaded : Z;
  m_request_time_last : Z;
  m_request_counter : Z;
  m_enabled_status : enabled_status_t;
  m_type : TrackerType;
  is_busy : bool;
  is_usable : bool;
  can_request_state : bool
}.

(** The members that the code of this development assigns to. *)
Inductive member : Type :=
| M_group | M_latest_new_peers | M_latest_sum_peers
| M_success_time_last | M_success_counter
| M_failed_time_last | M_failed_counter
| M_scrape_time_last | M_scrape_counter
| M_request_time_last | M_request_counter.

Definition member_eqb (a b : member) : bool :=
  match a, b with
  | M_group, M_group
  | M_latest_new_peers, M_latest_new_peers
  | M_latest_sum_peers, M_latest_sum_peers
  | M_success_time_last, M_success_time_last
  | M_success_counter, M_success_counter
  | M_failed_time_last, M_failed_time_last
  | M_failed_counter, M_failed_counter
  | M_scrape_time_last, M_scrape_time_last
  | M_scrape_counter, M_scrape_counter
  | M_request_time_last, M_request_time_last
  | M_request_counter, M_request_counter => true
  | _, _ => false
  end.

(** [assign m v t] is the object [t] after [t.m = v]. *)
Definition assign (m : member) (v : Z) (t : Tracker) : Tracker :=
  let pick (m' : member) (old : Z) := if member_eqb m' m then v else old in
  {| m_flags := m_flags t;
     m_group := pick M_group (m_group t);
     m_url := m_url t;
     m_normal_interval := m_normal_interval t;
     m_min_interval := m_min_interval t;
     m_latest_event := m_latest_event t;
     m_latest_new_peers := pick M_latest_new_peers (m_latest_new_peers t);
     m_latest_sum_peers := pick M_latest_sum_peers (m_latest_sum_peers t);
     m_success_time_last := pick M_success_time_last (m_success_time_last t);
     m_success_counter := pick M_success_counter (m_success_counter t);
     m_failed_time_last := pick M_failed_time_last (m_failed_time_last t);
     m_failed_counter := pick M_failed_counter (m_failed_counter t);
     m_scrape_time_last := pick M_scrape_time_last (m_scrape_time_last t);
     m_scrape_counter := pick M_scrape_counter (m_scrape_counter t);
     m_scrape_complete := m_scrape_complete t;
     m_scrape_incomplete := m_scrape_incomplete t;
     m_scrape_downloaded := m_scrape_downloaded t;
     m_request_time_last := pick M_request_time_last (m_request_time_last t);
     m_request_counter := pick M_request_counter (m_request_counter t);
     m_enabled_status := m_enabled_status t;
     m_type := m_type t;
     is_busy := is_busy t;
     is_usable := is_usable t;
     can_request_state := can_request_state t |}.

(** Every [uint32_t] member holds a 32-bit value. *)
Record Tracker_wf (t : Tracker) : Prop := {
  wf_group : in_range (m_group t);
  wf_normal_interval : in_range (m_normal_interval t);
  wf_latest_new_peers : in_range (m_latest_new_peers t);
  wf_latest_sum_peers : in_range (m_latest_sum_peers t);
  wf_success_time_last : in_range (m_success_time_last t);
  wf_success_counter : in_range (m_success_counter t);
  wf_failed_time_last : in_range (m_failed_time_last t);
  wf_failed_counter : in_range (m_failed_counter t);
  wf_scrape_time_last : in_range (m_scrape_time_last t);
  wf_scrape_counter : in_range (m_scrape_counter t);
  wf_request_time_last : in_range (m_request_time_last t);
  wf_request_counter : in_range (m_request_counter t)
}.

Module TrackerOps.

(** [Tracker::Tracker(parent, url, flags)]; [now] is
    [cachedTime.seconds()], [ty] the concrete class constructed and
    [busy], [usable], [can_request] what its virtual functions answer. *)
Definition new_Tracker (now : Z) (ty : TrackerType) (busy usable can_request : bool)
           (url : string) (flags : Z) : Tracker :=
  {| m_flags := flags;
     m_group := 0;
     m_url := url;
     m_normal_interval := 1800;
     m_min_interval := 600;
     m_latest_event := EVENT_NONE;
     m_latest_new_peers := 0;
     m_latest_sum_peers := 0;
     m_success_time_last := 0;
     m_success_counter := 0;
     m_failed_time_last := 0;
     m_failed_counter := 0;
     m_scrape_time_last := 0;
     m_scrape_counter := 0;
     m_scrape_complete := 0;
     m_scrape_incomplete := 0;
     m_scrape_downloaded := 0;
     m_request_time_last := wrap32 now;
     m_request_counter := 0;
     m_enabled_status := undefined;
     m_type := ty;
     is_busy := busy;
     is_usable := usable;
     can_request_state := can_request |}.

(** [Tracker::success_time_next]. *)
Definition success_time_next (t : Tracker) : Z :=
  if m_success_counter t =? 0 then 0
  else U32.add (m_success_time_last t) (m_normal_interval t).

(** [Tracker::failed_time_next]:
    [m_failed_time_last + (5 << std::min(m_failed_counter - 1, (uint32_t)6))]. *)
Definition failed_time_next (t : Tracker) : Z :=
  if m_failed_counter t =? 0 then 0
  else U32.add (m_failed_time_last t)
               (Z.shiftl 5 (Z.min (U32.sub (m_failed_counter t) 1) 6)).

(** [Tracker::scrape_url_from]. *)
Definition scrape_url_from (url : string) : exception + string :=
  match StdString.rfind "/"%char url with
  | None => inl (internal_error "Tried to make scrape url from invalid url.")
  | Some delim_slash =>
      if decide (StdString.find "/announce" url delim_slash = Some delim_slash)
      then inr (StdString.replace delim_slash 9 "/scrape" url)
      else inl (internal_error "Tried to make scrape url from invalid url.")
  end.

(** [Tracker::inc_request_counter]; [now] is [cachedTime.seconds()]. *)
Definition inc_request_counter (now : Z) (t : Tracker) : result Tracker unit :=
  let elapsed := U32.sub (wrap32 now) (m_request_time_last t) in
  let t1 := assign M_request_counter
              (U32.sub (m_request_counter t) (Z.min (m_request_counter t) elapsed)) t in
  let t2 := assign M_request_counter (U32.incr (m_request_counter t1)) t1 in
  let t3 := assign M_request_time_last (wrap32 now) t2 in
  if 10 <=? m_request_counter t3
  then Throw (internal_error "Tracker request had more than 10 requests in 10 seconds.") t3
  else Ret tt t3.

(** A burst of calls, one per entry of [nows]; the first exception ends it. *)
Fixpoint inc_request_counter_calls (nows : list Z) (t : Tracker) : result Tracker unit :=
  match nows with
  | [] => Ret tt t
  | now :: rest =>
      match inc_request_counter now t with
      | Ret _ t' => inc_request_counter_calls rest t'
      | Throw e t' => Throw e t'
      end
  end.

(** [Tracker::clear_stats]. *)
Definition clear_stats (t : Tracker) : Tracker :=
  assign M_scrape_counter 0
    (assign M_failed_counter 0
      (assign M_success_counter 0
        (assign M_latest_sum_peers 0
          (assign M_latest_new_peers 0 t)))).

End TrackerOps.

(** ** The tracker list *)

(** A [Tracker*]. *)
Definition ptr : Type := nat.

(** An entry of an [AddressList], identified with its rank in the order that
    [AddressList::sort] uses. *)
Definition socket_address : Type := Z.

Inductive protocol_t : Type := http | udp | dht.

(** The slots of the list that the code calls, in call order. *)
Inductive slot_call : Type :=
| SlotSuccess (tb : ptr) (l : list socket_address)
| SlotFailed (tb : ptr) (msg : string)
| SlotTrackerEnabled (tb : ptr).

(** What the list reads from outside itself. *)
Record Env : Type := MkEnv {
  (** [cachedTime.seconds()] *)
  cachedTime : Z;
  (** [ConnectionManager::protocol_enabled_get] *)
  protocol_enabled_get : protocol_t -> bool;
  (** [TrackerDht::is_allowed()] *)
  TrackerDht_is_allowed : bool;
  (** [Tracker::flag_extra_tracker] *)
  flag_extra_tracker : Z;
  (** what [m_slot_success] returns *)
  m_slot_success : ptr -> list socket_address -> Z;
  (** is [m_slot_tracker_enabled] set? *)
  m_slot_tracker_enabled : bool;
  (** what a newly constructed [TrackerHttp], [TrackerUdp] or [TrackerDht]
      answers to [is_busy()], [is_usable()] and [can_request_state()] *)
  new_is_busy : TrackerType -> string -> bool;
  new_is_usable : TrackerType -> string -> bool;
  new_can_request_state : TrackerType -> string -> bool
}.

(** The tracker objects, the vector of the list, and the slot calls made. *)
Record World : Type := MkWorld {
  heap : gmap ptr Tracker;
  tlist : list ptr;
  calls : list slot_call
}.

Global Instance Tracker_inhabited : Inhabited Tracker :=
  populate (TrackerOps.new_Tracker 0 TRACKER_NONE false false false EmptyString 0).

(** Outcome of a member function of the list.  [Undefined] stands for a call
    that C++ gives no meaning to: an iterator outside the vector or an
    address that holds no tracker. *)
Inductive outcome (A : Type) : Type :=
| Done (a : A) (w : World)
| Raised (e : exception) (w : World)
| Undefined.
Arguments Done {A} a w.
Arguments Raised {A} e w.
Arguments Undefined {A}.

Module Algo.

Local Open Scope nat_scope.

(** [std::find_if(first, last, p) - first]; the length when nothing
    satisfies [p]. *)
Fixpoint find_if {A} (p : A -> bool) (l : list A) : nat :=
  match l with
  | [] => 0
  | x :: l' => if p x then 0 else S (find_if p l')
  end.

(** Position after the last element that satisfies [p], if any. *)
Fixpoint after_last {A} (p : A -> bool) (l : list A) : option nat :=
  match l with
  | [] => None
  | x :: l' =>
      match after_last p l' with
      | Some i => Some (S i)
      | None => if p x then Some 1 else None
      end
  end.

(** [std::iter_swap(begin + i, begin + j)] *)
Definition iter_swap {A} `{Inhabited A} (i j : nat) (l : list A) : list A :=
  <[i := l !!! j]> (<[j := l !!! i]> l).

(** [vector::insert(begin + pos, x)] *)
Definition vector_insert {A} (pos : nat) (x : A) (l : list A) : list A :=
  take pos l ++ x :: drop pos l.

(** [std::unique]: of each run of equal neighbours the first stays. *)
Fixpoint unique_after (prev : Z) (l : list Z) : list Z :=
  match l with
  | [] => []
  | x :: l' => if (x =? prev)%Z then unique_after prev l' else x :: unique_after x l'
  end.

Definition unique (l : list Z) : list Z :=
  match l with
  | [] => []
  | x :: l' => x :: unique_after x l'
  end.

(** [l->sort(); l->erase(std::unique(l->begin(), l->end()), l->end())] *)
Definition sort_unique (l : list Z) : list Z := unique (merge_sort Z.le l).

End Algo.

Module TrackerList.

Import Algo.
Local Open Scope nat_scope.

(** [*p] *)
Definition deref (w : World) (p : ptr) : Tracker := heap w !!! p.

(** The list as the sequence of the objects its entries point to. *)
Definition trackers (w : World) : list Tracker := deref w <$> tlist w.

Definition groups (w : World) : list Z := m_group <$> trackers w.

(** [Tracker::is_protocol_enabled] *)
Definition is_protocol_enabled (env : Env) (tracker_type : TrackerType) : bool :=
  match tracker_type with
  | TRACKER_HTTP => protocol_enabled_get env http
  | TRACKER_UDP => protocol_enabled_get env udp
  | TRACKER_DHT => protocol_enabled_get env dht
  | TRACKER_NONE => false
  end.

(** [TrackerList::is_usable]; in its body [is_usable tracker] is the
    virtual [tracker->is_usable()]. *)
Definition is_usable (env : Env) (tracker : Tracker) : bool :=
  match m_enabled_status tracker with
  | on => is_usable tracker
  | off => false
  | undefined => is_protocol_enabled env (m_type tracker) && is_usable tracker
  end.

(** [TrackerList::begin_group]: the first entry whose group is at least
    [group]. *)
Definition begin_group (group : Z) (w : World) : nat :=
  find_if (fun t => (group <=? m_group t)%Z) (trackers w).

(** Modelled from the spec: [TrackerList::end_group], which the header
    defines, is the position immediately after the last entry in that group,
    or the end of the list if the group does not yet exist. *)
Definition end_group (group : Z) (w : World) : nat :=
  match after_last (fun t => (m_group t =? group)%Z) (trackers w) with
  | Some i => i
  | None => length (tlist w)
  end.

(** [TrackerList::size_group] *)
Definition size_group (w : World) : Z :=
  match last (trackers w) with
  | Some back => U32.add (m_group back) 1
  | None => 0%Z
  end.

(** [TrackerList::insert] *)
Definition insert (env : Env) (group : Z) (tracker : ptr) (w : World) : outcome nat :=
  match heap w !! tracker with
  | None => Undefined
  | Some t =>
      let w1 := {| heap := <[tracker := assign M_group group t]> (heap w);
                   tlist := tlist w; calls := calls w |} in
      let itr := end_group group w1 in
      let w2 := {| heap := heap w1;
                   tlist := vector_insert itr tracker (tlist w1);
                   calls := calls w1 |} in
      let w3 := if m_slot_tracker_enabled env
                then {| heap := heap w2; tlist := tlist w2;
                        calls := calls w2 ++ [SlotTrackerEnabled tracker] |}
                else w2 in
      Done itr w3
  end.

(** [new TrackerHttp(this, url, flags)] and its siblings: the object is
    placed at an address that holds no object yet. *)
Definition new_tracker (env : Env) (ty : TrackerType) (url : string) (flags : Z)
           (w : World) : ptr * World :=
  let p := fresh (dom (heap w)) in
  let t := TrackerOps.new_Tracker (cachedTime env) ty
             (new_is_busy env ty url) (new_is_usable env ty url)
             (new_can_request_state env ty url) url flags in
  (p, {| heap := <[p := t]> (heap w); tlist := tlist w; calls := calls w |}).

(** [TrackerList::insert_url] *)
Definition insert_url (env : Env) (group : Z) (url : string) (extra_tracker : bool)
           (w : World) : outcome unit :=
  let flags := if extra_tracker then Z.lor 0 (flag_extra_tracker env) else 0%Z in
  let build ty :=
    let '(tracker, w1) := new_tracker env ty url flags w in
    match insert env group tracker w1 with
    | Done _ w2 => Done tt w2
    | Raised e w2 => Raised e w2
    | Undefined => Undefined
    end in
  if StdString.starts_with "http://" url || StdString.starts_with "https://" url
  then build TRACKER_HTTP
  else if StdString.starts_with "udp://" url
  then build TRACKER_UDP
  else if StdString.starts_with "dht://" url && TrackerDht_is_allowed env
  then build TRACKER_DHT
  else if extra_tracker
  then Raised (input_error ("could find matching tracker protocol (url:" ++ url ++ ")")) w
  else Done tt w.

(** The scan for a better candidate in [find_next_to_request]: [itr] is the
    candidate and [cur] the tracker it points to, [better_candidate] the
    position of the head of [rest]. *)
Fixpoint better_scan (env : Env) (itr : nat) (cur : Tracker)
         (better_candidate : nat) (rest : list Tracker) : nat :=
  match rest with
  | [] => itr
  | b :: rest' =>
      if negb (is_usable env b && can_request_state b)
      then better_scan env itr cur (S better_candidate) rest'
      else if negb (m_failed_counter b =? 0)%Z
      then
        if (TrackerOps.failed_time_next b <? TrackerOps.failed_time_next cur)%Z
        then better_scan env better_candidate b (S better_candidate) rest'
        else better_scan env itr cur (S better_candidate) rest'
      else
        if (TrackerOps.success_time_next b <? TrackerOps.failed_time_next cur)%Z
        then better_candidate
        else itr
  end.

(** [TrackerList::find_next_to_request] on the sequence of trackers;
    the result is a position, [length ts] for [end()]. *)
Definition find_next_in (env : Env) (ts : list Tracker) (itr : nat) : nat :=
  let itr1 := itr + find_if (fun t => is_usable env t && can_request_state t) (drop itr ts) in
  match ts !! itr1 with
  | Some cur =>
      if negb (m_failed_counter cur =? 0)%Z
      then better_scan env itr1 cur (S itr1) (drop (S itr1) ts)
      else itr1
  | None => itr1
  end.

Definition find_next_to_request (env : Env) (itr : nat) (w : World) : nat :=
  find_next_in env (trackers w) itr.

(** The loop of [cycle_group]; [None] when [fuel] is used up before the
    loop ends. *)
Fixpoint cycle_loop (w : World) (group : Z) (fuel : nat) (itr prev : nat)
         (l : list ptr) : option (list ptr) :=
  match fuel with
  | O => None
  | S fuel' =>
      let itr := S itr in
      match l !! itr with
      | Some p =>
          if (m_group (deref w p) =? group)%Z
          then cycle_loop w group fuel' itr itr (iter_swap itr prev l)
          else Some l
      | None => Some l
      end
  end.

(** [TrackerList::cycle_group] *)
Definition cycle_group (group : Z) (w : World) : option World :=
  let itr := begin_group group w in
  match tlist w !! itr with
  | None => Some w
  | Some p =>
      if negb (m_group (deref w p) =? group)%Z then Some w
      else
        l' ← cycle_loop w group (S (length (tlist w))) itr itr (tlist w);
        Some {| heap := heap w; tlist := l'; calls := calls w |}
  end.

(** [TrackerList::promote] *)
Definition promote (itr : nat) (w : World) : outcome nat :=
  match tlist w !! itr with
  | None => Undefined
  | Some p =>
      let first := begin_group (m_group (deref w p)) w in
      if decide (first = length (tlist w))
      then Raised (internal_error
             "torrent::TrackerList::promote(...) Could not find beginning of group.") w
      else Done first {| heap := heap w;
                         tlist := iter_swap first itr (tlist w);
                         calls := calls w |}
  end.

(** [TrackerList::randomize_group_entries]: from position [itr] on, each
    stretch up to [end_group] is handed to [std::shuffle], which leaves
    some permutation of it. *)
Inductive randomize_from (w : World) : nat -> list ptr -> list ptr -> Prop :=
| randomize_end itr l :
    length l <= itr ->
    randomize_from w itr l l
| randomize_shuffle itr l p tmp shuffled l' :
    l !! itr = Some p ->
    tmp = end_group (m_group (deref w p))
            {| heap := heap w; tlist := l; calls := calls w |} ->
    itr < tmp ->
    shuffled ≡ₚ take (tmp - itr) (drop itr l) ->
    randomize_from w tmp (take itr l ++ shuffled ++ drop tmp l) l' ->
    randomize_from w itr l l'.

Definition randomize_group_entries (w w' : World) : Prop :=
  heap w' = heap w /\ calls w' = calls w /\ randomize_from w 0 (tlist w) (tlist w').

(** [std::find(begin(), end(), tb)] *)
Definition find (tb : ptr) (w : World) : nat :=
  find_if (fun p => bool_decide (p = tb)) (tlist w).

(** [TrackerList::receive_success]; the value is the address list as the
    call leaves it. *)
Definition receive_success (env : Env) (tb : ptr) (l : list socket_address)
           (w : World) : outcome (list socket_address) :=
  let itr := find tb w in
  if decide (itr = length (tlist w)) then
    Raised (internal_error
      "TrackerList::receive_success(...) called but the iterator is invalid.") w
  else if is_busy (deref w tb) then
    Raised (internal_error
      "TrackerList::receive_success(...) called but the iterator is invalid.") w
  else
    match promote itr w with
    | Undefined => Undefined
    | Raised e w1 => Raised e w1
    | Done _ w1 =>
        let l1 := sort_unique l in
        let t := deref w1 tb in
        let t := assign M_success_time_last (wrap32 (cachedTime env)) t in
        let t := assign M_success_counter (U32.incr (m_success_counter t)) t in
        let t := assign M_failed_counter 0%Z t in
        let t := assign M_latest_sum_peers (wrap32 (Z.of_nat (length l1))) t in
        let t := assign M_latest_new_peers (wrap32 (m_slot_success env tb l1)) t in
        Done l1 {| heap := <[tb := t]> (heap w1);
                   tlist := tlist w1;
                   calls := calls w1 ++ [SlotSuccess tb l1] |}
    end.

(** [TrackerList::receive_failed] *)
Definition receive_failed (env : Env) (tb : ptr) (msg : string)
           (w : World) : outcome unit :=
  let itr := find tb w in
  if decide (itr = length (tlist w)) then
    Raised (internal_error
      "TrackerList::receive_failed(...) called but the iterator is invalid.") w
  else if is_busy (deref w tb) then
    Raised (internal_error
      "TrackerList::receive_failed(...) called but the iterator is invalid.") w
  else
    let t := deref w tb in
    let t := assign M_failed_time_last (wrap32 (cachedTime env)) t in
    let t := assign M_failed_counter (U32.incr (m_failed_counter t)) t in
    Done tt {| heap := <[tb := t]> (heap w);
               tlist := tlist w;
               calls := calls w ++ [SlotFailed tb msg] |}.

(** The empty list of [TrackerList::TrackerList()], over a given heap. *)
Definition empty_list (h : gmap ptr Tracker) : World :=
  {| heap := h; tlist := []; calls := [] |}.

End TrackerList.

(** ** The DNS manager *)

Module Dns.

Record sockaddr : Type := MkSockaddr { sa_family : Z; s_addr : Z }.

Definition AF_INET : Z := 2.
Definition ns_t_a : Z := 1.

(** A resource record as [ns_parserr] delivers it; [rdata] is what
    [ns_get32(rr.rdata)] reads. *)
Record ns_rr : Type := MkRr { rr_type : Z; rdlength : Z; rdata : Z }.

(** What the operating system and the name server answer to one lookup. *)
Record Lookup : Type := MkLookup {
  (** [manager->main_thread_main()->is_current()] *)
  is_current : bool;
  (** the value of [getaddrinfo] and, when it is 0, [result->ai_addr] *)
  getaddrinfo_ret : Z;
  ai_addr : sockaddr;
  (** the value of [res_nquery] *)
  res_nquery_ret : Z;
  (** the value of [ns_initparse] *)
  ns_initparse_ret : Z;
  (** the answer section: per message the record, [None] where
      [ns_parserr] fails *)
  answers : list (option ns_rr);
  errno : Z
}.

(** What the manager does that its caller or the system can observe. *)
Inductive event : Type :=
| release_global_lock
| acquire_global_lock
| getaddrinfo (host : string) (family socktype : Z)
| res_nquery (host : string)
| cb (sa : option sockaddr) (error_code : Z).

Definition is_query (e : event) : bool :=
  match e with
  | getaddrinfo _ _ _ | res_nquery _ => true
  | _ => false
  end.

Definition is_cb (e : event) : bool :=
  match e with cb _ _ => true | _ => false end.

(** [resolve_host_system] of [dns_manager.cc]: the events, the error code
    and [sa]. *)
Definition resolve_host_system (lk : Lookup) (host : string) (family socktype : Z)
  : list event * (Z * option sockaddr) :=
  let lock := if is_current lk then [release_global_lock] else [] in
  let unlock := if is_current lk then [acquire_global_lock] else [] in
  let error_code := getaddrinfo_ret lk in
  (lock ++ [getaddrinfo host family socktype] ++ unlock,
   (error_code, if error_code =? 0 then Some (ai_addr lk) else None)).

(** The loop of [resolve_host_custom] over the answer section. *)
Fixpoint parse_answers (msgs : list (option ns_rr)) (sa : option sockaddr)
  : exception + option sockaddr :=
  match msgs with
  | [] => inr sa
  | None :: rest => parse_answers rest sa
  | Some rr :: rest =>
      if rr_type rr =? ns_t_a then
        if negb (rdlength rr =? 4) then inl (internal_error "Invalid rd length.")
        else parse_answers rest (Some {| sa_family := AF_INET; s_addr := rdata rr |})
      else parse_answers rest sa
  end.

(** [resolve_host_custom] of [dns_manager.cc]. *)
Definition resolve_host_custom (lk : Lookup) (host : string) (family socktype : Z)
  : list event * (exception + (Z * option sockaddr)) :=
  let parsed :=
    if (-1 <? res_nquery_ret lk) && (-1 <? ns_initparse_ret lk)
    then parse_answers (answers lk) None
    else inr None in
  ([res_nquery host],
   match parsed with
   | inl e => inl e
   | inr sa => inr (match sa with Some _ => 0 | None => errno lk end, sa)
   end).

(** [Cache::Key], with its [operator<]. *)
Record Key : Type := MkKey { m_host : string; m_family : Z; m_socktype : Z }.

Definition Key_lt (a b : Key) : bool :=
  if negb (String.eqb (m_host a) (m_host b)) then String.ltb (m_host a) (m_host b)
  else if negb (m_family a =? m_family b) then m_family a <? m_family b
  else m_socktype a <? m_socktype b.

Global Instance Key_eq_dec : EqDecision Key.
Proof. solve_decision. Defined.

Global Instance Key_countable : Countable Key :=
  inj_countable' (fun k => (m_host k, m_family k, m_socktype k))
                 (fun '(h, f, s) => MkKey h f s)
                 (fun k => match k with MkKey _ _ _ => eq_refl end).

(** [Cache::Value] *)
Record Value : Type := MkValue { m_sa : option sockaddr; m_error_code : Z }.

(** [Cache::add]: [std::map::insert] keeps an entry that is already there;
    the address returned is the one stored under the key. *)
Definition add (key : Key) (error_code : Z) (sa : option sockaddr)
           (m_values : gmap Key Value) : gmap Key Value * option sockaddr :=
  match m_values !! key with
  | Some v => (m_values, m_sa v)
  | None => (<[key := MkValue sa error_code]> m_values, sa)
  end.

(** [Cache::retrieve]: [Some (error_code, sa)] when it returns [true]. *)
Definition retrieve (key : Key) (m_values : gmap Key Value) : option (Z * option sockaddr) :=
  match m_values !! key with
  | Some v => Some (m_error_code v, m_sa v)
  | None => None
  end.

(** [DnsManager::Implementation], with the flag of the connection manager
    it refers to and the events so far. *)
Record DnsManager : Type := MkDns {
  network_active_get : bool;
  m_custom_server : option sockaddr;
  m_cache : gmap Key Value;
  m_enabled : bool;
  events : list event
}.

Definition is_on (d : DnsManager) : bool := network_active_get d && m_enabled d.

Definition emit (evs : list event) (d : DnsManager) : DnsManager :=
  {| network_active_get := network_active_get d;
     m_custom_server := m_custom_server d;
     m_cache := m_cache d;
     m_enabled := m_enabled d;
     events := events d ++ evs |}.

Definition set_cache (c : gmap Key Value) (d : DnsManager) : DnsManager :=
  {| network_active_get := network_active_get d;
     m_custom_server := m_custom_server d;
     m_cache := c;
     m_enabled := m_enabled d;
     events := events d |}.

(** [DnsManager::cache_clear] *)
Definition cache_clear (d : DnsManager) : DnsManager := set_cache ∅ d.

(** [DnsManager::resolve]; the value is what the function returns. *)
Definition resolve (lk : Lookup) (host : string) (family socktype : Z)
           (d : DnsManager) : result DnsManager bool :=
  if is_on d then
    match retrieve (MkKey host family socktype) (m_cache d) with
    | Some (error_code, sa) =>
        Ret false (emit [cb sa error_code] d)
    | None =>
        let '(evs, answer) :=
          match m_custom_server d with
          | None =>
              let '(evs, r) := resolve_host_system lk host family socktype in (evs, inr r)
          | Some _ => resolve_host_custom lk host family socktype
          end in
        match answer with
        | inl e => Throw e (emit evs d)
        | inr (error_code, sa_u) =>
            let '(c, sa) := add (MkKey host family socktype) error_code sa_u (m_cache d) in
            Ret false (emit [cb sa error_code] (set_cache c (emit evs d)))
        end
    end
  else Ret true d.

(** What the header documents for the value of [resolve]: [false] if the
    manager did not and will not try to resolve. *)
Definition documented_return (d : DnsManager) : bool := is_on d.

(** The connection manager switches the network on or off. *)
Definition network_active_set (b : bool) (d : DnsManager) : DnsManager :=
  {| network_active_get := b;
     m_custom_server := m_custom_server d;
     m_cache := m_cache d;
     m_enabled := m_enabled d;
     events := events d |}.

(** The calls that can come between two calls of [resolve]. *)
Inductive call : Type :=
| call_resolve (lk : Lookup) (host : string) (family socktype : Z)
| call_cache_clear
| call_network_active_set (b : bool).

Definition is_cache_clear (c : call) : bool :=
  match c with call_cache_clear => true | _ => false end.

(** One call; an exception leaves the state it reached. *)
Definition run_call (c : call) (d : DnsManager) : DnsManager :=
  match c with
  | call_resolve lk host family socktype => state_of (resolve lk host family socktype d)
  | call_cache_clear => cache_clear d
  | call_network_active_set b => network_active_set b d
  end.

Definition run_calls (cs : list call) (d : DnsManager) : DnsManager :=
  foldl (fun d c => run_call c d) d cs.

(** What a call of [resolve] has done once it has returned: [returned d
    key b d'] relates the manager before, the triple, the value and the
    manager after. *)
Definition returned (d : DnsManager) (key : Key) (b : bool) (d' : DnsManager) : Prop :=
  b = false /\
  exists evs sa error_code,
    forallb (fun e => negb (is_cb e)) evs = true /\
    events d' = events d ++ evs ++ [cb sa error_code] /\
    m_cache d' !! key = Some (MkValue sa error_code) /\
    (forall k v, m_cache d !! k = Some v -> m_cache d' !! k = Some v).

(** The events that a call added. *)
Definition new_events (before after : DnsManager) : list event :=
  drop (length (events before)) (events after).

End Dns.

(** ** The properties under study *)

Module Props.

Import Algo.

(** *** Scrape URLs *)

Definition no_slash (s : string) : Prop := StdString.contains_char "/"%char s = false.

(** The suffix [[?x]]: nothing, or a question mark and the query. *)
Definition query_suffix (q : string) : Prop :=
  q = EmptyString \/ exists x, q = String "?"%char x.

(** *** Selection of the next tracker, read as a scan of the whole rest *)

(** The scan in which only a tracker that replaces the candidate can end
    the scan: a failed tracker with an earlier retry replaces the candidate
    and the scan goes on, a tracker without failures with an earlier next
    try replaces it and the scan stops, anything else is passed over. *)
Fixpoint whole_rest_scan (env : Env) (itr : nat) (cur : Tracker)
         (better_candidate : nat) (rest : list Tracker) : nat :=
  match rest with
  | [] => itr
  | b :: rest' =>
      if TrackerList.is_usable env b && can_request_state b then
        if negb (m_failed_counter b =? 0) then
          if TrackerOps.failed_time_next b <? TrackerOps.failed_time_next cur
          then whole_rest_scan env better_candidate b (S better_candidate) rest'
          else whole_rest_scan env itr cur (S better_candidate) rest'
        else
          if TrackerOps.success_time_next b <? TrackerOps.failed_time_next cur
          then better_candidate
          else whole_rest_scan env itr cur (S better_candidate) rest'
      else whole_rest_scan env itr cur (S better_candidate) rest'
  end.

Definition whole_rest_find_next (env : Env) (ts : list Tracker) (itr : nat) : nat :=
  let itr1 := (itr + find_if (fun t => TrackerList.is_usable env t && can_request_state t)
                             (drop itr ts))%nat in
  match ts !! itr1 with
  | Some cur =>
      if negb (m_failed_counter cur =? 0)
      then whole_rest_scan env itr1 cur (S itr1) (drop (S itr1) ts)
      else itr1
  | None => itr1
  end.

(** A tracker that [find_next_to_request] may pick. *)
Definition eligible (env : Env) (t : Tracker) : bool :=
  TrackerList.is_usable env t && can_request_state t.

(** An eligible tracker without failures. *)
Definition healthy_eligible (env : Env) (t : Tracker) : bool :=
  eligible env t && (m_failed_counter t =? 0).

(** *** Groups *)

(** Every entry of the list points to a tracker. *)
Definition heap_valid (w : World) : Prop :=
  forall p, p ∈ tlist w -> is_Some (heap w !! p).

(** For all [i < j], [L[i].group <= L[j].group]. *)
Definition sorted_by_group (gs : list Z) : Prop :=
  forall (i j : nat) gi gj,
    (i < j)%nat -> gs !! i = Some gi -> gs !! j = Some gj -> gi <= gj.

(** [empty ? 0 : back().group + 1], before the conversion to the unsigned
    type of [size_group]. *)
Definition num_groups (gs : list Z) : Z :=
  match last gs with
  | Some g => g + 1
  | None => 0
  end.

(** The groups present are exactly [0 .. G-1]. *)
Definition contiguous_groups (gs : list Z) : Prop :=
  forall g, g ∈ gs <-> 0 <= g < num_groups gs.

(** [tb] is the first entry of its group: it stands where its group
    begins, and no entry before it is of that group. *)
Definition first_in_group (w : World) (tb : ptr) : Prop :=
  tlist w !! TrackerList.begin_group (m_group (TrackerList.deref w tb)) w = Some tb /\
  forall (j : nat) p,
    (j < TrackerList.begin_group (m_group (TrackerList.deref w tb)) w)%nat ->
    tlist w !! j = Some p ->
    m_group (TrackerList.deref w p) <> m_group (TrackerList.deref w tb).

(** The groups of the entries [l] over the heap [h]. *)
Definition group_seq (h : gmap ptr Tracker) (l : list ptr) : list Z :=
  (fun p => m_group (h !!! p)) <$> l.

(** Where [insert] places a tracker of group [g], in terms of the groups of
    the list. *)
Definition place (g : Z) (gs : list Z) : nat :=
  match after_last (fun x => x =? g) gs with
  | Some i => i
  | None => length gs
  end.

(** What the list is left with after a call, whatever its outcome. *)
Definition after {A} (o : outcome A) : World :=
  match o with
  | Done _ w => w
  | Raised _ w => w
  | Undefined => TrackerList.empty_list ∅
  end.

(** Which insertions are considered: any group an [unsigned int] can hold. *)
Definition any_group (group : Z) (tracker : ptr) (w : World) : bool :=
  (0 <=? group) && (group <? U32.modulus).

(** Which insertions are considered: a tracker that is not yet in the list,
    into a group that exists or into the one after the last. *)
Definition existing_or_next_group (group : Z) (tracker : ptr) (w : World) : bool :=
  (0 <=? group) && (group <? U32.modulus)
  && (group <=? num_groups (TrackerList.groups w))
  && negb (bool_decide (tracker ∈ tlist w)).

(** The lists that the public operations build from an empty list, with
    insertions restricted by [guard]. *)
Inductive reachable (guard : Z -> ptr -> World -> bool) : World -> Prop :=
| reach_empty h :
    reachable guard (TrackerList.empty_list h)
| reach_insert env group tracker w itr w' :
    reachable guard w ->
    guard group tracker w = true ->
    TrackerList.insert env group tracker w = Done itr w' ->
    reachable guard w'
| reach_insert_url env group url extra w w' :
    reachable guard w ->
    guard group (fresh (dom (heap w))) w = true ->
    TrackerList.insert_url env group url extra w = Done tt w' ->
    reachable guard w'
| reach_promote itr w first w' :
    reachable guard w ->
    TrackerList.promote itr w = Done first w' ->
    reachable guard w'
| reach_cycle_group group w w' :
    reachable guard w ->
    TrackerList.cycle_group group w = Some w' ->
    reachable guard w'
| reach_randomize_group_entries w w' :
    reachable guard w ->
    TrackerList.randomize_group_entries w w' ->
    reachable guard w'
| reach_receive_success env tb l w l' w' :
    reachable guard w ->
    TrackerList.receive_success env tb l w = Done l' w' ->
    reachable guard w'.

(** *** Request throttle *)

(** [n] calls at the seconds [start], [start + 1], ... *)
Definition one_per_second (start : Z) (n : nat) : list Z :=
  (fun k => start + Z.of_nat k) <$> seq 0 n.

End Props.

(** ** Sample data *)

Module Samples.

Definition env0 : Env :=
  {| cachedTime := 1000;
     protocol_enabled_get := fun _ => true;
     TrackerDht_is_allowed := true;
     flag_extra_tracker := 2;
     m_slot_success := fun _ l => Z.of_nat (length l);
     m_slot_tracker_enabled := true;
     new_is_busy := fun _ _ => false;
     new_is_usable := fun _ _ => true;
     new_can_request_state := fun _ _ => true |}.

(** A tracker as [new TrackerHttp] at second 0 leaves it, switched on. *)
Definition idle : Tracker :=
  TrackerOps.new_Tracker 0 TRACKER_HTTP false true true "http://x/announce" 0.

(** A tracker with [n] failures, the last at [last_at]. *)
Definition failed (n last_at : Z) : Tracker :=
  assign M_failed_counter n (assign M_failed_time_last last_at idle).

(** A tracker with one success at [last_at] and no failure. *)
Definition healthy (last_at : Z) : Tracker :=
  assign M_success_counter 1 (assign M_success_time_last last_at idle).

(** [A: failed, next = 120], [C: healthy, next = 1000 + 1800],
    [B: failed, next = 80]. *)
Definition failed_healthy_failed : list Tracker :=
  [failed 3 100; healthy 1000; failed 1 75].

(** [A: failed, next = 120], [B: failed, next = 80],
    [C: healthy, next = 1000 + 1800]. *)
Definition failed_failed_healthy : list Tracker :=
  [failed 3 100; failed 1 75; healthy 1000].

(** The tracker [t] after the server has announced the interval [v]. *)
Definition with_normal_interval (v : Z) (t : Tracker) : Tracker :=
  MkTracker (m_flags t) (m_group t) (m_url t) v (m_min_interval t) (m_latest_event t)
    (m_latest_new_peers t) (m_latest_sum_peers t) (m_success_time_last t)
    (m_success_counter t) (m_failed_time_last t) (m_failed_counter t)
    (m_scrape_time_last t) (m_scrape_counter t) (m_scrape_complete t)
    (m_scrape_incomplete t) (m_scrape_downloaded t) (m_request_time_last t)
    (m_request_counter t) (m_enabled_status t) (m_type t) (is_busy t) (is_usable t)
    (can_request_state t).

(** [A: failed, next = 120], [B: healthy, next = 50]. *)
Definition failed_then_healthy : list Tracker :=
  [failed 3 100; with_normal_interval 20 (healthy 30)].

Definition heap3 : gmap ptr Tracker :=
  <[1%nat := idle]> (<[2%nat := idle]> (<[3%nat := idle]> ∅)).

(** The list after insertions into the groups 0, 1 and 0, in this order. *)
Definition tiers1 : World :=
  Props.after (TrackerList.insert env0 0 1%nat (TrackerList.empty_list heap3)).

Definition tiers2 : World := Props.after (TrackerList.insert env0 1 2%nat tiers1).

Definition tiers : World := Props.after (TrackerList.insert env0 0 3%nat tiers2).

(** The list after one insertion into group 5. *)
Definition lone_group_5 : World :=
  Props.after (TrackerList.insert env0 5 1%nat (TrackerList.empty_list heap3)).

(** A list of three idle trackers, all of group 0. *)
Definition world3 : World :=
  {| heap := heap3; tlist := [1%nat; 2%nat; 3%nat]; calls := [] |}.

(** A list of one tracker whose [failed_counter] holds the largest value
    of its type. *)
Definition world_worn_out : World :=
  {| heap := <[1%nat := failed 4294967295 100]> ∅; tlist := [1%nat]; calls := [] |}.

Definition on_manager : Dns.DnsManager :=
  {| Dns.network_active_get := true;
     Dns.m_custom_server := None;
     Dns.m_cache := ∅;
     Dns.m_enabled := true;
     Dns.events := [] |}.

Definition off_manager : Dns.DnsManager := Dns.network_active_set false on_manager.

Definition found (addr : Z) : Dns.Lookup :=
  {| Dns.is_current := true;
     Dns.getaddrinfo_ret := 0;
     Dns.ai_addr := Dns.MkSockaddr Dns.AF_INET addr;
     Dns.res_nquery_ret := -1;
     Dns.ns_initparse_ret := -1;
     Dns.answers := [];
     Dns.errno := 0 |}.

Definition not_found (error_code : Z) : Dns.Lookup :=
  {| Dns.is_current := true;
     Dns.getaddrinfo_ret := error_code;
     Dns.ai_addr := Dns.MkSockaddr 0 0;
     Dns.res_nquery_ret := -1;
     Dns.ns_initparse_ret := -1;
     Dns.answers := [];
     Dns.errno := 0 |}.

End Samples.

(** ** The rest of the tracker, of the list and of the DNS manager *)

(** *** Enabled status of a tracker *)

Module Status.

(** [Tracker::enabled_status_from_int64] *)
Definition enabled_status_from_int64 (raw : Z) : enabled_status_t :=
  if raw =? 0 then off
  else if raw =? 1 then on
  else undefined.

(** [Tracker::enabled_status_to_int64]: the cast of the enumerator, whose
    values, declared in the header, are [enumerator]. *)
Definition enabled_status_to_int64 (enumerator : enabled_status_t -> Z)
           (enabled_status : enabled_status_t) : Z :=
  enumerator enabled_status.

Definition enabled_status_eqb (a b : enabled_status_t) : bool :=
  match a, b with
  | on, on | off, off | undefined, undefined => true
  | _, _ => false
  end.

(** The object [t] after [m_enabled_status = v]. *)
Definition with_enabled_status (v : enabled_status_t) (t : Tracker) : Tracker :=
  MkTracker (m_flags t) (m_group t) (m_url t) (m_normal_interval t) (m_min_interval t)
    (m_latest_event t) (m_latest_new_peers t) (m_latest_sum_peers t)
    (m_success_time_last t) (m_success_counter t) (m_failed_time_last t)
    (m_failed_counter t) (m_scrape_time_last t) (m_scrape_counter t)
    (m_scrape_complete t) (m_scrape_incomplete t) (m_scrape_downloaded t)
    (m_request_time_last t) (m_request_counter t) v (m_type t) (is_busy t)
    (is_usable t) (can_request_state t).

(** Is a tracker of this status switched on, given what
    [Tracker::is_protocol_enabled] answers for its type? *)
Definition switched_on (protocol_is_on : bool) (s : enabled_status_t) : bool :=
  match s with
  | on => true
  | off => false
  | undefined => protocol_is_on
  end.

End Status.

(** *** Virtual calls, optional slots and what a call leaves behind *)

Module TrackerVirtual.

(** What the virtual functions [close], [disown] and [send_state] of the
    concrete trackers do to the tracker objects when they are called on the
    object at the given address.  The concrete trackers are outside this
    development: they may change any tracker object, and are taken not to
    change the vector of the list. *)
Record Virtuals : Type := MkVirtuals {
  close : ptr -> gmap ptr Tracker -> gmap ptr Tracker;
  disown : ptr -> gmap ptr Tracker -> gmap ptr Tracker;
  send_state : ptr -> Z -> gmap ptr Tracker -> gmap ptr Tracker
}.

End TrackerVirtual.

Module Dispatch.

Import TrackerVirtual (Virtuals).

(** Modelled from the spec: the values of the events of a tracker, which the
    header declares, are NONE=0, COMPLETED=1, STARTED=2, STOPPED=3 and
    SCRAPE=4. *)
Definition event_code (e : Event) : Z :=
  match e with
  | EVENT_NONE => 0
  | EVENT_COMPLETED => 1
  | EVENT_STARTED => 2
  | EVENT_STOPPED => 3
  | EVENT_SCRAPE => 4
  end.

(** Which of the optional slots of the list are set. *)
Record Slots : Type := MkSlots {
  m_slot_tracker_disabled : bool;
  m_slot_scrape_success : bool;
  m_slot_scrape_failed : bool
}.

(** The virtual calls and the slot calls of the list, in call order. *)
Inductive effect : Type :=
| call_close (tracker : ptr)
| call_disown (tracker : ptr)
| call_send_state (tracker : ptr) (new_event : Z)
| slot_tracker_enabled (tracker : ptr)
| slot_tracker_disabled (tracker : ptr)
| slot_scrape_success (tracker : ptr)
| slot_scrape_failed (tracker : ptr) (msg : string).

(** A finished call: the state, the calls made, and the exception if one
    left the function. *)
Record run : Type := MkRun {
  final : World;
  effects : list effect;
  raised : option exception
}.

Definition with_heap (h : gmap ptr Tracker) (w : World) : World :=
  {| heap := h; tlist := tlist w; calls := calls w |}.

(** [TrackerList::receive_tracker_enabled_change] *)
Definition receive_tracker_enabled_change (env : Env) (sl : Slots) (vt : Virtuals)
           (tracker : ptr) (previous current : enabled_status_t)
           (h : gmap ptr Tracker) : gmap ptr Tracker * list effect :=
  let protocol_is_on := TrackerList.is_protocol_enabled env (m_type (h !!! tracker)) in
  let tracker_was_on :=
    Status.enabled_status_eqb previous on
    || (Status.enabled_status_eqb previous undefined && protocol_is_on) in
  let tracker_is_on :=
    Status.enabled_status_eqb current on
    || (Status.enabled_status_eqb current undefined && protocol_is_on) in
  let '(h1, closing) :=
    if tracker_was_on && Status.enabled_status_eqb current undefined && negb protocol_is_on
    then (TrackerVirtual.close vt tracker h, [call_close tracker])
    else (h, []) in
  let notifying :=
    if negb (Bool.eqb tracker_is_on tracker_was_on) then
      if tracker_is_on
      then (if m_slot_tracker_enabled env then [slot_tracker_enabled tracker] else [])
      else (if m_slot_tracker_disabled sl then [slot_tracker_disabled tracker] else [])
    else [] in
  (h1, closing ++ notifying).

(** [Tracker::set_enabled_status] on the object at the address [this];
    [m_parent] is the list of [w]. *)
Definition set_enabled_status (env : Env) (sl : Slots) (vt : Virtuals) (this : ptr)
           (enabled_status : enabled_status_t) (w : World) : World * list effect :=
  let t := TrackerList.deref w this in
  if Status.enabled_status_eqb enabled_status (m_enabled_status t) then (w, [])
  else
    let old := m_enabled_status t in
    let h1 := <[this := Status.with_enabled_status enabled_status t]> (heap w) in
    let '(h2, closing) :=
      if Status.enabled_status_eqb (m_enabled_status (h1 !!! this)) off
      then (TrackerVirtual.close vt this h1, [call_close this])
      else (h1, []) in
    let '(h3, rest) :=
      receive_tracker_enabled_change env sl vt this old
        (m_enabled_status (h2 !!! this)) h2 in
    (with_heap h3 w, closing ++ rest).

(** [TrackerList::send_state] *)
Definition send_state (env : Env) (vt : Virtuals) (tracker : ptr) (new_event : Z)
           (w : World) : run :=
  let t := TrackerList.deref w tracker in
  let dispatch (h : gmap ptr Tracker) (before : list effect) : run :=
    let h1 := TrackerVirtual.send_state vt tracker new_event h in
    match TrackerOps.inc_request_counter (cachedTime env) (h1 !!! tracker) with
    | Ret _ t2 =>
        MkRun (with_heap (<[tracker := t2]> h1) w)
              (before ++ [call_send_state tracker new_event]) None
    | Throw e t2 =>
        MkRun (with_heap (<[tracker := t2]> h1) w)
              (before ++ [call_send_state tracker new_event]) (Some e)
    end in
  if negb (TrackerList.is_usable env t) || (new_event =? event_code EVENT_SCRAPE)
  then MkRun w [] None
  else if is_busy t then
    if negb (event_code (m_latest_event t) =? event_code EVENT_SCRAPE)
    then MkRun w [] None
    else dispatch (TrackerVirtual.close vt tracker (heap w)) [call_close tracker]
  else dispatch (heap w) [].

(** Is the bit of the latest event of [t] set in [event_bitmap]:
    [event_bitmap & (1 << latest_event)]? *)
Definition in_bitmap (event_bitmap : Z) (t : Tracker) : bool :=
  negb (Z.land event_bitmap (Z.shiftl 1 (event_code (m_latest_event t))) =? 0).

(** The loop of [close_all_excluding] over the entries [l]. *)
Fixpoint close_loop (vt : Virtuals) (event_bitmap : Z) (l : list ptr)
         (h : gmap ptr Tracker) : gmap ptr Tracker * list effect :=
  match l with
  | [] => (h, [])
  | p :: l' =>
      if in_bitmap event_bitmap (h !!! p)
      then close_loop vt event_bitmap l' h
      else
        let '(h', es) := close_loop vt event_bitmap l' (TrackerVirtual.close vt p h) in
        (h', call_close p :: es)
  end.

(** [TrackerList::close_all_excluding] *)
Definition close_all_excluding (vt : Virtuals) (event_bitmap : Z) (w : World)
  : World * list effect :=
  let '(h, es) := close_loop vt event_bitmap (tlist w) (heap w) in
  (with_heap h w, es).

(** The loop of [disown_all_including] over the entries [l]. *)
Fixpoint disown_loop (vt : Virtuals) (event_bitmap : Z) (l : list ptr)
         (h : gmap ptr Tracker) : gmap ptr Tracker * list effect :=
  match l with
  | [] => (h, [])
  | p :: l' =>
      if in_bitmap event_bitmap (h !!! p)
      then
        let '(h', es) := disown_loop vt event_bitmap l' (TrackerVirtual.disown vt p h) in
        (h', call_disown p :: es)
      else disown_loop vt event_bitmap l' h
  end.

(** [TrackerList::disown_all_including] *)
Definition disown_all_including (vt : Virtuals) (event_bitmap : Z) (w : World)
  : World * list effect :=
  let '(h, es) := disown_loop vt event_bitmap (tlist w) (heap w) in
  (with_heap h w, es).

(** [TrackerList::clear_stats]: [Tracker::clear_stats] on every entry. *)
Definition clear_stats (w : World) : World :=
  with_heap (foldl (fun h p => <[p := TrackerOps.clear_stats (h !!! p)]> h)
                   (heap w) (tlist w)) w.

(** [TrackerList::receive_scrape_success] *)
Definition receive_scrape_success (env : Env) (sl : Slots) (tb : ptr) (w : World) : run :=
  let itr := TrackerList.find tb w in
  if decide (itr = length (tlist w)) then
    MkRun w [] (Some (internal_error
      "TrackerList::receive_success(...) called but the iterator is invalid."))
  else if is_busy (TrackerList.deref w tb) then
    MkRun w [] (Some (internal_error
      "TrackerList::receive_success(...) called but the iterator is invalid."))
  else
    let t := TrackerList.deref w tb in
    let t := assign M_scrape_time_last (wrap32 (cachedTime env)) t in
    let t := assign M_scrape_counter (U32.incr (m_scrape_counter t)) t in
    MkRun (with_heap (<[tb := t]> (heap w)) w)
          (if m_slot_scrape_success sl then [slot_scrape_success tb] else []) None.

(** [TrackerList::receive_scrape_failed] *)
Definition receive_scrape_failed (sl : Slots) (tb : ptr) (msg : string) (w : World) : run :=
  let itr := TrackerList.find tb w in
  if decide (itr = length (tlist w)) then
    MkRun w [] (Some (internal_error
      "TrackerList::receive_failed(...) called but the iterator is invalid."))
  else if is_busy (TrackerList.deref w tb) then
    MkRun w [] (Some (internal_error
      "TrackerList::receive_failed(...) called but the iterator is invalid."))
  else
    MkRun w (if m_slot_scrape_failed sl then [slot_scrape_failed tb msg] else []) None.

End Dispatch.

(** *** Queries on the list *)

Module Queries.

Import Algo.
Local Open Scope nat_scope.

(** [std::count_if] *)
Fixpoint count_if {A} (p : A -> bool) (l : list A) : nat :=
  match l with
  | [] => 0
  | x :: l' => if p x then S (count_if p l') else count_if p l'
  end.

(** [TrackerList::has_active] *)
Definition has_active (w : World) : bool :=
  negb (find_if is_busy (TrackerList.trackers w) =? length (tlist w)).

(** [TrackerList::count_active]; the count is converted to
    [unsigned int]. *)
Definition count_active (w : World) : Z :=
  wrap32 (Z.of_nat (count_if is_busy (TrackerList.trackers w))).

(** The loop of [has_usable]. *)
Fixpoint has_usable_loop (env : Env) (l : list Tracker) : bool :=
  match l with
  | [] => false
  | tracker :: l' =>
      if TrackerList.is_usable env tracker then true else has_usable_loop env l'
  end.

(** [TrackerList::has_usable] *)
Definition has_usable (env : Env) (w : World) : bool :=
  has_usable_loop env (TrackerList.trackers w).

(** The loop of [count_usable], with [count] an [unsigned int]. *)
Fixpoint count_usable_loop (env : Env) (l : list Tracker) (count : Z) : Z :=
  match l with
  | [] => count
  | tracker :: l' =>
      if TrackerList.is_usable env tracker
      then count_usable_loop env l' (U32.incr count)
      else count_usable_loop env l' count
  end.

(** [TrackerList::count_usable] *)
Definition count_usable (env : Env) (w : World) : Z :=
  count_usable_loop env (TrackerList.trackers w) 0%Z.

(** [TrackerList::find_usable] *)
Definition find_usable (env : Env) (itr : nat) (w : World) : nat :=
  itr + find_if (TrackerList.is_usable env) (drop itr (TrackerList.trackers w)).

(** [TrackerList::find_url] *)
Definition find_url (url : string) (w : World) : nat :=
  find_if (fun t => String.eqb url (m_url t)) (TrackerList.trackers w).

(** [size()] *)
Definition size (w : World) : nat := length (tlist w).

End Queries.

(** *** The custom name server *)

Module DnsServer.

Import Dns.

(** A [sockaddr_in]; the port is in network byte order. *)
Record sockaddr_in : Type := MkSockaddrIn { sin_family : Z; sin_port : Z; sin_addr : Z }.

(** The part of [_res] that [server_set] writes. *)
Record res_state : Type := MkRes { nsaddr_list_0 : sockaddr_in; nscount : Z }.

(** What a call of [server_set] leaves: nothing that C++ defines when it
    copies from a null pointer, else the manager, the resolver state and the
    exception if any. *)
Inductive served : Type :=
| served_undefined
| served_throw (e : exception) (d : DnsManager) (res : res_state)
| served_done (d : DnsManager) (res : res_state).

Definition with_custom_server (sa : option sockaddr) (d : DnsManager) : DnsManager :=
  {| network_active_get := network_active_get d;
     m_custom_server := sa;
     m_cache := m_cache d;
     m_enabled := m_enabled d;
     events := events d |}.

(** [DnsManager::server_set]; [res_ninit_ret] is the value of
    [res_ninit], [res_init] the state it leaves and [htons_53] the value of
    [htons(53)]. *)
Definition server_set (HAVE_RESOLV_H : bool) (htons_53 : Z) (res_ninit_ret : Z)
           (res_init : res_state) (sa : option sockaddr_in) (d : DnsManager)
           (res : res_state) : served :=
  if negb HAVE_RESOLV_H
  then served_throw (internal_error "Can't set custom DNS server, it was compiled out.")
                    d res
  else
  match sa with
  | Some a =>
      if negb (sin_family a =? AF_INET)
      then served_throw (input_error "Tried to set a custom dns server that is not ipv4.")
                        d res
      else if negb (res_ninit_ret =? 0)
      then served_throw (internal_error "Failed to res_init.") d res_init
      else
        let sin := if sin_port a =? 0
                   then MkSockaddrIn (sin_family a) htons_53 (sin_addr a)
                   else a in
        served_done (with_custom_server (Some (MkSockaddr (sin_family a) (sin_addr a))) d)
                    (MkRes sin 1)
  | None =>
      if negb (res_ninit_ret =? 0)
      then served_throw (internal_error "Failed to res_init.") d res_init
      else served_undefined
  end.

(** The A records of an answer section that [ns_parserr] could read. *)
Fixpoint a_records (msgs : list (option ns_rr)) : list ns_rr :=
  match msgs with
  | [] => []
  | Some rr :: rest => if rr_type rr =? ns_t_a then rr :: a_records rest else a_records rest
  | None :: rest => a_records rest
  end.

End DnsServer.

(** *** Further properties *)

Module Props2.

(** The seconds [nows] do not go back, starting from [start], and fit
    32 bits. *)
Fixpoint ascending_from (start : Z) (nows : list Z) : Prop :=
  match nows with
  | [] => True
  | now :: rest => start <= now < U32.modulus /\ ascending_from now rest
  end.

(** The stretch of a group in the list [l]: [pre], then the entry [x] of
    the group where the group begins, then the further entries [seg] of the
    group, then [post], which does not go on with the group. *)
Definition group_stretch (w : World) (group : Z) (pre : list ptr) (x : ptr)
           (seg post : list ptr) : Prop :=
  tlist w = pre ++ x :: seg ++ post /\
  length pre = TrackerList.begin_group group w /\
  Forall (fun p => m_group (TrackerList.deref w p) = group) (x :: seg) /\
  match post with
  | [] => True
  | y :: _ => m_group (TrackerList.deref w y) <> group
  end.

(** The class of tracker that [insert_url] constructs for [url]. *)
Definition scheme_of (env : Env) (url : string) : option TrackerType :=
  if StdString.starts_with "http://" url || StdString.starts_with "https://" url
  then Some TRACKER_HTTP
  else if StdString.starts_with "udp://" url
  then Some TRACKER_UDP
  else if StdString.starts_with "dht://" url && TrackerDht_is_allowed env
  then Some TRACKER_DHT
  else None.

(** The trackers [t'] and [t] look the same to [find_next_to_request]. *)
Definition same_schedule (env : Env) (t' t : Tracker) : Prop :=
  TrackerList.is_usable env t' = TrackerList.is_usable env t /\
  can_request_state t' = can_request_state t /\
  m_failed_counter t' = m_failed_counter t /\
  TrackerOps.failed_time_next t' = TrackerOps.failed_time_next t /\
  TrackerOps.success_time_next t' = TrackerOps.success_time_next t.

(** The global lock as the calling thread holds it over the events [evs]:
    [None] if it is released while not held or acquired while held, else
    whether it is held in the end. *)
Fixpoint lock_after (held : bool) (evs : list Dns.event) : option bool :=
  match evs with
  | [] => Some held
  | Dns.release_global_lock :: rest => if held then lock_after false rest else None
  | Dns.acquire_global_lock :: rest => if held then None else lock_after true rest
  | _ :: rest => lock_after held rest
  end.

(** For each event of [evs] that satisfies [p], whether the lock is held
    when it happens. *)
Fixpoint held_at (p : Dns.event -> bool) (held : bool) (evs : list Dns.event) : list bool :=
  match evs with
  | [] => []
  | e :: rest =>
      let held' := match e with
                   | Dns.release_global_lock => false
                   | Dns.acquire_global_lock => true
                   | _ => held
                   end in
      if p e then held :: held_at p held' rest else held_at p held' rest
  end.

Definition is_getaddrinfo (e : Dns.event) : bool :=
  match e with Dns.getaddrinfo _ _ _ => true | _ => false end.

Definition is_res_nquery (e : Dns.event) : bool :=
  match e with Dns.res_nquery _ => true | _ => false end.

End Props2.

(** *** The connection manager *)

Module ConnectionManager.

(** The members of [ConnectionManager] that the functions below read or
    write; [listen_is_open] is what [m_listen->is_open()] answers. *)
Record ConnectionManager : Type := MkConnectionManager {
  m_size : Z;
  m_maxSize : Z;
  m_listen_backlog : Z;
  listen_is_open : bool
}.

(** [ConnectionManager::can_connect] *)
Definition can_connect (cm : ConnectionManager) : bool := m_size cm <? m_maxSize cm.

(** [ConnectionManager::set_listen_backlog] *)
Definition set_listen_backlog (v : Z) (cm : ConnectionManager)
  : result ConnectionManager unit :=
  if (v <? 1) || (Z.shiftl 1 16 <=? v)
  then Throw (input_error "backlog value out of bounds") cm
  else if listen_is_open cm
  then Throw (input_error "backlog value must be set before listen port is opened") cm
  else Ret tt {| m_size := m_size cm;
                 m_maxSize := m_maxSize cm;
                 m_listen_backlog := v;
                 listen_is_open := listen_is_open cm |}.

(** Calls of [set_listen_backlog] one after the other, the caller catching
    the exceptions. *)
Definition set_listen_backlogs (vs : list Z) (cm : ConnectionManager) : ConnectionManager :=
  foldl (fun cm v => state_of (set_listen_backlog v cm)) cm vs.

End ConnectionManager.

(** *** The resolver of the connection manager *)

Module ConnectionResolver.

Import Dns.

(** The loop of [resolve_host_custom] of [connection_manager.cc] over the
    answer section: the address handed to the slot by the first A record, if
    there is one. *)
Fixpoint first_answer (msgs : list (option ns_rr)) : exception + option sockaddr :=
  match msgs with
  | [] => inr None
  | None :: rest => first_answer rest
  | Some rr :: rest =>
      if rr_type rr =? ns_t_a then
        if negb (rdlength rr =? 4) then inl (internal_error "Invalid rd length.")
        else inr (Some {| sa_family := AF_INET; s_addr := rdata rr |})
      else first_answer rest
  end.

(** [resolve_host_custom] of [connection_manager.cc]: the events, the call
    of the slot being the event [cb], and the exception if one is raised. *)
Definition resolve_host_custom (lk : Lookup) (host : string) (family socktype : Z)
  : list event * option exception :=
  let found :=
    if (-1 <? res_nquery_ret lk) && (-1 <? ns_initparse_ret lk)
    then first_answer (answers lk)
    else inr None in
  match found with
  | inl e => ([res_nquery host], Some e)
  | inr (Some sa) => ([res_nquery host; cb (Some sa) 0], None)
  | inr None => ([res_nquery host; cb None (errno lk)], None)
  end.

End ConnectionResolver.

(** *** Further sample data *)

Module Samples2.

(** Concrete trackers whose [close], [disown] and [send_state] leave the
    objects as they are. *)
Definition idle_virtuals : TrackerVirtual.Virtuals :=
  {| TrackerVirtual.close := fun _ h => h;
     TrackerVirtual.disown := fun _ h => h;
     TrackerVirtual.send_state := fun _ _ h => h |}.

(** A list none of whose optional slots is set. *)
Definition no_slots : Dispatch.Slots :=
  {| Dispatch.m_slot_tracker_disabled := false;
     Dispatch.m_slot_scrape_success := false;
     Dispatch.m_slot_scrape_failed := false |}.

(** An answer section with two A records, a record of another type between
    them and a message that cannot be read. *)
Definition two_a_records : Dns.Lookup :=
  {| Dns.is_current := true;
     Dns.getaddrinfo_ret := -2;
     Dns.ai_addr := Dns.MkSockaddr 0 0;
     Dns.res_nquery_ret := 64;
     Dns.ns_initparse_ret := 0;
     Dns.answers := [Some (Dns.MkRr 1 4 11); None; Some (Dns.MkRr 5 9 0);
                     Some (Dns.MkRr 1 4 22)];
     Dns.errno := 0 |}.

(** A manager that has resolved [tracker.example] with the system
    resolver. *)
Definition warm_manager : Dns.DnsManager :=
  state_of (Dns.resolve (Samples.found 7) "tracker.example" Dns.AF_INET 1 Samples.on_manager).

End Samples2.

(** * Proofs *)

(** ** Arithmetic on 32 bits *)

Section U32_facts.

Lemma wrap32_small z : in_range z -> wrap32 z = z.
Proof. unfold in_range, wrap32. intros Hz. now apply Z.mod_small. Qed.

Lemma wrap32_in_range z : in_range (wrap32 z).
Proof. unfold in_range, wrap32, modulus. apply Z.mod_pos_bound. lia. Qed.

Lemma incr_small z : 0 <= z < modulus - 1 -> U32.incr z = z + 1.
Proof. intros Hz. unfold U32.incr. apply wrap32_small. unfold in_range. lia. Qed.

Lemma incr_max : U32.incr (modulus - 1) = 0.
Proof. reflexivity. Qed.

Lemma sub_small a b : in_range a -> 0 <= b <= a -> U32.sub a b = a - b.
Proof. intros Ha Hb. unfold U32.sub. apply wrap32_small. unfold in_range in *. lia. Qed.

Lemma shiftl_5 k : 0 <= k -> Z.shiftl 5 k = 5 * 2 ^ k.
Proof. intros Hk. now rewrite Z.shiftl_mul_pow2. Qed.

Lemma pow2_le_64 k : 0 <= k <= 6 -> 1 <= 2 ^ k <= 64.
Proof.
  intros Hk. split.
  - assert (0 < 2 ^ k) by (apply Z.pow_pos_nonneg; lia). lia.
  - change 64 with (2 ^ 6). apply Z.pow_le_mono_r; lia.
Qed.

End U32_facts.

(** ** Back-off and statistics of one tracker *)

Section Tracker_facts.

Import TrackerOps.

(** The delay that [failed_time_next] adds, as a function of the number of
    failures. *)
Lemma backoff_shift (t : Tracker) :
  in_range (m_failed_counter t) -> 0 < m_failed_counter t ->
  Z.shiftl 5 (Z.min (U32.sub (m_failed_counter t) 1) 6)
  = 5 * 2 ^ Z.min (m_failed_counter t - 1) 6.
Proof.
  intros Hr Hpos. rewrite sub_small by (auto; lia).
  apply shiftl_5. lia.
Qed.

Lemma backoff_bounds c : 0 < c -> 5 <= 5 * 2 ^ Z.min (c - 1) 6 <= 320.
Proof.
  intros Hc. pose proof (pow2_le_64 (Z.min (c - 1) 6)) as H.
  assert (0 <= Z.min (c - 1) 6 <= 6) as Hk by lia. specialize (H Hk). lia.
Qed.

(** C6: [failed_time_next] is 0 without failures; with failures it is
    [failed_time_last + 5 * 2^min(failed_counter - 1, 6)] in the 32-bit
    arithmetic of the members, so that the distance to [failed_time_last]
    is 5, 10, 20, 40, 80, 160, 320 seconds over the first seven failures
    and 320 from then on. *)
Theorem failed_time_next_backoff (t : Tracker) :
  Tracker_wf t ->
  (m_failed_counter t = 0 -> failed_time_next t = 0) /\
  (0 < m_failed_counter t ->
     failed_time_next t
     = U32.add (m_failed_time_last t) (5 * 2 ^ Z.min (m_failed_counter t - 1) 6) /\
     U32.sub (failed_time_next t) (m_failed_time_last t)
     = 5 * 2 ^ Z.min (m_failed_counter t - 1) 6 /\
     (m_failed_time_last t + 320 < modulus ->
        failed_time_next t
        = m_failed_time_last t + 5 * 2 ^ Z.min (m_failed_counter t - 1) 6)) /\
  (forall n, 1 <= n <= 7 -> m_failed_counter t = n ->
     U32.sub (failed_time_next t) (m_failed_time_last t) = 5 * 2 ^ (n - 1)) /\
  (7 <= m_failed_counter t ->
     U32.sub (failed_time_next t) (m_failed_time_last t) = 320).
Proof.
  intros Hwf.
  pose proof (wf_failed_counter t Hwf) as Hc.
  pose proof (wf_failed_time_last t Hwf) as Hl.
  assert (Hpos : 0 < m_failed_counter t ->
            failed_time_next t
            = U32.add (m_failed_time_last t) (5 * 2 ^ Z.min (m_failed_counter t - 1) 6)).
  { intros Hp. unfold failed_time_next.
    destruct (Z.eqb_spec (m_failed_counter t) 0) as [E|_]; [lia|].
    now rewrite backoff_shift. }
  assert (Hdelay : 0 < m_failed_counter t ->
            U32.sub (failed_time_next t) (m_failed_time_last t)
            = 5 * 2 ^ Z.min (m_failed_counter t - 1) 6).
  { intros Hp. rewrite (Hpos Hp).
    pose proof (backoff_bounds _ Hp) as Hb.
    set (d := 5 * 2 ^ Z.min (m_failed_counter t - 1) 6) in *.
    unfold U32.sub, U32.add, wrap32.
    rewrite Zminus_mod_idemp_l.
    replace (m_failed_time_last t + d - m_failed_time_last t) with d by lia.
    apply Z.mod_small. unfold modulus. lia. }
  split; [|split; [|split]].
  - intros E. unfold failed_time_next. now rewrite E.
  - intros Hp. split; [now apply Hpos|]. split; [now apply Hdelay|].
    intros Hno. rewrite (Hpos Hp). unfold U32.add. apply wrap32_small.
    pose proof (backoff_bounds _ Hp). unfold in_range in *. lia.
  - intros n Hn E. rewrite Hdelay by lia. rewrite E.
    f_equal. f_equal. lia.
  - intros H7. rewrite Hdelay by lia.
    replace (Z.min (m_failed_counter t - 1) 6) with 6 by lia. reflexivity.
Qed.

Lemma Tracker_wf_failed : Tracker_wf (Samples.failed 3 100).
Proof. split; cbv; split; congruence. Qed.

Lemma failed_time_next_backoff_witness :
  failed_time_next (Samples.failed 3 100) = 120 /\
  U32.sub (failed_time_next (Samples.failed 3 100)) 100 = 20.
Proof.
  destruct (failed_time_next_backoff (Samples.failed 3 100) Tracker_wf_failed)
    as (_ & Hpos & _ & _).
  destruct Hpos as (_ & Hd & Hn); [reflexivity|].
  split.
  - rewrite Hn; [reflexivity | reflexivity].
  - exact Hd.
Defined.

(** C10: [clear_stats] zeroes the five statistics members and nothing
    else, after which both [failed_time_next] and [success_time_next]
    are 0. *)
Theorem clear_stats_frame (t : Tracker) :
  let t' := clear_stats t in
  (m_latest_new_peers t' = 0 /\ m_latest_sum_peers t' = 0 /\
   m_success_counter t' = 0 /\ m_failed_counter t' = 0 /\ m_scrape_counter t' = 0) /\
  (m_success_time_last t' = m_success_time_last t /\
   m_failed_time_last t' = m_failed_time_last t /\
   m_scrape_time_last t' = m_scrape_time_last t /\
   m_request_time_last t' = m_request_time_last t /\
   m_request_counter t' = m_request_counter t /\
   m_group t' = m_group t /\
   m_url t' = m_url t /\
   m_flags t' = m_flags t /\
   m_enabled_status t' = m_enabled_status t) /\
  (m_normal_interval t' = m_normal_interval t /\
   m_min_interval t' = m_min_interval t /\
   m_latest_event t' = m_latest_event t /\
   m_scrape_complete t' = m_scrape_complete t /\
   m_scrape_incomplete t' = m_scrape_incomplete t /\
   m_scrape_downloaded t' = m_scrape_downloaded t /\
   m_type t' = m_type t /\
   is_busy t' = is_busy t /\ is_usable t' = is_usable t /\
   can_request_state t' = can_request_state t) /\
  failed_time_next t' = 0 /\ success_time_next t' = 0.
Proof. cbv zeta. repeat split. Qed.

End Tracker_facts.

(** ** The request throttle *)

Section Throttle.

Import TrackerOps.

Lemma inc_request_counter_state now t :
  m_request_counter (state_of (inc_request_counter now t))
  = U32.incr (U32.sub (m_request_counter t)
                (Z.min (m_request_counter t)
                       (U32.sub (wrap32 now) (m_request_time_last t)))) /\
  m_request_time_last (state_of (inc_request_counter now t)) = wrap32 now.
Proof.
  unfold inc_request_counter. cbn -[U32.incr U32.sub wrap32 Z.leb Z.min].
  destruct (10 <=? _); cbn -[U32.incr U32.sub wrap32 Z.min]; auto.
Qed.

Lemma inc_request_counter_threw now t :
  threw (inc_request_counter now t) = true
  <-> 10 <= m_request_counter (state_of (inc_request_counter now t)).
Proof.
  unfold inc_request_counter. cbn -[U32.incr U32.sub wrap32 Z.leb Z.min].
  destruct (Z.leb_spec 10
    (U32.incr (U32.sub (m_request_counter t)
       (Z.min (m_request_counter t) (U32.sub (wrap32 now) (m_request_time_last t))))));
    cbn -[U32.incr U32.sub wrap32 Z.min]; split; intros; (congruence || lia).
Qed.

Lemma decay_clamped c elapsed :
  in_range c -> 0 <= elapsed -> U32.sub c (Z.min c elapsed) = Z.max 0 (c - elapsed).
Proof. intros Hc He. rewrite sub_small by (auto; unfold in_range in *; lia). lia. Qed.

(** A call in the second of the previous one adds one to the counter. *)
Lemma inc_same_second now t :
  in_range (m_request_counter t) ->
  m_request_counter t = 0 \/ m_request_time_last t = wrap32 now ->
  m_request_counter t + 1 < 10 ->
  exists t', inc_request_counter now t = Ret tt t' /\
             m_request_counter t' = m_request_counter t + 1 /\
             m_request_time_last t' = wrap32 now.
Proof.
  intros Hc Hsame Hlt.
  pose proof (inc_request_counter_state now t) as [Hs1 Hs2].
  pose proof (inc_request_counter_threw now t) as Hthrew.
  assert (Hdec : U32.sub (m_request_counter t)
                   (Z.min (m_request_counter t)
                      (U32.sub (wrap32 now) (m_request_time_last t)))
                 = m_request_counter t).
  { pose proof (wrap32_in_range (wrap32 now - m_request_time_last t)) as He.
    rewrite decay_clamped by (auto; apply He).
    destruct Hsame as [E|E].
    - rewrite E. unfold U32.sub. unfold in_range in He. lia.
    - rewrite E. unfold U32.sub. rewrite Z.sub_diag. change (wrap32 0) with 0.
      unfold in_range in Hc. lia. }
  rewrite Hdec in Hs1. rewrite incr_small in Hs1 by (unfold in_range, modulus in *; lia).
  destruct (inc_request_counter now t) as [[] t'|e t'] eqn:E; cbn in *.
  - exists t'. auto.
  - exfalso. assert (10 <= m_request_counter t') by (apply Hthrew; reflexivity). lia.
Qed.

Lemma burst_same_second now n : forall t,
  in_range (m_request_counter t) ->
  m_request_counter t = 0 \/ m_request_time_last t = wrap32 now ->
  m_request_counter t + Z.of_nat n < 10 ->
  exists t', inc_request_counter_calls (replicate n now) t = Ret tt t' /\
             m_request_counter t' = m_request_counter t + Z.of_nat n /\
             (n <> O -> m_request_time_last t' = wrap32 now).
Proof.
  induction n as [|n IH]; intros t Hc Hsame Hlt.
  - exists t. cbn. split; [reflexivity|]. split; [lia|congruence].
  - destruct (inc_same_second now t Hc Hsame) as (t1 & E1 & Hc1 & Hl1); [lia|].
    destruct (IH t1) as (t' & E' & Hc' & Hl').
    + unfold in_range, modulus in *. lia.
    + now right.
    + lia.
    + exists t'. cbn [replicate inc_request_counter_calls]. rewrite E1.
      split; [exact E'|]. split; [lia|]. intros _.
      destruct n; [|now apply Hl'].
      cbn in E'. injection E' as <-. exact Hl1.
Qed.

(** C5, as amended: the counter first loses one per second elapsed since
    [request_time_last], not going below zero, then gains one, and
    [request_time_last] becomes the current time; the call raises an internal
    error exactly when the counter it leaves is 10 or more.  From a counter
    below 10 the counter left is at most 10.  Ten calls within one second,
    from a counter of 0, raise the error at the tenth call and not before. *)
Theorem inc_request_counter_throttle (now : Z) (t : Tracker) :
  Tracker_wf t ->
  let elapsed := U32.sub (wrap32 now) (m_request_time_last t) in
  let r := inc_request_counter now t in
  (m_request_counter (state_of r) = U32.incr (Z.max 0 (m_request_counter t - elapsed)) /\
   m_request_time_last (state_of r) = wrap32 now) /\
  (threw r = true <-> 10 <= m_request_counter (state_of r)) /\
  (forall e s, r = Throw e s -> is_internal_error e = true) /\
  (m_request_counter t <= 9 ->
     m_request_counter (state_of r) = Z.max 0 (m_request_counter t - elapsed) + 1 /\
     m_request_counter (state_of r) <= 10 /\
     (threw r = true <-> m_request_counter (state_of r) = 10)) /\
  (m_request_counter t = 0 ->
     threw (inc_request_counter_calls (replicate 9 now) t) = false /\
     exists e s, inc_request_counter_calls (replicate 10 now) t = Throw e s /\
                 is_internal_error e = true /\ m_request_counter s = 10).
Proof.
  intros Hwf elapsed r.
  pose proof (wf_request_counter t Hwf) as Hc.
  pose proof (inc_request_counter_state now t) as [Hs1 Hs2].
  pose proof (inc_request_counter_threw now t) as Hthrew.
  assert (He : 0 <= elapsed) by (apply (wrap32_in_range (wrap32 now - m_request_time_last t))).
  fold elapsed in Hs1. rewrite decay_clamped in Hs1 by auto.
  fold r in Hs1, Hs2, Hthrew.
  split; [split; assumption|]. split; [exact Hthrew|]. split; [|split].
  - subst r. unfold inc_request_counter. intros e s.
    destruct (10 <=? _); intros E; [|discriminate]. now injection E as <- _.
  - intros H9.
    assert (Hsmall : U32.incr (Z.max 0 (m_request_counter t - elapsed))
                     = Z.max 0 (m_request_counter t - elapsed) + 1).
    { apply incr_small. unfold in_range, modulus in *. lia. }
    rewrite Hsmall in Hs1. split; [exact Hs1|]. split; [lia|].
    rewrite Hthrew. lia.
  - intros H0. split.
    + destruct (burst_same_second now 9 t Hc) as (t' & E & _); [now left|lia|].
      now rewrite E.
    + destruct (burst_same_second now 9 t Hc) as (t' & E & Hc' & Hl'); [now left|lia|].
      change (replicate 10 now) with (replicate 9 now ++ [now]).
      assert (Happ : forall l1 l2 u u',
                inc_request_counter_calls l1 u = Ret tt u' ->
                inc_request_counter_calls (l1 ++ l2) u = inc_request_counter_calls l2 u').
      { induction l1 as [|x l1 IHl]; intros l2 u u' Eu; cbn in *.
        - now injection Eu as <-.
        - destruct (inc_request_counter x u) as [[] u1|]; [|discriminate]. now apply IHl. }
      rewrite (Happ _ _ _ _ E). cbn [inc_request_counter_calls].
      pose proof (inc_request_counter_state now t') as [Ht1 Ht2].
      pose proof (inc_request_counter_threw now t') as Ht3.
      rewrite Hl' in Ht1 by congruence.
      assert (E10 : m_request_counter (state_of (inc_request_counter now t')) = 10).
      { rewrite Ht1. unfold U32.sub at 2. rewrite Z.sub_diag.
        rewrite Hc', H0. reflexivity. }
      destruct (inc_request_counter now t') as [[] u|e u] eqn:Einc; cbn in *.
      * exfalso. assert (false = true) by (apply Ht3; lia). discriminate.
      * exists e, u. split; [reflexivity|]. split; [|exact E10].
        revert Einc. unfold inc_request_counter.
        destruct (10 <=? _); intros Einc; [|discriminate]. now injection Einc as <- _.
Qed.

Lemma Tracker_wf_idle : Tracker_wf Samples.idle.
Proof. split; cbv; split; congruence. Qed.

Lemma inc_request_counter_throttle_witness :
  threw (inc_request_counter_calls (replicate 9 5) Samples.idle) = false /\
  exists e s, inc_request_counter_calls (replicate 10 5) Samples.idle = Throw e s /\
              is_internal_error e = true /\ m_request_counter s = 10.
Proof.
  destruct (inc_request_counter_throttle 5 Samples.idle Tracker_wf_idle)
    as (_ & _ & _ & _ & Hburst).
  apply Hburst. reflexivity.
Defined.

(** C5, as stated, fails: ten calls within ten seconds, one per second from
    the second the tracker was created, raise no error and leave the
    counter at 1; so do ten calls within two seconds, which leave it
    at 9. *)
Lemma ten_calls_in_ten_seconds_pass :
  length (Props.one_per_second 0 10) = 10%nat /\
  inc_request_counter_calls (Props.one_per_second 0 10) Samples.idle
  = Ret tt (assign M_request_counter 1 (assign M_request_time_last 9 Samples.idle)) /\
  threw (inc_request_counter_calls [0; 0; 0; 0; 0; 1; 1; 1; 1; 1] Samples.idle) = false /\
  m_request_counter
    (state_of (inc_request_counter_calls [0; 0; 0; 0; 0; 1; 1; 1; 1; 1] Samples.idle)) = 9.
Proof. repeat split. Qed.

End Throttle.

(** ** Scrape URLs *)

Section Scrape.

Import StdString TrackerOps.
Local Open Scope string_scope.
Local Open Scope nat_scope.

Lemma append_nil s : "" ++ s = s.
Proof. reflexivity. Qed.

Lemma append_cons a p s : String a p ++ s = String a (p ++ s).
Proof. reflexivity. Qed.

Lemma contains_char_app c a b :
  contains_char c (a ++ b) = contains_char c a || contains_char c b.
Proof.
  induction a as [|x a IH]; rewrite ?append_nil, ?append_cons; cbn; [reflexivity|].
  rewrite IH. now rewrite orb_assoc.
Qed.

Lemma rfind_None c s : rfind c s = None <-> contains_char c s = false.
Proof.
  induction s as [|a s IH]; cbn; [tauto|].
  destruct (rfind c s) as [i|].
  - split; [discriminate|]. intros H. apply orb_false_elim in H as [_ H].
    apply IH in H. discriminate.
  - assert (contains_char c s = false) as -> by now apply IH.
    rewrite orb_false_r. destruct (Ascii.eqb a c); split; congruence.
Qed.

(** The last occurrence splits the string, and such a split is unique. *)
Lemma rfind_split c pre tl :
  contains_char c tl = false ->
  rfind c (pre ++ String c tl) = Some (String.length pre).
Proof.
  intros Htl. induction pre as [|a pre IH]; rewrite ?append_nil, ?append_cons; cbn.
  - apply rfind_None in Htl. rewrite Htl. now rewrite Ascii.eqb_refl.
  - now rewrite IH.
Qed.

Lemma rfind_Some c s d :
  rfind c s = Some d ->
  exists pre tl, s = pre ++ String c tl /\ String.length pre = d /\
                 contains_char c tl = false.
Proof.
  revert d. induction s as [|a s IH]; cbn; intros d H; [discriminate|].
  destruct (rfind c s) as [i|] eqn:E.
  - injection H as <-. destruct (IH i eq_refl) as (pre & tl & -> & <- & Htl).
    exists (String a pre), tl. auto.
  - destruct (Ascii.eqb_spec a c) as [->|]; [|discriminate].
    injection H as <-. exists "", s. repeat split. now apply rfind_None.
Qed.

Lemma skip_app pre s : skip (String.length pre) (pre ++ s) = Some s.
Proof.
  induction pre as [|a pre IH]; rewrite ?append_nil, ?append_cons; cbn;
    [now destruct s | exact IH].
Qed.

Lemma take_str_app pre s : take_str (String.length pre) (pre ++ s) = pre.
Proof.
  induction pre as [|a pre IH]; rewrite ?append_nil, ?append_cons; cbn;
    [now destruct s | now rewrite IH].
Qed.

Lemma drop_str_app pre s n : drop_str (String.length pre + n) (pre ++ s) = drop_str n s.
Proof.
  induction pre as [|a pre IH]; rewrite ?append_nil, ?append_cons; cbn;
    [reflexivity | exact IH].
Qed.

Lemma starts_with_app pat r : starts_with pat (pat ++ r) = true.
Proof.
  induction pat as [|a pat IH]; rewrite ?append_nil, ?append_cons; cbn; [reflexivity|].
  now rewrite Ascii.eqb_refl, IH.
Qed.

Lemma starts_with_inv pat : forall s,
  starts_with pat s = true -> exists r, s = pat ++ r.
Proof.
  induction pat as [|a pat IH]; intros s H.
  - exists s. reflexivity.
  - destruct s as [|b s]; cbn in H; [discriminate|].
    apply andb_prop in H as [Hab Hs]. apply Ascii.eqb_eq in Hab as ->.
    destruct (IH s Hs) as (r & ->). now exists r.
Qed.

Lemma find0_here pat s : find0 pat s = Some 0 <-> starts_with pat s = true.
Proof.
  destruct s as [|a s]; cbn; destruct (starts_with pat _); split; try congruence.
  destruct (find0 pat s); discriminate.
Qed.

Lemma find_here pat s pre tl :
  s = pre ++ tl ->
  (find pat s (String.length pre) = Some (String.length pre)
   <-> starts_with pat tl = true).
Proof.
  intros ->. unfold find. rewrite skip_app.
  rewrite <- find0_here. destruct (find0 pat tl) as [i|]; cbn; [|split; discriminate].
  split; intros H; injection H as H; f_equal; lia.
Qed.

(** What [scrape_url_from] does with a URL split at its last slash. *)
Lemma scrape_url_from_split pre tl :
  contains_char "/" tl = false ->
  scrape_url_from (pre ++ String "/" tl)
  = if starts_with "announce" tl
    then inr (pre ++ "/scrape" ++ drop_str 8 tl)
    else inl (internal_error "Tried to make scrape url from invalid url.").
Proof.
  intros Htl. unfold scrape_url_from. rewrite (rfind_split _ _ _ Htl).
  pose proof (find_here "/announce" _ pre (String "/" tl) eq_refl) as Hfind.
  change (starts_with "/announce" (String "/" tl)) with (starts_with "announce" tl) in Hfind.
  destruct (starts_with "announce" tl) eqn:Esw.
  - rewrite decide_True by now apply Hfind.
    unfold replace. rewrite take_str_app, drop_str_app.
    destruct (starts_with_inv _ _ Esw) as (r & ->). reflexivity.
  - rewrite decide_False; [reflexivity|]. intros H. apply Hfind in H. discriminate.
Qed.

Lemma scrape_url_from_no_slash url :
  contains_char "/" url = false ->
  scrape_url_from url = inl (internal_error "Tried to make scrape url from invalid url.").
Proof.
  intros H. apply rfind_None in H. unfold scrape_url_from. now rewrite H.
Qed.

(** C2, as amended: a URL in which the last slash is followed by
    [announce] and then by anything without a slash (a query, but also
    [.php] or more letters) is answered with [/announce] replaced by
    [/scrape] and the rest kept; every other URL raises an internal
    error. *)
Theorem scrape_url_from_announce (url : string) :
  (forall pre rest,
     url = pre ++ "/announce" ++ rest -> Props.no_slash rest ->
     scrape_url_from url = inr (pre ++ "/scrape" ++ rest)) /\
  ((~ exists pre rest, url = pre ++ "/announce" ++ rest /\ Props.no_slash rest) ->
   scrape_url_from url = inl (internal_error "Tried to make scrape url from invalid url.")).
Proof.
  split.
  - intros pre rest -> Hrest.
    change (pre ++ "/announce" ++ rest) with (pre ++ String "/" ("announce" ++ rest)).
    rewrite scrape_url_from_split.
    + now rewrite starts_with_app.
    + rewrite contains_char_app. cbn. exact Hrest.
  - intros Hshape.
    destruct (contains_char "/" url) eqn:Eslash;
      [|now apply scrape_url_from_no_slash].
    destruct (rfind "/" url) as [d|] eqn:Erfind;
      [|apply rfind_None in Erfind; congruence].
    destruct (rfind_Some _ _ _ Erfind) as (pre & tl & -> & _ & Htl).
    rewrite (scrape_url_from_split _ _ Htl).
    destruct (starts_with "announce" tl) eqn:Esw; [|reflexivity].
    exfalso. apply Hshape.
    destruct (starts_with_inv _ _ Esw) as (r & ->).
    exists pre, r. split; [reflexivity|].
    rewrite contains_char_app in Htl. now apply orb_false_elim in Htl as [_ Htl].
Qed.

Lemma scrape_url_from_announce_witness :
  scrape_url_from "http://x/announce?foo=1" = inr "http://x/scrape?foo=1" /\
  scrape_url_from "http://x/announce" = inr "http://x/scrape" /\
  scrape_url_from "" = inl (internal_error "Tried to make scrape url from invalid url.").
Proof.
  split; [|split].
  - apply (proj1 (scrape_url_from_announce "http://x/announce?foo=1") "http://x" "?foo=1");
      reflexivity.
  - apply (proj1 (scrape_url_from_announce "http://x/announce") "http://x" ""); reflexivity.
  - apply (proj2 (scrape_url_from_announce "")).
    intros (pre & rest & E & _). destruct pre; discriminate.
Defined.

(** The split of a URL at its last slash is the only one. *)
Lemma last_slash_unique url pre tl :
  url = pre ++ String "/" tl -> contains_char "/" tl = false ->
  rfind "/" url = Some (String.length pre) /\
  drop_str (String.length pre) url = String "/" tl.
Proof.
  intros -> Htl. split; [now apply rfind_split|].
  rewrite <- (Nat.add_0_r (String.length pre)). now rewrite drop_str_app.
Qed.

(** C2, as stated, fails: [http://x/announce.php] does not have the shape
    [/announce[?x]] yet is answered, with [http://x/scrape.php]; and where
    the function refuses, as for [http://x/a], the exception is the
    internal error, not the error for invalid arguments. *)
Lemma scrape_url_from_other_shapes :
  (~ exists pre q, "http://x/announce.php" = pre ++ "/announce" ++ q /\
                   Props.no_slash q /\ Props.query_suffix q) /\
  scrape_url_from "http://x/announce.php" = inr "http://x/scrape.php" /\
  (~ exists pre q, "http://x/a" = pre ++ "/announce" ++ q /\
                   Props.no_slash q /\ Props.query_suffix q) /\
  (forall msg, scrape_url_from "http://x/a" <> inl (input_error msg)).
Proof.
  split; [|split; [reflexivity|split; [|discriminate]]].
  - intros (pre & q & E & Hq & Hsuffix).
    destruct (last_slash_unique _ pre ("announce" ++ q) E) as [Hr Hd].
    { rewrite contains_char_app. exact Hq. }
    cbn in Hr. injection Hr as Hlen. rewrite <- Hlen in Hd. cbn in Hd.
    injection Hd as Hd. rewrite append_nil in Hd. subst q.
    destruct Hsuffix as [H|(x & H)]; discriminate.
  - intros (pre & q & E & Hq & _).
    destruct (last_slash_unique _ pre ("announce" ++ q) E) as [Hr Hd].
    { rewrite contains_char_app. exact Hq. }
    cbn in Hr. injection Hr as Hlen. rewrite <- Hlen in Hd. cbn in Hd.
    discriminate.
Qed.

End Scrape.

(** ** The DNS manager *)

Section Dns_facts.

Import Dns.

(** Two keys that [operator<] does not separate are the same key, so the
    [std::map] is a map on the triples themselves. *)
Lemma Key_lt_equiv a b : Key_lt a b = false -> Key_lt b a = false -> a = b.
Proof.
  destruct a as [h1 f1 s1], b as [h2 f2 s2]. unfold Key_lt. cbn.
  destruct (String.eqb_spec h1 h2) as [->|Hh]; cbn.
  - rewrite String.eqb_refl. cbn.
    destruct (Z.eqb_spec f1 f2) as [->|Hf]; cbn.
    + rewrite Z.eqb_refl. cbn. intros H1 H2. f_equal. lia.
    + destruct (Z.eqb_spec f2 f1); [congruence|]. cbn. lia.
  - destruct (String.eqb_spec h2 h1); [congruence|]. cbn.
    unfold String.ltb. rewrite (String.compare_antisym h2 h1).
    destruct (String.compare h1 h2) eqn:E; cbn; try discriminate.
    apply String.compare_eq_iff in E. congruence.
Qed.

Lemma Key_lt_irrefl a : Key_lt a a = false.
Proof.
  unfold Key_lt. rewrite String.eqb_refl, Z.eqb_refl. cbn. apply Z.ltb_irrefl.
Qed.

Lemma new_events_emit d evs : new_events d (emit evs d) = evs.
Proof. unfold new_events, emit. cbn. apply drop_app_length. Qed.

Lemma is_on_emit evs d : is_on (emit evs d) = is_on d.
Proof. reflexivity. Qed.

Lemma add_miss key error_code sa m_values :
  m_values !! key = None ->
  add key error_code sa m_values = (<[key := MkValue sa error_code]> m_values, sa).
Proof. intros H. unfold add. now rewrite H. Qed.

Lemma returned_after_miss d key evs error_code sa_u :
  m_cache d !! key = None ->
  forallb (fun e => negb (is_cb e)) evs = true ->
  returned d key false
    (emit [cb sa_u error_code]
       (set_cache (<[key := MkValue sa_u error_code]> (m_cache d)) (emit evs d))).
Proof.
  intros Hmiss Hevs. split; [reflexivity|].
  exists evs, sa_u, error_code. cbn. rewrite <- app_assoc.
  split; [exact Hevs|]. split; [reflexivity|].
  split; [apply lookup_insert_eq|].
  intros k v Hk. rewrite lookup_insert_ne; [exact Hk|]. congruence.
Qed.

Lemma resolve_returned lk host family socktype d b d' :
  resolve lk host family socktype d = Ret b d' ->
  (is_on d = false /\ b = true /\ d' = d) \/
  (is_on d = true /\ returned d (MkKey host family socktype) b d').
Proof.
  unfold resolve. destruct (is_on d) eqn:Eon.
  2:{ intros H. injection H as <- <-. left. auto. }
  intros H. right. split; [reflexivity|].
  unfold retrieve in H.
  destruct (m_cache d !! MkKey host family socktype) as [[sa ec]|] eqn:Ehit.
  - injection H as <- <-. split; [reflexivity|].
    exists [], sa, ec. cbn. repeat split; auto.
  - destruct (m_custom_server d) as [srv|].
    + unfold resolve_host_custom in H.
      destruct (if (-1 <? res_nquery_ret lk) && (-1 <? ns_initparse_ret lk)
                then parse_answers (answers lk) None else inr None) as [e|sa_u];
        [discriminate|].
      rewrite (add_miss _ _ _ _ Ehit) in H. injection H as <- <-.
      now apply returned_after_miss.
    + unfold resolve_host_system in H.
      rewrite (add_miss _ _ _ _ Ehit) in H. injection H as <- <-.
      apply returned_after_miss; [exact Ehit|].
      destruct (is_current lk); reflexivity.
Qed.

(** C1: the value of [resolve] is [true] when the manager is off and
    skips the lookup, and [false] when it is on and has called back once,
    whereas the header documents [false] for "did not try to resolve":
    here one call with the manager on and one with the network off. *)
Theorem resolve_returns_skip :
  (exists d', resolve (Samples.found 7) "tracker.example" AF_INET 1 Samples.on_manager
              = Ret false d' /\
              new_events Samples.on_manager d'
              = [release_global_lock; getaddrinfo "tracker.example" AF_INET 1;
                 acquire_global_lock; cb (Some (MkSockaddr AF_INET 7)) 0]) /\
  documented_return Samples.on_manager = true /\
  resolve (Samples.found 7) "tracker.example" AF_INET 1 Samples.off_manager
  = Ret true Samples.off_manager /\
  documented_return Samples.off_manager = false /\
  (forall lk host family socktype d b d',
     resolve lk host family socktype d = Ret b d' ->
     b = negb (documented_return d) /\
     length (filter (fun e => is_cb e = true) (new_events d d'))
     = if is_on d then 1%nat else 0%nat).
Proof.
  split; [|split; [reflexivity|split; [reflexivity|split; [reflexivity|]]]].
  - eexists. split; [vm_compute; reflexivity|]. vm_compute. reflexivity.
  - intros lk host family socktype d b d' H.
    destruct (resolve_returned _ _ _ _ _ _ _ H)
      as [(Eon & -> & ->)|(Eon & -> & evs & sa & ec & Hevs & Hev & _)];
      unfold documented_return; rewrite Eon; split; try reflexivity.
    + unfold new_events. now rewrite drop_all.
    + unfold new_events. rewrite Hev, drop_app_length.
      rewrite filter_app. cbn.
      assert (filter (fun e => is_cb e = true) evs = []) as ->.
      { clear -Hevs. induction evs as [|e evs IH]; [reflexivity|].
        cbn in Hevs. apply andb_prop in Hevs as [He Hevs].
        rewrite filter_cons. destruct (decide (is_cb e = true)) as [E|_].
        - rewrite E in He. discriminate.
        - now apply IH. }
      reflexivity.
Qed.

(** An entry of the cache stays through every call but [cache_clear]. *)
Lemma run_call_keeps c d k v :
  is_cache_clear c = false ->
  m_cache d !! k = Some v -> m_cache (run_call c d) !! k = Some v.
Proof.
  destruct c as [lk host family socktype| |b]; cbn; intros Hc Hk;
    [|discriminate|exact Hk].
  destruct (resolve lk host family socktype d) as [r d'|e d'] eqn:E; cbn.
  - destruct (resolve_returned _ _ _ _ _ _ _ E)
      as [(_ & _ & ->)|(_ & _ & evs & sa & ec & _ & _ & _ & Hkeep)]; auto.
  - revert E. unfold resolve. destruct (is_on d); [|discriminate].
    destruct (retrieve _ _) as [[ec sa]|]; [discriminate|].
    destruct (m_custom_server d).
    + destruct (resolve_host_custom _ _ _ _) as [evs [e'|[ec sa]]].
      * intros E. injection E as _ <-. exact Hk.
      * destruct (add _ _ _ _). discriminate.
    + destruct (resolve_host_system _ _ _ _) as [evs [ec sa]].
      destruct (add _ _ _ _). discriminate.
Qed.

Lemma run_calls_keep cs : forall d k v,
  forallb (fun c => negb (is_cache_clear c)) cs = true ->
  m_cache d !! k = Some v -> m_cache (run_calls cs d) !! k = Some v.
Proof.
  induction cs as [|c cs IH]; intros d k v Hcs Hk; [exact Hk|].
  cbn in Hcs. apply andb_prop in Hcs as [Hc Hcs]. apply negb_true_iff in Hc.
  cbn. apply IH; [exact Hcs|]. now apply run_call_keeps.
Qed.

(** C8: when a call of [resolve] on a switched-on manager has returned, its
    callback got an error code and an address that are now in the cache
    under the triple of the call; after any calls other than [cache_clear],
    a call for the same triple on the switched-on manager hands the same
    error code and address to its callback, asks no resolver, and leaves
    the cache as it is. *)
Theorem resolve_twice_same_outcome lk1 lk2 host family socktype d b1 d1 cs :
  is_on d = true ->
  resolve lk1 host family socktype d = Ret b1 d1 ->
  forallb (fun c => negb (is_cache_clear c)) cs = true ->
  is_on (run_calls cs d1) = true ->
  exists sa error_code,
    last (events d1) = Some (cb sa error_code) /\
    m_cache d1 !! MkKey host family socktype = Some (MkValue sa error_code) /\
    resolve lk2 host family socktype (run_calls cs d1)
    = Ret b1 (emit [cb sa error_code] (run_calls cs d1)) /\
    new_events (run_calls cs d1) (emit [cb sa error_code] (run_calls cs d1))
    = [cb sa error_code] /\
    forallb (fun e => negb (is_query e))
      (new_events (run_calls cs d1) (emit [cb sa error_code] (run_calls cs d1))) = true.
Proof.
  intros Hon H1 Hcs Hon2.
  destruct (resolve_returned _ _ _ _ _ _ _ H1)
    as [(Eoff & _)|(_ & -> & evs & sa & ec & _ & Hev & Hc & _)]; [congruence|].
  exists sa, ec. split; [|split; [exact Hc|split; [|split]]].
  - rewrite Hev, app_assoc. apply last_snoc.
  - pose proof (run_calls_keep cs d1 _ _ Hcs Hc) as Hc2.
    unfold resolve. rewrite Hon2. unfold retrieve. now rewrite Hc2.
  - apply new_events_emit.
  - now rewrite new_events_emit.
Qed.

Lemma resolve_twice_same_outcome_witness :
  exists sa error_code,
    last (events (state_of (resolve (Samples.not_found (-2)) "gone.example" AF_INET 1
                              Samples.on_manager)))
    = Some (cb sa error_code) /\
    error_code = -2 /\ sa = None /\
    resolve (Samples.found 9) "gone.example" AF_INET 1
      (run_calls [call_resolve (Samples.found 7) "tracker.example" AF_INET 1]
         (state_of (resolve (Samples.not_found (-2)) "gone.example" AF_INET 1
                      Samples.on_manager)))
    = Ret false
        (emit [cb sa error_code]
           (run_calls [call_resolve (Samples.found 7) "tracker.example" AF_INET 1]
              (state_of (resolve (Samples.not_found (-2)) "gone.example" AF_INET 1
                           Samples.on_manager)))).
Proof.
  destruct (resolve_twice_same_outcome (Samples.not_found (-2)) (Samples.found 9)
              "gone.example" AF_INET 1 Samples.on_manager false
              (state_of (resolve (Samples.not_found (-2)) "gone.example" AF_INET 1
                           Samples.on_manager))
              [call_resolve (Samples.found 7) "tracker.example" AF_INET 1])
    as (sa & ec & Hlast & _ & Hres & _).
  - reflexivity.
  - vm_compute. reflexivity.
  - reflexivity.
  - reflexivity.
  - exists sa, ec. split; [exact Hlast|].
    assert (Some (cb sa ec) = Some (cb None (-2))) as E.
    { rewrite <- Hlast. vm_compute. reflexivity. }
    injection E as -> ->. split; [reflexivity|]. split; [reflexivity|]. exact Hres.
Defined.

End Dns_facts.

(** ** Searching a vector *)

Section Find_if.

Import Algo.
Local Open Scope nat_scope.
Context {A : Type} (p : A -> bool).

Lemma find_if_le (l : list A) : find_if p l <= length l.
Proof. induction l as [|x l IH]; cbn; [lia|]. destruct (p x); cbn; lia. Qed.

Lemma find_if_found (l : list A) :
  find_if p l < length l -> exists x, l !! find_if p l = Some x /\ p x = true.
Proof.
  induction l as [|x l IH]; cbn; [lia|]. destruct (p x) eqn:E; cbn.
  - intros _. exists x. auto.
  - intros H. apply IH. lia.
Qed.

Lemma find_if_before (l : list A) i x :
  i < find_if p l -> l !! i = Some x -> p x = false.
Proof.
  revert i. induction l as [|y l IH]; intros i; cbn; [lia|].
  destruct (p y) eqn:E; [lia|]. destruct i as [|i]; cbn.
  - intros _ H. now injection H as <-.
  - intros H. apply IH. lia.
Qed.

Lemma find_if_first (l : list A) n x :
  l !! n = Some x -> p x = true ->
  (forall i y, i < n -> l !! i = Some y -> p y = false) ->
  find_if p l = n.
Proof.
  revert n. induction l as [|y l IH]; intros n Hn Hx Hbefore; [discriminate|].
  cbn. destruct n as [|n]; cbn in Hn.
  - injection Hn as ->. now rewrite Hx.
  - rewrite (Hbefore 0 y) by (cbn; auto; lia). f_equal.
    apply IH; auto. intros i z Hi Hz. apply (Hbefore (S i) z); [lia|exact Hz].
Qed.

Lemma find_if_lookup (l : list A) x :
  l !! find_if p l = Some x -> p x = true.
Proof.
  intros H. destruct (find_if_found l) as (y & Hy & Hp).
  - now apply lookup_lt_Some in H.
  - congruence.
Qed.

End Find_if.

(** ** Selection of the next tracker to request *)

Section Find_next.

Import Algo TrackerOps.
Local Open Scope nat_scope.

Variable env : Env.

Lemma find_if_cons_true {A} (p : A -> bool) x l : p x = true -> find_if p (x :: l) = 0.
Proof. intros H. cbn. now rewrite H. Qed.

Lemma find_if_cons_false {A} (p : A -> bool) x l :
  p x = false -> find_if p (x :: l) = S (find_if p l).
Proof. intros H. cbn. now rewrite H. Qed.

(** The result for the tail, read at the positions of the whole rest. *)
Local Ltac past_head Hres :=
  match goal with
  | |- context [(?b :: ?rest) !! S ?n] => change ((b :: rest) !! S n) with (rest !! n)
  end;
  rewrite Hres, Nat.add_succ_r; reflexivity.

(** The scan over [rest], whose head is at position [bc], with candidate
    [itr] pointing to [cur]: up to the first eligible tracker without
    failures the scan keeps the leftmost tracker with the least
    [failed_time_next]; that first tracker without failures decides the
    result. *)
Lemma better_scan_selects (rest : list Tracker) : forall itr cur bc,
  itr < bc ->
  exists m tm,
    ((m = itr /\ tm = cur) \/
     (bc <= m < bc + find_if (Props.healthy_eligible env) rest /\
      rest !! (m - bc) = Some tm /\
      Props.eligible env tm = true /\ m_failed_counter tm <> 0%Z)) /\
    (failed_time_next tm <= failed_time_next cur)%Z /\
    (m <> itr -> (failed_time_next tm < failed_time_next cur)%Z) /\
    (forall j tj, j < find_if (Props.healthy_eligible env) rest -> rest !! j = Some tj ->
       Props.eligible env tj = true ->
       (failed_time_next tm <= failed_time_next tj)%Z /\
       (bc + j < m -> (failed_time_next tm < failed_time_next tj)%Z)) /\
    TrackerList.better_scan env itr cur bc rest
    = match rest !! find_if (Props.healthy_eligible env) rest with
      | Some th =>
          if (success_time_next th <? failed_time_next tm)%Z
          then bc + find_if (Props.healthy_eligible env) rest else m
      | None => m
      end.
Proof.
  induction rest as [|b rest IH]; intros itr cur bc Hlt.
  - exists itr, cur. cbn. split; [now left|]. split; [lia|]. split; [congruence|].
    split; [intros; lia|reflexivity].
  - cbn [TrackerList.better_scan].
    change (TrackerList.is_usable env b && can_request_state b)
      with (Props.eligible env b).
    destruct (Props.eligible env b) eqn:Eel; cbn [negb].
    2:{ (* not eligible: passed over *)
        rewrite find_if_cons_false by (unfold Props.healthy_eligible; now rewrite Eel).
        destruct (IH itr cur (S bc)) as (m & tm & Hm & Hle & Hne & Hmin & Hres); [lia|].
        exists m, tm. split; [|split; [exact Hle|split; [exact Hne|split]]].
        - destruct Hm as [Hm|(Hr & Hl & Hrest)]; [now left|right].
          split; [lia|]. split; [|exact Hrest].
          replace (m - bc) with (S (m - S bc)) by lia. exact Hl.
        - intros [|j] tj Hj Hl Helig.
          + cbn in Hl. injection Hl as <-. congruence.
          + cbn in Hl. destruct (Hmin j tj) as [H1 H2]; [lia|exact Hl|exact Helig|].
            split; [exact H1|]. intros ?. apply H2. lia.
        - past_head Hres. }
    destruct (Z.eqb_spec (m_failed_counter b) 0) as [E0|E0]; cbn [negb].
    + (* the first eligible tracker without failures ends the scan *)
      rewrite find_if_cons_true
        by (unfold Props.healthy_eligible; rewrite Eel, E0; reflexivity).
      exists itr, cur. split; [now left|]. split; [lia|]. split; [congruence|].
      split; [intros; lia|]. cbn. rewrite Nat.add_0_r. reflexivity.
    + rewrite find_if_cons_false
        by (unfold Props.healthy_eligible; rewrite Eel; cbn;
            now apply Z.eqb_neq).
      destruct (Z.ltb_spec (failed_time_next b) (failed_time_next cur)) as [Hb|Hb].
      * (* a failed tracker with an earlier retry takes over *)
        destruct (IH bc b (S bc)) as (m & tm & Hm & Hle & Hne & Hmin & Hres); [lia|].
        exists m, tm. split; [right|split; [lia|split; [intros; lia|split]]].
        -- destruct Hm as [[-> ->]|(Hr & Hl & Hrest)].
           ++ split; [lia|]. rewrite Nat.sub_diag. cbn. split; [reflexivity|].
              split; [exact Eel|exact E0].
           ++ split; [lia|]. split; [|exact Hrest].
              replace (m - bc) with (S (m - S bc)) by lia. exact Hl.
        -- intros [|j] tj Hj Hl Helig.
           ++ cbn in Hl. injection Hl as <-. split; [exact Hle|].
              intros ?. apply Hne. lia.
           ++ cbn in Hl. destruct (Hmin j tj) as [H1 H2]; [lia|exact Hl|exact Helig|].
              split; [exact H1|]. intros ?. apply H2. lia.
        -- past_head Hres.
      * (* a failed tracker that is not earlier is passed over *)
        destruct (IH itr cur (S bc)) as (m & tm & Hm & Hle & Hne & Hmin & Hres); [lia|].
        exists m, tm. split; [|split; [exact Hle|split; [exact Hne|split]]].
        -- destruct Hm as [Hm|(Hr & Hl & Hrest)]; [now left|right].
           split; [lia|]. split; [|exact Hrest].
           replace (m - bc) with (S (m - S bc)) by lia. exact Hl.
        -- intros [|j] tj Hj Hl Helig.
           ++ cbn in Hl. injection Hl as <-. split; [lia|].
              intros ?. assert (m <> itr) as Hmi by lia. specialize (Hne Hmi). lia.
           ++ cbn in Hl. destruct (Hmin j tj) as [H1 H2]; [lia|exact Hl|exact Helig|].
              split; [exact H1|]. intros ?. apply H2. lia.
        -- past_head Hres.
Qed.

(** C3, as amended: from the start position the search goes to the first
    eligible tracker, the initial candidate ([end()] if there is none), and
    returns it when it has no failures.  Otherwise the scan runs up to the
    first later eligible tracker without failures, which ends it whether
    or not it is selected: among the eligible trackers from the candidate
    up to there, the leftmost one with the least [failed_time_next] is
    kept, and the tracker without failures replaces it exactly when its
    [success_time_next] is strictly smaller than that. *)
Theorem find_next_to_request_selects (ts : list Tracker) (start : nat) :
  start <= length ts ->
  let r := TrackerList.find_next_in env ts start in
  let c0 := start + find_if (Props.eligible env) (drop start ts) in
  (forall i t, start <= i < c0 -> ts !! i = Some t -> Props.eligible env t = false) /\
  (c0 = length ts -> r = length ts) /\
  (forall cur, ts !! c0 = Some cur ->
     Props.eligible env cur = true /\
     (m_failed_counter cur = 0%Z -> r = c0) /\
     (m_failed_counter cur <> 0%Z ->
        let h := S c0 + find_if (Props.healthy_eligible env) (drop (S c0) ts) in
        exists m tm,
          c0 <= m < h /\ ts !! m = Some tm /\
          Props.eligible env tm = true /\ m_failed_counter tm <> 0%Z /\
          (forall j tj, c0 <= j < h -> ts !! j = Some tj -> Props.eligible env tj = true ->
             (failed_time_next tm <= failed_time_next tj)%Z /\
             (j < m -> (failed_time_next tm < failed_time_next tj)%Z)) /\
          r = match ts !! h with
              | Some th => if (success_time_next th <? failed_time_next tm)%Z then h else m
              | None => m
              end)).
Proof.
  intros Hstart r c0.
  assert (Hr : r = match ts !! c0 with
                   | Some cur =>
                       if negb (m_failed_counter cur =? 0)%Z
                       then TrackerList.better_scan env c0 cur (S c0) (drop (S c0) ts)
                       else c0
                   | None => c0
                   end) by reflexivity.
  split; [|split].
  - intros i t [Hi1 Hi2] Hl.
    apply (find_if_before (Props.eligible env) (drop start ts) (i - start)); [lia|].
    rewrite lookup_drop. now replace (start + (i - start)) with i by lia.
  - intros Hend. rewrite Hr. rewrite lookup_ge_None_2 by lia. exact Hend.
  - intros cur Hcur.
    assert (Hel : Props.eligible env cur = true).
    { apply (find_if_lookup (Props.eligible env) (drop start ts)).
      now rewrite lookup_drop. }
    split; [exact Hel|]. rewrite Hcur in Hr. split.
    + intros E0. rewrite Hr, E0. reflexivity.
    + intros E0 h.
      destruct (Z.eqb_spec (m_failed_counter cur) 0) as [|_]; [contradiction|].
      cbn [negb] in Hr.
      destruct (better_scan_selects (drop (S c0) ts) c0 cur (S c0))
        as (m & tm & Hm & Hle & Hne & Hmin & Hres); [lia|].
      fold h in Hm. exists m, tm.
      assert (Hm' : c0 <= m < h /\ ts !! m = Some tm /\
                    Props.eligible env tm = true /\ m_failed_counter tm <> 0%Z).
      { destruct Hm as [[-> ->]|(Hrange & Hl & Helig & Hfc)].
        - split; [unfold h; lia|]. auto.
        - split; [lia|]. split; [|auto].
          rewrite lookup_drop in Hl.
          now replace (S c0 + (m - S c0)) with m in Hl by lia. }
      destruct Hm' as (Hrange & Hl & Helig & Hfc).
      split; [exact Hrange|]. split; [exact Hl|]. split; [exact Helig|].
      split; [exact Hfc|]. split.
      * intros j tj [Hj1 Hj2] Hlj Hej.
        destruct (decide (j = c0)) as [->|Hjc].
        -- assert (tj = cur) as -> by congruence. split; [exact Hle|].
           intros ?. apply Hne. lia.
        -- destruct (Hmin (j - S c0) tj) as [H1 H2]; [unfold h in Hj2; lia| |exact Hej|].
           { rewrite lookup_drop. now replace (S c0 + (j - S c0)) with j by lia. }
           split; [exact H1|]. intros ?. apply H2. lia.
      * rewrite Hr, Hres. rewrite lookup_drop. reflexivity.
Qed.

End Find_next.

Section Find_next_samples.

Import Algo TrackerOps Samples.
Local Open Scope nat_scope.

Lemma find_next_to_request_selects_witness :
  TrackerList.find_next_in env0 failed_failed_healthy 0 = 1 /\
  TrackerList.find_next_in env0 failed_then_healthy 0 = 1.
Proof.
  split.
  - destruct (find_next_to_request_selects env0 failed_failed_healthy 0) as (_ & _ & H);
      [cbn; lia|].
    destruct (H (failed 3 100) eq_refl) as (_ & _ & Hscan).
    destruct Hscan as (m & tm & Hrange & Hl & _ & _ & Hmin & Hres); [discriminate|].
    rewrite Hres. clear Hres.
    change (failed_failed_healthy !! _) with (Some (healthy 1000)).
    cbv zeta beta in Hrange.
    change (S (0 + find_if (Props.eligible env0) (drop 0 failed_failed_healthy))
            + find_if (Props.healthy_eligible env0)
                (drop (S (0 + find_if (Props.eligible env0)
                                (drop 0 failed_failed_healthy)))
                   failed_failed_healthy)) with 2 in *.
    change (0 + find_if (Props.eligible env0) (drop 0 failed_failed_healthy)) with 0 in *.
    destruct (Hmin 1 (failed 1 75)) as [Hle Hlt]; [lia|reflexivity|reflexivity|].
    assert (m = 1) as ->.
    { destruct m as [|[|m]]; [|reflexivity|lia].
      cbn in Hl. injection Hl as <-. vm_compute in Hle. now contradiction Hle. }
    cbn in Hl. injection Hl as <-. reflexivity.
  - reflexivity.
Defined.

(** C3, as stated, fails: in [A: failed, next 120], [C: no failures, next
    2800], [B: failed, next 80] the tracker [C] does not replace [A], and
    [B], a later eligible tracker with failures whose [failed_time_next]
    is strictly smaller than that of [A], would replace it if the scan
    went on; the function returns [A], since [C] has ended the scan. *)
Lemma find_next_stops_at_first_healthy :
  Forall (fun t => Props.eligible env0 t = true) failed_healthy_failed /\
  (m_failed_counter <$> failed_healthy_failed) = [3; 0; 1]%Z /\
  (failed_time_next <$> failed_healthy_failed) = [120; 0; 80]%Z /\
  (success_time_next <$> failed_healthy_failed) = [0; 2800; 0]%Z /\
  Props.whole_rest_find_next env0 failed_healthy_failed 0 = 2 /\
  TrackerList.find_next_in env0 failed_healthy_failed 0 = 0.
Proof. repeat split; repeat constructor. Qed.

End Find_next_samples.

(** ** Swaps and searches in the vector *)

Section Vector_facts.

Import Algo.
Local Open Scope nat_scope.
Context {A : Type} `{Inhabited A}.

Lemma iter_swap_length i j (l : list A) : length (iter_swap i j l) = length l.
Proof. unfold iter_swap. now rewrite !length_insert. Qed.

Lemma iter_swap_lookup_l i j (l : list A) :
  i < length l -> iter_swap i j l !! i = Some (l !!! j).
Proof.
  intros Hi. unfold iter_swap. apply list_lookup_insert_eq. now rewrite length_insert.
Qed.

Lemma iter_swap_lookup_r i j (l : list A) :
  i < length l -> j < length l -> iter_swap i j l !! j = Some (l !!! i).
Proof.
  intros Hi Hj. destruct (decide (i = j)) as [->|Hne].
  - now apply iter_swap_lookup_l.
  - unfold iter_swap. rewrite list_lookup_insert_ne by exact Hne.
    now apply list_lookup_insert_eq.
Qed.

Lemma iter_swap_lookup_ne i j k (l : list A) :
  k <> i -> k <> j -> iter_swap i j l !! k = l !! k.
Proof.
  intros Hi Hj. unfold iter_swap.
  rewrite list_lookup_insert_ne by congruence.
  now rewrite list_lookup_insert_ne by congruence.
Qed.

Lemma iter_swap_perm i j (l : list A) :
  i < length l -> j < length l -> iter_swap i j l ≡ₚ l.
Proof.
  intros Hi Hj. unfold iter_swap.
  apply Permutation_insert_swap; now apply list_lookup_lookup_total_lt.
Qed.

(** A swap of two entries that [f] does not tell apart is invisible
    through [f]. *)
Lemma iter_swap_fmap {B} (f : A -> B) i j (l : list A) :
  i < length l -> j < length l -> f (l !!! i) = f (l !!! j) ->
  f <$> iter_swap i j l = f <$> l.
Proof.
  intros Hi Hj Hf. apply list_eq. intros k. rewrite !list_lookup_fmap.
  destruct (decide (k = i)) as [->|Hki].
  - rewrite iter_swap_lookup_l by exact Hi.
    rewrite (list_lookup_lookup_total_lt l i Hi). cbn. now rewrite Hf.
  - destruct (decide (k = j)) as [->|Hkj].
    + rewrite iter_swap_lookup_r by assumption.
      rewrite (list_lookup_lookup_total_lt l j Hj). cbn. now rewrite Hf.
    + now rewrite iter_swap_lookup_ne.
Qed.

Lemma find_if_at_most (p : A -> bool) (l : list A) i x :
  l !! i = Some x -> p x = true -> find_if p l <= i.
Proof.
  intros Hl Hp. destruct (le_lt_dec (find_if p l) i) as [|Hlt]; [assumption|].
  pose proof (find_if_before p l i x Hlt Hl). congruence.
Qed.

Lemma find_if_none (p : A -> bool) (l : list A) :
  (forall x, x ∈ l -> p x = false) -> find_if p l = length l.
Proof.
  intros Hall. pose proof (find_if_le p l) as Hle.
  destruct (decide (find_if p l = length l)) as [|Hne]; [assumption|].
  destruct (find_if_found p l) as (x & Hx & Hp); [lia|].
  rewrite Hall in Hp; [discriminate|]. apply list_elem_of_lookup. eauto.
Qed.

End Vector_facts.

(** ** Results of an announce *)

Section Receive.

Import Algo TrackerList.
Local Open Scope nat_scope.

Lemma find_elem tb w :
  tb ∈ tlist w ->
  find tb w < length (tlist w) /\ tlist w !! find tb w = Some tb /\
  forall i p, i < find tb w -> tlist w !! i = Some p -> p <> tb.
Proof.
  intros Hin. apply list_elem_of_lookup in Hin as (i & Hi).
  assert (Hle : find tb w <= i).
  { apply (find_if_at_most _ _ i tb Hi). now apply bool_decide_eq_true. }
  assert (Hlt : find tb w < length (tlist w)).
  { apply lookup_lt_Some in Hi. lia. }
  split; [exact Hlt|]. split.
  - destruct (find_if_found _ _ Hlt) as (x & Hx & Hp).
    apply bool_decide_eq_true in Hp as ->. exact Hx.
  - intros j p Hj Hp. pose proof (find_if_before _ _ _ _ Hj Hp) as Hb.
    now apply bool_decide_eq_false in Hb.
Qed.

Lemma find_not_elem tb w : tb ∉ tlist w -> find tb w = length (tlist w).
Proof.
  intros Hout. apply find_if_none. intros x Hx.
  apply bool_decide_eq_false. congruence.
Qed.

Lemma deref_Some w p t : heap w !! p = Some t -> deref w p = t.
Proof. intros Hp. unfold deref. now apply lookup_total_correct. Qed.

Lemma trackers_lookup w i p :
  tlist w !! i = Some p -> trackers w !! i = Some (deref w p).
Proof. intros Hp. unfold trackers. now rewrite list_lookup_fmap, Hp. Qed.

Lemma begin_group_at_most w i p :
  tlist w !! i = Some p -> begin_group (m_group (deref w p)) w <= i.
Proof.
  intros Hp. unfold begin_group.
  apply (find_if_at_most _ _ i (deref w p)); [now apply trackers_lookup|].
  apply Z.leb_refl.
Qed.

Lemma begin_group_before w g i p :
  i < begin_group g w -> tlist w !! i = Some p -> (m_group (deref w p) < g)%Z.
Proof.
  intros Hi Hp. unfold begin_group in Hi.
  pose proof (find_if_before _ _ _ _ Hi (trackers_lookup _ _ _ Hp)) as Hb.
  cbn in Hb. lia.
Qed.

(** [promote] puts the tracker where its group begins. *)
Lemma promote_done w itr p :
  tlist w !! itr = Some p ->
  promote itr w
  = Done (begin_group (m_group (deref w p)) w)
      {| heap := heap w;
         tlist := iter_swap (begin_group (m_group (deref w p)) w) itr (tlist w);
         calls := calls w |}.
Proof.
  intros Hp. unfold promote. rewrite Hp.
  pose proof (begin_group_at_most w itr p Hp) as Hle.
  apply lookup_lt_Some in Hp.
  rewrite decide_False by lia. reflexivity.
Qed.

(** After the swap of [promote] and an assignment to members of [tb] other
    than its group, [tb] is the first entry of its group. *)
Lemma promoted_is_first w tb t t' cs :
  heap w !! tb = Some t -> tb ∈ tlist w -> m_group t' = m_group t ->
  Props.first_in_group
    {| heap := <[tb := t']> (heap w);
       tlist := iter_swap (begin_group (m_group t) w) (find tb w) (tlist w);
       calls := cs |} tb.
Proof.
  intros Ht Hin Hg.
  destruct (find_elem tb w Hin) as (Hlt & Hfind & Hbefore).
  pose proof (begin_group_at_most w _ tb Hfind) as Hle.
  rewrite (deref_Some _ _ _ Ht) in Hle.
  set (first := begin_group (m_group t) w) in *.
  set (w' := {| heap := <[tb := t']> (heap w);
                tlist := iter_swap first (find tb w) (tlist w); calls := cs |}).
  assert (Hd : deref w' tb = t').
  { unfold deref, w'. cbn. apply lookup_total_insert_eq. }
  assert (Hother : forall p, p <> tb -> deref w' p = deref w p).
  { intros p Hp. unfold deref, w'. cbn. now apply lookup_total_insert_ne. }
  assert (Hat : tlist w' !! first = Some tb).
  { unfold w'. cbn. rewrite iter_swap_lookup_l by lia.
    f_equal. now apply list_lookup_total_correct. }
  assert (Hlow : forall j p, j < first -> tlist w' !! j = Some p ->
                   p <> tb /\ (m_group (deref w p) < m_group t)%Z).
  { intros j p Hj Hp. unfold w' in Hp. cbn in Hp.
    rewrite iter_swap_lookup_ne in Hp by lia.
    split; [apply (Hbefore j); [lia|exact Hp]|].
    now apply (begin_group_before w _ j). }
  assert (Hbegin : begin_group (m_group (deref w' tb)) w' = first).
  { rewrite Hd, Hg. unfold begin_group.
    apply (find_if_first _ _ first (deref w' tb)).
    - now apply trackers_lookup.
    - rewrite Hd, Hg. apply Z.leb_refl.
    - intros j y Hj Hy. unfold trackers in Hy. rewrite list_lookup_fmap in Hy.
      destruct (tlist w' !! j) as [p|] eqn:Hp; [|discriminate].
      cbn in Hy. injection Hy as <-.
      destruct (Hlow j p Hj Hp) as [Hne Hgr]. rewrite (Hother p Hne). lia. }
  unfold Props.first_in_group. rewrite Hbegin. split; [exact Hat|].
  intros j p Hj Hp. destruct (Hlow j p Hj Hp) as [Hne Hgr].
  rewrite (Hother p Hne), Hd, Hg. lia.
Qed.

Lemma unique_after_elem l : forall prev x, x ∈ unique_after prev l -> x ∈ l.
Proof.
  induction l as [|y l IH]; intros prev x; cbn; [auto|].
  destruct (Z.eqb_spec y prev) as [->|Hne].
  - intros Hx. right. now apply (IH prev).
  - intros Hx. apply elem_of_cons in Hx as [->|Hx]; [left|right; now apply (IH y)].
Qed.

Lemma unique_after_keeps l : forall prev x,
  x ∈ l -> x = prev \/ x ∈ unique_after prev l.
Proof.
  induction l as [|y l IH]; intros prev x Hx; [now apply elem_of_nil in Hx|].
  cbn. apply elem_of_cons in Hx as [->|Hx].
  - destruct (Z.eqb_spec y prev) as [->|Hne]; [now left|right; left].
  - destruct (Z.eqb_spec y prev) as [->|Hne]; [now apply IH|].
    right. destruct (IH y x Hx) as [->|Hin]; [left|now right].
Qed.

Lemma unique_after_sorted l : forall prev,
  StronglySorted Z.le l -> Forall (Z.le prev) l ->
  StronglySorted Z.lt (unique_after prev l) /\ Forall (Z.lt prev) (unique_after prev l).
Proof.
  induction l as [|y l IH]; intros prev Hs Hall; cbn; [split; constructor|].
  apply StronglySorted_inv in Hs as [Hs Hy]. apply Forall_cons in Hall as [Hpy Hall].
  destruct (Z.eqb_spec y prev) as [->|Hne]; [now apply IH|].
  destruct (IH y Hs Hy) as [Hs' Hall']. split.
  - now constructor.
  - constructor; [lia|]. eapply Forall_impl; [exact Hall'|]. cbn. intros; lia.
Qed.

(** The address list as [receive_success] leaves it: ascending without
    repetition, with the addresses it got. *)
Lemma sort_unique_spec l :
  StronglySorted Z.lt (sort_unique l) /\ forall x, x ∈ sort_unique l <-> x ∈ l.
Proof.
  unfold sort_unique.
  assert (Hs : StronglySorted Z.le (merge_sort Z.le l))
    by (apply StronglySorted_merge_sort; apply _).
  assert (Hp : forall x, x ∈ merge_sort Z.le l <-> x ∈ l)
    by (intros x; now rewrite merge_sort_Permutation).
  destruct (merge_sort Z.le l) as [|y m]; [split; [constructor|exact Hp]|].
  cbn. apply StronglySorted_inv in Hs as [Hs Hy].
  destruct (unique_after_sorted m y Hs Hy) as [Hs' Hall']. split.
  - now constructor.
  - intros x. rewrite <- Hp. rewrite !elem_of_cons. split.
    + intros [->|Hx]; [now left|right; now apply (unique_after_elem m y)].
    + intros [->|Hx]; [now left|]. destruct (unique_after_keeps m y x Hx); auto.
Qed.

(** C7: for a tracker of the list that is not busy, [receive_success] makes
    it the first entry of its group, sets [failed_counter] to 0, adds one
    to [success_counter], stores the current time in [success_time_last],
    the size of the sorted address list without repetitions in
    [latest_sum_peers] and the value of the success slot in
    [latest_new_peers]; for a tracker that is not in the list or that is
    busy it raises an internal error and changes nothing. *)
Theorem receive_success_effect (env : Env) (tb : ptr) (l : list socket_address) (w : World) :
  (forall t, heap w !! tb = Some t -> tb ∈ tlist w -> is_busy t = false ->
     exists w' t',
       receive_success env tb l w = Done (sort_unique l) w' /\
       heap w' !! tb = Some t' /\
       Props.first_in_group w' tb /\
       m_group t' = m_group t /\
       m_failed_counter t' = 0%Z /\
       m_success_counter t' = U32.incr (m_success_counter t) /\
       m_success_time_last t' = wrap32 (cachedTime env) /\
       m_latest_sum_peers t' = wrap32 (Z.of_nat (length (sort_unique l))) /\
       m_latest_new_peers t' = wrap32 (m_slot_success env tb (sort_unique l)) /\
       calls w' = calls w ++ [SlotSuccess tb (sort_unique l)] /\
       tlist w' ≡ₚ tlist w) /\
  (StronglySorted Z.lt (sort_unique l) /\ forall x, x ∈ sort_unique l <-> x ∈ l) /\
  (tb ∉ tlist w ->
     exists msg, receive_success env tb l w = Raised (internal_error msg) w) /\
  (forall t, heap w !! tb = Some t -> is_busy t = true ->
     exists msg, receive_success env tb l w = Raised (internal_error msg) w).
Proof.
  split; [|split; [apply sort_unique_spec|split]].
  - intros t Ht Hin Hbusy.
    destruct (find_elem tb w Hin) as (Hlt & Hfind & _).
    unfold receive_success.
    rewrite decide_False by lia.
    rewrite (deref_Some _ _ _ Ht), Hbusy.
    rewrite (promote_done w _ tb Hfind).
    rewrite (deref_Some _ _ _ Ht).
    cbv zeta.
    assert (Hd1 : forall cs l', deref {| heap := heap w; tlist := l'; calls := cs |} tb = t).
    { intros. now apply deref_Some. }
    rewrite Hd1.
    eexists _, _. split; [reflexivity|]. cbn [heap tlist calls].
    split; [apply lookup_insert_eq|].
    split; [apply (promoted_is_first w tb t); auto|].
    repeat (split; [reflexivity|]).
    apply iter_swap_perm; [|exact Hlt].
    pose proof (begin_group_at_most w _ tb Hfind) as Hle.
    rewrite (deref_Some _ _ _ Ht) in Hle. lia.
  - intros Hout. unfold receive_success.
    rewrite decide_True by now apply find_not_elem. eauto.
  - intros t Ht Hbusy. unfold receive_success.
    destruct (decide _); [eauto|].
    rewrite (deref_Some _ _ _ Ht), Hbusy. eauto.
Qed.

Lemma receive_success_effect_witness :
  exists w' t',
    receive_success Samples.env0 3 [5; 3; 5]%Z Samples.world3 = Done [3; 5]%Z w' /\
    heap w' !! 3 = Some t' /\
    Props.first_in_group w' 3 /\
    m_failed_counter t' = 0%Z /\ m_success_counter t' = 1%Z /\
    m_latest_sum_peers t' = 2%Z.
Proof.
  destruct (proj1 (receive_success_effect Samples.env0 3 [5; 3; 5]%Z Samples.world3)
              Samples.idle)
    as (w' & t' & Hrun & Ht' & Hfirst & _ & Hfc & Hsc & _ & Hsum & _).
  - reflexivity.
  - apply list_elem_of_lookup. exists 2. reflexivity.
  - reflexivity.
  - exists w', t'. split; [exact Hrun|]. split; [exact Ht'|]. split; [exact Hfirst|].
    split; [exact Hfc|]. split; [exact Hsc|]. exact Hsum.
Defined.

End Receive.

Section Receive_failed.

Local Open Scope nat_scope.

(** C9, as amended: for a tracker of the list that is not busy,
    [receive_failed] adds one to [failed_counter] in 32-bit arithmetic, so
    that it is positive afterwards unless it held the largest value of its
    type, stores the current time in [failed_time_last], calls the failed
    slot, and leaves every other member of the tracker, the order of the
    list and all other trackers as they were; for a tracker that is not in
    the list or that is busy it raises an internal error and changes
    nothing. *)
Theorem receive_failed_effect (env : Env) (tb : ptr) (msg : string) (w : World) :
  (forall t, heap w !! tb = Some t -> tb ∈ tlist w -> is_busy t = false ->
     exists w' t',
       TrackerList.receive_failed env tb msg w = Done tt w' /\
       heap w' !! tb = Some t' /\
       m_failed_counter t' = U32.incr (m_failed_counter t) /\
       (in_range (m_failed_counter t) -> m_failed_counter t <> (modulus - 1)%Z ->
        (0 < m_failed_counter t')%Z) /\
       m_failed_time_last t' = wrap32 (cachedTime env) /\
       calls w' = calls w ++ [SlotFailed tb msg] /\
       tlist w' = tlist w /\
       (forall p, p <> tb -> heap w' !! p = heap w !! p) /\
       (m_success_counter t' = m_success_counter t /\
        m_scrape_counter t' = m_scrape_counter t /\
        m_request_counter t' = m_request_counter t /\
        m_latest_new_peers t' = m_latest_new_peers t /\
        m_latest_sum_peers t' = m_latest_sum_peers t /\
        m_scrape_complete t' = m_scrape_complete t /\
        m_scrape_incomplete t' = m_scrape_incomplete t /\
        m_scrape_downloaded t' = m_scrape_downloaded t) /\
       (m_success_time_last t' = m_success_time_last t /\
        m_scrape_time_last t' = m_scrape_time_last t /\
        m_request_time_last t' = m_request_time_last t) /\
       (m_group t' = m_group t /\ m_url t' = m_url t /\ m_flags t' = m_flags t /\
        m_normal_interval t' = m_normal_interval t /\
        m_min_interval t' = m_min_interval t /\
        m_latest_event t' = m_latest_event t /\
        m_enabled_status t' = m_enabled_status t /\ m_type t' = m_type t /\
        is_busy t' = is_busy t /\ is_usable t' = is_usable t /\
        can_request_state t' = can_request_state t)) /\
  (tb ∉ tlist w ->
     exists m, TrackerList.receive_failed env tb msg w = Raised (internal_error m) w) /\
  (forall t, heap w !! tb = Some t -> is_busy t = true ->
     exists m, TrackerList.receive_failed env tb msg w = Raised (internal_error m) w).
Proof.
  split; [|split].
  - intros t Ht Hin Hbusy.
    destruct (find_elem tb w Hin) as (Hlt & _ & _).
    unfold TrackerList.receive_failed.
    rewrite decide_False by lia.
    rewrite (deref_Some _ _ _ Ht), Hbusy. cbv zeta.
    eexists _, _. split; [reflexivity|]. cbn [heap tlist calls].
    split; [apply lookup_insert_eq|]. split; [reflexivity|]. split.
    { cbn -[U32.incr]. intros Hr Hmax. rewrite incr_small; unfold in_range in Hr; lia. }
    split; [reflexivity|]. split; [reflexivity|]. split; [reflexivity|]. split.
    { intros p Hp. now apply lookup_insert_ne. }
    repeat split. exact Hbusy.
  - intros Hout. unfold TrackerList.receive_failed.
    rewrite decide_True by now apply find_not_elem. eauto.
  - intros t Ht Hbusy. unfold TrackerList.receive_failed.
    destruct (decide _); [eauto|].
    rewrite (deref_Some _ _ _ Ht), Hbusy. eauto.
Qed.

Lemma receive_failed_effect_witness :
  exists w' t',
    TrackerList.receive_failed Samples.env0 2 "timed out" Samples.world3 = Done tt w' /\
    heap w' !! 2 = Some t' /\
    m_failed_counter t' = 1%Z /\ (0 < m_failed_counter t')%Z /\
    m_failed_time_last t' = 1000%Z /\ m_success_counter t' = 0%Z.
Proof.
  destruct (proj1 (receive_failed_effect Samples.env0 2 "timed out" Samples.world3)
              Samples.idle)
    as (w' & t' & Hrun & Ht' & Hfc & Hpos & Htime & _ & _ & _ & (Hsc & _) & _).
  - reflexivity.
  - apply list_elem_of_lookup. exists 1. reflexivity.
  - reflexivity.
  - exists w', t'. split; [exact Hrun|]. split; [exact Ht'|]. split; [exact Hfc|].
    split; [|split; [exact Htime|exact Hsc]].
    apply Hpos; [cbv; split; congruence|discriminate].
Defined.

(** C9, as stated, fails: a tracker of the list that is not busy and whose
    [failed_counter] is 4294967295 has a [failed_counter] of 0 after
    [receive_failed]. *)
Lemma receive_failed_wraps_to_zero :
  heap Samples.world_worn_out !! 1 = Some (Samples.failed 4294967295 100) /\
  Tracker_wf (Samples.failed 4294967295 100) /\
  1 ∈ tlist Samples.world_worn_out /\
  is_busy (Samples.failed 4294967295 100) = false /\
  exists w', TrackerList.receive_failed Samples.env0 1 "timed out" Samples.world_worn_out = Done tt w' /\
             m_failed_counter (TrackerList.deref w' 1) = 0%Z /\
             ~ (0 < m_failed_counter (TrackerList.deref w' 1%nat))%Z.
Proof.
  split; [reflexivity|]. split; [split; cbv; split; congruence|].
  split; [apply list_elem_of_lookup; exists 0; reflexivity|].
  split; [reflexivity|].
  eexists. split; [reflexivity|]. split; [reflexivity|].
  vm_compute. discriminate.
Qed.

End Receive_failed.


(** ** Group sequences *)

Section Group_sequences.

Import Algo Props.
Local Open Scope Z_scope.

Lemma after_last_fmap {A B} (f : A -> B) (p : B -> bool) (l : list A) :
  after_last p (f <$> l) = after_last (fun x => p (f x)) l.
Proof.
  induction l as [|x l IH]; [reflexivity|].
  cbn. now rewrite IH.
Qed.

Lemma after_last_None {A} (p : A -> bool) (l : list A) :
  after_last p l = None -> Forall (fun x => p x = false) l.
Proof.
  induction l as [|x l IH]; cbn; [constructor|].
  destruct (after_last p l); [discriminate|].
  destruct (p x) eqn:E; [discriminate|]. intros _. constructor; auto.
Qed.

Lemma after_last_Some {A} (p : A -> bool) (l : list A) : forall i,
  after_last p l = Some i ->
  exists l1 x l2, l = l1 ++ x :: l2 /\ i = S (length l1) /\ p x = true /\
                  Forall (fun y => p y = false) l2.
Proof.
  induction l as [|x l IH]; cbn; intros i Hi; [discriminate|].
  destruct (after_last p l) as [j|] eqn:E.
  - injection Hi as <-. destruct (IH j eq_refl) as (l1 & y & l2 & -> & -> & Hy & Hl2).
    exists (x :: l1), y, l2. auto.
  - destruct (p x) eqn:Ex; [|discriminate]. injection Hi as <-.
    exists [], x, l. repeat split; auto. now apply after_last_None.
Qed.

Lemma sorted_lookup (gs : list Z) : forall (i j : nat) a b,
  StronglySorted Z.le gs -> (i <= j)%nat ->
  gs !! i = Some a -> gs !! j = Some b -> a <= b.
Proof.
  induction gs as [|x gs IH]; intros i j a b Hs Hij Ha Hb; [discriminate|].
  apply StronglySorted_inv in Hs as [Hs Hx].
  destruct i as [|i], j as [|j]; cbn in *; try lia.
  - injection Ha as <-. injection Hb as <-. lia.
  - injection Ha as <-. apply (Forall_lookup_1 _ _ _ _ Hx Hb).
  - apply (IH i j); auto. lia.
Qed.

Lemma sorted_by_group_of_sorted gs : StronglySorted Z.le gs -> sorted_by_group gs.
Proof.
  intros Hs i j gi gj Hij Hi Hj. apply (sorted_lookup gs i j); auto. lia.
Qed.

Lemma contiguous_bounds gs x : contiguous_groups gs -> x ∈ gs -> 0 <= x < num_groups gs.
Proof. intros Hc Hx. now apply Hc. Qed.

(** A tracker of a group that exists goes behind the last of that group. *)
Lemma place_existing l1 g l2 :
  StronglySorted Z.le (l1 ++ g :: l2) -> contiguous_groups (l1 ++ g :: l2) ->
  StronglySorted Z.le (l1 ++ g :: g :: l2) /\ contiguous_groups (l1 ++ g :: g :: l2).
Proof.
  intros Hs Hc. split.
  - apply StronglySorted_app in Hs as (Hcross & Hs1 & Hs2).
    apply StronglySorted_app. split; [|split; [exact Hs1|]].
    + intros x1 x2 H1 H2. apply Hcross; [exact H1|].
      apply elem_of_cons in H2 as [->|H2]; [left|exact H2].
    + pose proof Hs2 as Hs2'. apply StronglySorted_inv in Hs2' as [_ Hg].
      constructor; [exact Hs2|]. constructor; [lia|exact Hg].
  - intros x. unfold num_groups. rewrite last_app_cons, last_cons_cons, <- last_app_cons with (l1 := l1).
    rewrite <- (Hc x). rewrite !elem_of_app, !elem_of_cons. tauto.
Qed.

(** A tracker of the group after the last one goes to the end. *)
Lemma place_next gs g :
  StronglySorted Z.le gs -> contiguous_groups gs ->
  g ∉ gs -> 0 <= g <= num_groups gs ->
  StronglySorted Z.le (gs ++ [g]) /\ contiguous_groups (gs ++ [g]).
Proof.
  intros Hs Hc Hg Hrange.
  assert (Hnext : g = num_groups gs).
  { destruct (decide (g < num_groups gs)) as [Hlt|]; [|lia].
    exfalso. apply Hg. apply Hc. lia. }
  split.
  - apply StronglySorted_app. split; [|split; [exact Hs|repeat constructor]].
    intros x1 x2 H1 H2. apply list_elem_of_singleton in H2 as ->.
    apply Hc in H1. lia.
  - intros x. unfold num_groups at 1. rewrite last_snoc.
    rewrite elem_of_app, list_elem_of_singleton, (Hc x). lia.
Qed.

Lemma vector_insert_after {A} (l1 : list A) x y l2 :
  vector_insert (S (length l1)) y (l1 ++ x :: l2) = l1 ++ x :: y :: l2.
Proof.
  unfold vector_insert.
  replace (l1 ++ x :: l2) with ((l1 ++ [x]) ++ l2) by now rewrite <- app_assoc.
  replace (S (length l1)) with (length (l1 ++ [x])) by (rewrite length_app; cbn; lia).
  rewrite take_app_length, drop_app_length. now rewrite <- app_assoc.
Qed.

Lemma vector_insert_end {A} (l : list A) y : vector_insert (length l) y l = l ++ [y].
Proof. unfold vector_insert. now rewrite firstn_all, drop_all. Qed.

(** The invariant of the groups survives an insertion into a group that
    exists or into the next one. *)
Lemma place_keeps_invariant gs g :
  StronglySorted Z.le gs -> contiguous_groups gs -> 0 <= g <= num_groups gs ->
  StronglySorted Z.le (vector_insert (place g gs) g gs) /\
  contiguous_groups (vector_insert (place g gs) g gs).
Proof.
  intros Hs Hc Hg. unfold place.
  destruct (after_last (fun x => x =? g) gs) as [i|] eqn:E.
  - destruct (after_last_Some _ _ _ E) as (l1 & x & l2 & -> & -> & Hx & _).
    apply Z.eqb_eq in Hx as ->. rewrite vector_insert_after.
    now apply place_existing.
  - rewrite vector_insert_end. apply place_next; auto.
    apply after_last_None in E. intros Hin.
    rewrite Forall_forall in E. specialize (E g Hin). cbn in E. lia.
Qed.

End Group_sequences.

(** ** Lists that the public operations build *)

Section Reachable_lists.

Import Algo Props.
Local Open Scope nat_scope.

Lemma groups_group_seq w : TrackerList.groups w = group_seq (heap w) (tlist w).
Proof.
  unfold TrackerList.groups, TrackerList.trackers, group_seq.
  now rewrite <- list_fmap_compose.
Qed.

Lemma size_group_num_groups w :
  TrackerList.size_group w = wrap32 (num_groups (TrackerList.groups w)).
Proof.
  unfold TrackerList.size_group, num_groups, TrackerList.groups.
  rewrite fmap_last. destruct (last _); reflexivity.
Qed.

Lemma end_group_place g w : TrackerList.end_group g w = place g (TrackerList.groups w).
Proof.
  unfold TrackerList.end_group, place, TrackerList.groups, TrackerList.trackers.
  rewrite !after_last_fmap, !length_fmap. reflexivity.
Qed.

Lemma group_seq_ext h h' l :
  (forall q, q ∈ l -> m_group (h' !!! q) = m_group (h !!! q)) ->
  group_seq h' l = group_seq h l.
Proof.
  intros Hsame. apply list_fmap_ext. intros i q Hq. apply Hsame.
  apply list_elem_of_lookup. eauto.
Qed.

Lemma group_seq_insert h l pos p :
  group_seq h (vector_insert pos p l)
  = vector_insert pos (m_group (h !!! p)) (group_seq h l).
Proof.
  unfold group_seq, vector_insert.
  now rewrite fmap_app, fmap_cons, fmap_take, fmap_drop.
Qed.

Lemma group_seq_swap h l i j :
  i < length l -> j < length l ->
  m_group (h !!! (l !!! i)) = m_group (h !!! (l !!! j)) ->
  group_seq h (iter_swap i j l) = group_seq h l.
Proof. intros Hi Hj Hg. unfold group_seq. now apply iter_swap_fmap. Qed.

Lemma group_seq_lookup h l i p :
  l !! i = Some p -> group_seq h l !! i = Some (m_group (h !!! p)).
Proof. intros Hp. unfold group_seq. now rewrite list_lookup_fmap, Hp. Qed.

Lemma elem_of_vector_insert {A} pos (x y : A) l :
  y ∈ vector_insert pos x l -> y = x \/ y ∈ l.
Proof.
  unfold vector_insert. rewrite elem_of_app, elem_of_cons.
  intros [Hy|[->|Hy]]; [right|now left|right].
  - now apply (subseteq_take pos l).
  - now apply (subseteq_drop pos l).
Qed.

(** [insert] of a tracker that is not in the list puts its group at
    [place]. *)
Lemma insert_groups env g p w itr w' :
  heap_valid w -> p ∉ tlist w ->
  TrackerList.insert env g p w = Done itr w' ->
  TrackerList.groups w'
  = vector_insert (place g (TrackerList.groups w)) g (TrackerList.groups w) /\
  heap_valid w'.
Proof.
  intros Hv Hp Hins. unfold TrackerList.insert in Hins.
  destruct (heap w !! p) as [t|] eqn:Et; [|discriminate].
  set (h1 := <[p := assign M_group g t]> (heap w)) in *.
  assert (Hsame : group_seq h1 (tlist w) = group_seq (heap w) (tlist w)).
  { apply group_seq_ext. intros q Hq. unfold h1.
    rewrite lookup_total_insert_ne; [reflexivity|]. intros ->. contradiction. }
  assert (Hplace : TrackerList.end_group g
                     {| heap := h1; tlist := tlist w; calls := calls w |}
                   = place g (TrackerList.groups w)).
  { rewrite end_group_place, !groups_group_seq. cbn [heap tlist]. now rewrite Hsame. }
  cbn [heap tlist calls] in Hins. rewrite Hplace in Hins.
  assert (Hres : heap w' = h1 /\
                 tlist w' = vector_insert (place g (TrackerList.groups w)) p (tlist w)).
  { destruct (m_slot_tracker_enabled env); injection Hins as _ <-; auto. }
  destruct Hres as [Hh Hl]. split.
  - rewrite groups_group_seq, Hh, Hl, group_seq_insert, Hsame.
    unfold h1. rewrite lookup_total_insert_eq. now rewrite !groups_group_seq.
  - intros q Hq. rewrite Hl in Hq. rewrite Hh. unfold h1.
    apply lookup_insert_is_Some'.
    apply elem_of_vector_insert in Hq as [->|Hq]; [now left|right; now apply Hv].
Qed.

Lemma guard_existing_or_next g p w :
  existing_or_next_group g p w = true ->
  (0 <= g <= num_groups (TrackerList.groups w))%Z /\ p ∉ tlist w.
Proof.
  unfold existing_or_next_group. intros H.
  apply andb_prop in H as [H Hp]. apply andb_prop in H as [H Hn].
  apply andb_prop in H as [H0 _].
  apply negb_true_iff, bool_decide_eq_false in Hp. split; [lia|exact Hp].
Qed.

(** [insert_url] either leaves the list alone or inserts a new tracker. *)
Lemma insert_url_groups env g url extra w w' :
  heap_valid w ->
  TrackerList.insert_url env g url extra w = Done tt w' ->
  (TrackerList.groups w' = TrackerList.groups w \/
   TrackerList.groups w'
   = vector_insert (place g (TrackerList.groups w)) g (TrackerList.groups w)) /\
  heap_valid w'.
Proof.
  intros Hv. unfold TrackerList.insert_url.
  assert (Hbuild : forall ty flags,
            (let '(tracker, w1) := TrackerList.new_tracker env ty url flags w in
             match TrackerList.insert env g tracker w1 with
             | Done _ w2 => Done tt w2
             | Raised e w2 => Raised e w2
             | Undefined => Undefined
             end) = Done tt w' ->
            TrackerList.groups w'
            = vector_insert (place g (TrackerList.groups w)) g (TrackerList.groups w) /\
            heap_valid w').
  { intros ty flags. unfold TrackerList.new_tracker.
    set (p := fresh (dom (heap w))).
    set (t := TrackerOps.new_Tracker _ _ _ _ _ _ _).
    set (w1 := {| heap := <[p := t]> (heap w); tlist := tlist w; calls := calls w |}).
    assert (Hfresh : heap w !! p = None) by (apply not_elem_of_dom, is_fresh).
    assert (Hp : p ∉ tlist w).
    { intros Hin. apply Hv in Hin as [? Hin]. congruence. }
    assert (Hv1 : heap_valid w1).
    { intros q Hq. unfold w1 in *. cbn [heap tlist] in *.
      apply lookup_insert_is_Some'. right. now apply Hv. }
    assert (Hg1 : TrackerList.groups w1 = TrackerList.groups w).
    { rewrite !groups_group_seq. unfold w1. cbn [heap tlist].
      apply group_seq_ext. intros q Hq.
      rewrite lookup_total_insert_ne; [reflexivity|]. intros ->. contradiction. }
    destruct (TrackerList.insert env g p w1) as [itr w2| |] eqn:Eins; try discriminate.
    intros E. injection E as <-.
    destruct (insert_groups env g p w1 itr w2 Hv1 Hp Eins) as [Hg Hv2].
    rewrite Hg1 in Hg. auto. }
  destruct (_ || _); [intros E; split; [right|]; now apply (Hbuild _ _ E)|].
  destruct (StdString.starts_with "udp://" url);
    [intros E; split; [right|]; now apply (Hbuild _ _ E)|].
  destruct (_ && _); [intros E; split; [right|]; now apply (Hbuild _ _ E)|].
  destruct extra; [discriminate|]. intros E. injection E as <-. auto.
Qed.

Lemma begin_group_found g w :
  TrackerList.begin_group g w < length (tlist w) ->
  exists q, tlist w !! TrackerList.begin_group g w = Some q /\
            (g <= m_group (TrackerList.deref w q))%Z.
Proof.
  intros Hlt. unfold TrackerList.begin_group in *.
  destruct (find_if_found (fun t => (g <=? m_group t)%Z) (TrackerList.trackers w))
    as (x & Hx & Hpx).
  { unfold TrackerList.trackers. now rewrite length_fmap. }
  unfold TrackerList.trackers in Hx at 2. rewrite list_lookup_fmap in Hx.
  destruct (tlist w !! _) as [q|]; [|discriminate].
  cbn in Hx. injection Hx as <-. exists q. split; [reflexivity|lia].
Qed.

(** In a list sorted by group, [promote] swaps two entries of one group. *)
Lemma promote_groups itr w first w' :
  StronglySorted Z.le (TrackerList.groups w) ->
  TrackerList.promote itr w = Done first w' ->
  TrackerList.groups w' = TrackerList.groups w /\ heap w' = heap w /\
  tlist w' ≡ₚ tlist w.
Proof.
  intros Hs Hpro. unfold TrackerList.promote in Hpro.
  destruct (tlist w !! itr) as [p|] eqn:Ep; [|discriminate].
  pose proof (begin_group_at_most w itr p Ep) as Hle.
  pose proof (lookup_lt_Some _ _ _ Ep) as Hlt.
  set (b := TrackerList.begin_group (m_group (TrackerList.deref w p)) w) in *.
  destruct (decide (b = length (tlist w))); [discriminate|].
  injection Hpro as _ <-. cbn [heap tlist].
  split; [|split; [reflexivity|apply iter_swap_perm; lia]].
  rewrite !groups_group_seq. cbn [heap tlist]. apply group_seq_swap; [lia|exact Hlt|].
  rewrite (list_lookup_total_correct _ _ _ Ep).
  destruct (begin_group_found (m_group (TrackerList.deref w p)) w) as (q & Hq & Hge).
  { fold b. lia. }
  fold b in Hq. rewrite (list_lookup_total_correct _ _ _ Hq).
  apply Z.le_antisymm.
  - rewrite groups_group_seq in Hs.
    apply (sorted_lookup _ b itr _ _ Hs Hle); now apply group_seq_lookup.
  - exact Hge.
Qed.

(** The loop of [cycle_group] swaps entries of the group only. *)
Lemma cycle_loop_groups w g fuel : forall itr prev l l',
  TrackerList.cycle_loop w g fuel itr prev l = Some l' ->
  prev < length l -> m_group (heap w !!! (l !!! prev)) = g ->
  group_seq (heap w) l' = group_seq (heap w) l /\ l' ≡ₚ l.
Proof.
  induction fuel as [|fuel IH]; intros itr prev l l' Hloop Hprev Hg; [discriminate|].
  cbn in Hloop. destruct (l !! S itr) as [p|] eqn:Ep.
  2:{ injection Hloop as <-. auto. }
  unfold TrackerList.deref in Hloop.
  destruct (Z.eqb_spec (m_group (heap w !!! p)) g) as [Hpg|_].
  2:{ injection Hloop as <-. auto. }
  pose proof (lookup_lt_Some _ _ _ Ep) as Hlt.
  destruct (IH _ _ _ _ Hloop) as [Hgs Hperm].
  - now rewrite iter_swap_length.
  - rewrite (list_lookup_total_correct _ _ _ (iter_swap_lookup_l (S itr) prev l Hlt)).
    exact Hg.
  - split.
    + rewrite Hgs. apply group_seq_swap; [exact Hlt|exact Hprev|].
      rewrite (list_lookup_total_correct _ _ _ Ep). congruence.
    + rewrite Hperm. now apply iter_swap_perm.
Qed.

(** The fuel that [cycle_group] gives its loop is enough. *)
Lemma cycle_loop_total w g fuel : forall itr prev l,
  length l <= S itr + fuel ->
  is_Some (TrackerList.cycle_loop w g (S fuel) itr prev l).
Proof.
  induction fuel as [|fuel IH]; intros itr prev l Hlen.
  - cbn. rewrite lookup_ge_None_2 by lia. eauto.
  - cbn [TrackerList.cycle_loop]. destruct (l !! S itr) as [p|]; [|eauto].
    destruct (_ =? _)%Z; [|eauto].
    apply IH. rewrite iter_swap_length. lia.
Qed.

Lemma cycle_group_total g w : is_Some (TrackerList.cycle_group g w).
Proof.
  unfold TrackerList.cycle_group.
  destruct (tlist w !! _) as [p|]; [|eauto].
  destruct (negb _); [eauto|].
  destruct (cycle_loop_total w g (length (tlist w)) (TrackerList.begin_group g w)
              (TrackerList.begin_group g w) (tlist w)) as [l' ->]; [lia|].
  cbn. eauto.
Qed.

Lemma cycle_group_groups g w w' :
  TrackerList.cycle_group g w = Some w' ->
  TrackerList.groups w' = TrackerList.groups w /\ heap w' = heap w /\
  tlist w' ≡ₚ tlist w.
Proof.
  unfold TrackerList.cycle_group.
  destruct (tlist w !! TrackerList.begin_group g w) as [p|] eqn:Ep.
  2:{ intros E. injection E as <-. auto. }
  destruct (Z.eqb_spec (m_group (TrackerList.deref w p)) g) as [Hpg|_]; cbn [negb].
  2:{ intros E. injection E as <-. auto. }
  destruct (TrackerList.cycle_loop _ _ _ _ _ _) as [l'|] eqn:Eloop; [|discriminate].
  cbn. intros E. injection E as <-. cbn [heap tlist].
  destruct (cycle_loop_groups _ _ _ _ _ _ _ Eloop) as [Hgs Hperm].
  - now apply lookup_lt_Some in Ep.
  - now rewrite (list_lookup_total_correct _ _ _ Ep).
  - rewrite !groups_group_seq. cbn [heap tlist]. auto.
Qed.

Lemma fmap_const_replicate {A B} (f : A -> B) c (l : list A) :
  (forall x, x ∈ l -> f x = c) -> f <$> l = replicate (length l) c.
Proof.
  induction l as [|x l IH]; intros Hc; [reflexivity|].
  cbn. rewrite (Hc x) by left. f_equal. apply IH. intros y Hy. apply Hc. now right.
Qed.

(** A stretch of one group looks the same after a shuffle. *)
Lemma fmap_shuffled {A B} (f : A -> B) c (seg shuffled : list A) :
  (forall x, x ∈ seg -> f x = c) -> shuffled ≡ₚ seg -> f <$> shuffled = f <$> seg.
Proof.
  intros Hc Hperm. rewrite (fmap_const_replicate f c seg Hc).
  rewrite (fmap_const_replicate f c shuffled).
  - now rewrite (Permutation_length Hperm).
  - intros x Hx. apply Hc. now rewrite <- Hperm.
Qed.

(** In a list sorted by group, the stretch from an entry to [place] of its
    group is all of that group. *)
Lemma stretch_of_group gs (itr : nat) g :
  StronglySorted Z.le gs -> gs !! itr = Some g ->
  place g gs <= length gs /\
  forall (j : nat) y, itr <= j < place g gs -> gs !! j = Some y -> y = g.
Proof.
  intros Hs Hitr. unfold place.
  destruct (after_last (fun x => (x =? g)%Z) gs) as [i|] eqn:E.
  - destruct (after_last_Some _ _ _ E) as (l1 & x & l2 & Hgs & -> & Hx & _).
    apply Z.eqb_eq in Hx as ->.
    assert (Hat : gs !! length l1 = Some g).
    { rewrite Hgs. rewrite lookup_app_r by lia. now rewrite Nat.sub_diag. }
    split.
    + apply lookup_lt_Some in Hat. lia.
    + intros j y [Hj1 Hj2] Hy. apply Z.le_antisymm.
      * apply (sorted_lookup gs j (length l1) _ _ Hs); [lia|exact Hy|exact Hat].
      * apply (sorted_lookup gs itr j _ _ Hs); [lia|exact Hitr|exact Hy].
  - apply after_last_None in E. exfalso.
    pose proof (Forall_lookup_1 _ _ _ _ E Hitr) as Hne. cbn in Hne. lia.
Qed.

Lemma find_if_fmap {A B} (f : A -> B) (p : B -> bool) (l : list A) :
  find_if p (f <$> l) = find_if (fun x => p (f x)) l.
Proof. induction l as [|x l IH]; [reflexivity|]. cbn. now rewrite IH. Qed.

(** In a list sorted by group, the entries of a group that exists end where
    the entries of greater groups begin, and so does the list for a group
    greater than all. *)
Lemma place_begin_next gs g :
  StronglySorted Z.le gs -> g ∈ gs \/ Forall (fun x => (x < g)%Z) gs ->
  place g gs = find_if (fun x => (g + 1 <=? x)%Z) gs.
Proof.
  intros Hs Hg. unfold place.
  destruct (after_last (fun x => (x =? g)%Z) gs) as [i|] eqn:E.
  - destruct (after_last_Some _ _ _ E) as (l1 & x & l2 & -> & -> & Hx & Hl2).
    apply Z.eqb_eq in Hx as ->. symmetry.
    apply StronglySorted_app in Hs as (Hcross & _ & Hs2).
    apply StronglySorted_inv in Hs2 as [_ Hge].
    assert (Hlow : forall (i : nat) y, i < S (length l1) ->
                     (l1 ++ g :: l2) !! i = Some y -> (g + 1 <=? y)%Z = false).
    { intros i y Hi Hy. apply Z.leb_gt.
      destruct (decide (i < length l1)) as [Hlt|Hge'].
      - rewrite lookup_app_l in Hy by exact Hlt.
        assert (y <= g)%Z; [|lia]. apply (Hcross y g); [|left].
        apply list_elem_of_lookup. eauto.
      - rewrite lookup_app_r in Hy by lia.
        replace (i - length l1) with 0 in Hy by lia. cbn in Hy.
        injection Hy as <-. lia. }
    destruct l2 as [|z l2].
    + rewrite find_if_none; [rewrite length_app; cbn; lia|].
      intros y Hy. apply list_elem_of_lookup in Hy as (i & Hi).
      apply (Hlow i y); [|exact Hi].
      apply lookup_lt_Some in Hi. rewrite length_app in Hi. cbn in Hi. lia.
    + apply (find_if_first _ _ _ z); [| |exact Hlow].
      * rewrite lookup_app_r by lia.
        replace (S (length l1) - length l1) with 1 by lia. reflexivity.
      * apply Forall_cons in Hge as [Hz _]. apply Forall_cons in Hl2 as [Hne _].
        cbn in Hne. apply Z.leb_le. lia.
  - destruct Hg as [Hin|Hall].
    + apply after_last_None in E. rewrite Forall_forall in E.
      specialize (E g Hin). cbn in E. lia.
    + symmetry. apply find_if_none. intros y Hy.
      rewrite Forall_forall in Hall. specialize (Hall y Hy). apply Z.leb_gt. lia.
Qed.

(** So, on the lists of [reachable_sorted], [end_group] of a group is
    [begin_group] of the next group number. *)
Lemma end_group_begin_next g w :
  StronglySorted Z.le (TrackerList.groups w) ->
  g ∈ TrackerList.groups w \/ Forall (fun x => (x < g)%Z) (TrackerList.groups w) ->
  TrackerList.end_group g w = TrackerList.begin_group (g + 1) w.
Proof.
  intros Hs Hg. rewrite end_group_place, (place_begin_next _ _ Hs Hg).
  unfold TrackerList.begin_group, TrackerList.groups. now rewrite find_if_fmap.
Qed.

Lemma randomize_from_groups w itr l l' :
  TrackerList.randomize_from w itr l l' ->
  StronglySorted Z.le (group_seq (heap w) l) ->
  group_seq (heap w) l' = group_seq (heap w) l /\ l' ≡ₚ l.
Proof.
  induction 1 as [itr l Hend|itr l p tmp shuffled l' Hp Htmp Hlt Hperm Hrest IH];
    intros Hs; [auto|].
  assert (Htmp' : tmp = place (m_group (heap w !!! p)) (group_seq (heap w) l)).
  { rewrite Htmp, end_group_place, groups_group_seq. reflexivity. }
  destruct (stretch_of_group _ itr _ Hs (group_seq_lookup _ _ _ _ Hp)) as [Hle Hstretch].
  rewrite <- Htmp' in Hle, Hstretch. unfold group_seq in Hle. rewrite length_fmap in Hle.
  assert (Hsplit : l = take itr l ++ take (tmp - itr) (drop itr l) ++ drop tmp l).
  { rewrite <- (take_drop itr l) at 1. f_equal.
    rewrite <- (take_drop (tmp - itr) (drop itr l)) at 1. f_equal.
    rewrite drop_drop. f_equal. lia. }
  assert (Hseg : forall x, x ∈ take (tmp - itr) (drop itr l) ->
                   m_group (heap w !!! x) = m_group (heap w !!! p)).
  { intros x Hx. apply elem_of_take in Hx as (k & Hk & Hklt).
    rewrite lookup_drop in Hk.
    apply (Hstretch (itr + k)); [lia|]. now apply group_seq_lookup. }
  assert (Hnext : group_seq (heap w) (take itr l ++ shuffled ++ drop tmp l)
                  = group_seq (heap w) l).
  { transitivity (group_seq (heap w)
                    (take itr l ++ take (tmp - itr) (drop itr l) ++ drop tmp l));
      [|now rewrite <- Hsplit].
    unfold group_seq. rewrite !fmap_app. f_equal. f_equal.
    now apply (fmap_shuffled _ (m_group (heap w !!! p))). }
  destruct IH as [Hgs Hperm']; [now rewrite Hnext|].
  split; [now rewrite Hgs|].
  rewrite Hperm', Hperm. now rewrite <- Hsplit.
Qed.

Lemma receive_success_groups env tb l w l' w' :
  StronglySorted Z.le (TrackerList.groups w) ->
  TrackerList.receive_success env tb l w = Done l' w' ->
  TrackerList.groups w' = TrackerList.groups w /\
  (forall p, is_Some (heap w !! p) -> is_Some (heap w' !! p)) /\
  tlist w' ≡ₚ tlist w.
Proof.
  intros Hs. unfold TrackerList.receive_success.
  destruct (decide _); [discriminate|].
  destruct (is_busy _); [discriminate|].
  destruct (TrackerList.promote _ w) as [first w1| |] eqn:Epro; try discriminate.
  destruct (promote_groups _ _ _ _ Hs Epro) as (Hg1 & Hh1 & Hp1).
  intros E. injection E as _ <-. cbn [heap tlist]. split; [|split; [|exact Hp1]].
  - rewrite <- Hg1, !groups_group_seq. cbn [heap tlist].
    apply group_seq_ext. intros q _.
    destruct (decide (q = tb)) as [->|Hne].
    + rewrite lookup_total_insert_eq. reflexivity.
    + now rewrite lookup_total_insert_ne.
  - intros p Hp. apply lookup_insert_is_Some'. right. now rewrite Hh1.
Qed.

Lemma heap_valid_perm w w' :
  heap_valid w -> tlist w' ≡ₚ tlist w ->
  (forall p, is_Some (heap w !! p) -> is_Some (heap w' !! p)) ->
  heap_valid w'.
Proof.
  intros Hv Hperm Hheap p Hp. apply Hheap, Hv. now rewrite <- Hperm.
Qed.

(** The lists built with insertions into an existing or the next group are
    sorted by group, without a gap. *)
Lemma reachable_sorted w :
  reachable existing_or_next_group w ->
  heap_valid w /\ StronglySorted Z.le (TrackerList.groups w) /\
  contiguous_groups (TrackerList.groups w).
Proof.
  induction 1 as [h
                 |env g p w itr w' Hw IH Hguard Hins
                 |env g url extra w w' Hw IH Hguard Hins
                 |itr w first w' Hw IH Hpro
                 |g w w' Hw IH Hcyc
                 |w w' Hw IH Hrand
                 |env tb l w l' w' Hw IH Hrecv].
  - split; [|split].
    + intros p Hp. now apply elem_of_nil in Hp.
    + constructor.
    + intros g. cbn. rewrite elem_of_nil. lia.
  - destruct IH as (Hv & Hs & Hc).
    destruct (guard_existing_or_next _ _ _ Hguard) as [Hg Hp].
    destruct (insert_groups _ _ _ _ _ _ Hv Hp Hins) as [-> Hv'].
    split; [exact Hv'|]. now apply place_keeps_invariant.
  - destruct IH as (Hv & Hs & Hc).
    destruct (guard_existing_or_next _ _ _ Hguard) as [Hg _].
    destruct (insert_url_groups _ _ _ _ _ _ Hv Hins) as [[->| ->] Hv'];
      split; auto. now apply place_keeps_invariant.
  - destruct IH as (Hv & Hs & Hc).
    destruct (promote_groups _ _ _ _ Hs Hpro) as (-> & Hh & Hperm).
    split; [|auto]. apply (heap_valid_perm w); auto. intros p. now rewrite Hh.
  - destruct IH as (Hv & Hs & Hc).
    destruct (cycle_group_groups _ _ _ Hcyc) as (-> & Hh & Hperm).
    split; [|auto]. apply (heap_valid_perm w); auto. intros p. now rewrite Hh.
  - destruct IH as (Hv & Hs & Hc).
    destruct Hrand as (Hh & _ & Hrand).
    rewrite groups_group_seq in Hs, Hc.
    destruct (randomize_from_groups _ _ _ _ Hrand Hs) as [Hgs Hperm].
    rewrite groups_group_seq, Hh, Hgs.
    split; [|auto]. apply (heap_valid_perm w); auto. intros p. now rewrite Hh.
  - destruct IH as (Hv & Hs & Hc).
    destruct (receive_success_groups _ _ _ _ _ _ Hs Hrecv) as (-> & Hh & Hperm).
    split; [|auto]. now apply (heap_valid_perm w).
Qed.

(** C4, as amended: in every list built from the empty list by [insert],
    [insert_url], [promote], [cycle_group], [randomize_group_entries] and
    [receive_success], where every insertion is of a tracker that is not yet
    in the list and goes into a group that exists or into the one after the
    last, the groups never decrease along the list, the groups present are
    exactly [0 .. G-1] for [G = back().group + 1] ([0] for the empty list),
    and [size_group()] is [G] as a 32-bit value. *)
Theorem reachable_lists_grouped (w : World) :
  reachable existing_or_next_group w ->
  sorted_by_group (TrackerList.groups w) /\
  contiguous_groups (TrackerList.groups w) /\
  TrackerList.size_group w = wrap32 (num_groups (TrackerList.groups w)) /\
  heap_valid w.
Proof.
  intros Hw. destruct (reachable_sorted w Hw) as (Hv & Hs & Hc).
  split; [now apply sorted_by_group_of_sorted|].
  split; [exact Hc|]. split; [apply size_group_num_groups|exact Hv].
Qed.

End Reachable_lists.

Section Reachable_samples.

Import Props Samples.
Local Open Scope nat_scope.

Lemma tiers_reachable : reachable existing_or_next_group tiers.
Proof.
  apply (reach_insert _ env0 0%Z 3 tiers2 1); [|reflexivity|vm_compute; reflexivity].
  apply (reach_insert _ env0 1%Z 2 tiers1 1); [|reflexivity|vm_compute; reflexivity].
  apply (reach_insert _ env0 0%Z 1 (TrackerList.empty_list heap3) 0);
    [|reflexivity|vm_compute; reflexivity].
  apply reach_empty.
Defined.

Lemma reachable_lists_grouped_witness :
  tlist tiers = [1; 3; 2] /\
  TrackerList.groups tiers = [0; 0; 1]%Z /\
  sorted_by_group (TrackerList.groups tiers) /\
  contiguous_groups (TrackerList.groups tiers) /\
  TrackerList.size_group tiers = 2%Z.
Proof.
  destruct (reachable_lists_grouped tiers tiers_reachable) as (Hs & Hc & Hsize & _).
  split; [reflexivity|]. split; [reflexivity|]. split; [exact Hs|]. split; [exact Hc|].
  rewrite Hsize. reflexivity.
Defined.

(** C4, as stated, fails: [insert] takes any group, and one insertion into
    group 5 of an empty list gives a list whose only group is 5, with
    [size_group() = 6] and no tracker in the groups 0 to 4. *)
Lemma insert_into_group_5_leaves_gaps :
  reachable any_group lone_group_5 /\
  TrackerList.groups lone_group_5 = [5]%Z /\
  TrackerList.size_group lone_group_5 = 6%Z /\
  ~ contiguous_groups (TrackerList.groups lone_group_5).
Proof.
  split; [|split; [reflexivity|split; [reflexivity|]]].
  - unfold lone_group_5.
    apply (reach_insert _ env0 5%Z 1 (TrackerList.empty_list heap3) 0);
      [apply reach_empty|reflexivity|].
    vm_compute. reflexivity.
  - change (TrackerList.groups lone_group_5) with [5%Z].
    intros Hc. assert (H0 : (0 : Z) ∈ [5%Z]) by (apply Hc; cbn; lia).
    apply list_elem_of_singleton in H0. discriminate.
Qed.

End Reachable_samples.

(** ** The request counter over a series of calls *)

Section Throttle_rate.

Import TrackerOps.

Lemma inc_request_counter_step now t :
  0 <= m_request_counter t < modulus - 1 ->
  0 <= m_request_time_last t <= now -> now < modulus ->
  m_request_time_last (state_of (inc_request_counter now t)) = now /\
  m_request_counter (state_of (inc_request_counter now t))
  = Z.max 0 (m_request_counter t - (now - m_request_time_last t)) + 1.
Proof.
  intros Hc Hlast Hnow.
  destruct (inc_request_counter_state now t) as [Hcnt Htime].
  assert (Hw : wrap32 now = now) by (apply wrap32_small; unfold in_range; lia).
  rewrite Htime, Hcnt, Hw. split; [reflexivity|].
  rewrite (sub_small now (m_request_time_last t)) by (unfold in_range; lia).
  rewrite decay_clamped by (unfold in_range; lia).
  apply incr_small. lia.
Qed.

(** X1: over calls [inc_request_counter] at seconds that do not go back,
    all of which return, the counter and the clock account for every call:
    the number of calls is at most the rise of the counter plus the seconds
    elapsed, the counter stays below 10, and so a tracker is never asked
    more than 9 times plus once per elapsed second. *)
Theorem request_rate_bounded (nows : list Z) : forall (t t' : Tracker),
  0 <= m_request_time_last t ->
  0 <= m_request_counter t <= 9 ->
  Props2.ascending_from (m_request_time_last t) nows ->
  inc_request_counter_calls nows t = Ret tt t' ->
  Z.of_nat (length nows) + m_request_counter t
    <= m_request_counter t' + (m_request_time_last t' - m_request_time_last t) /\
  0 <= m_request_counter t' <= 9 /\
  Z.of_nat (length nows) <= 9 + (m_request_time_last t' - m_request_time_last t).
Proof.
  assert (Hmod : modulus = 4294967296) by reflexivity.
  induction nows as [|now rest IH]; intros t t' Hlast Hc Hasc Hrun.
  - cbn in Hrun. injection Hrun as <-. cbn [length]. lia.
  - cbn [Props2.ascending_from] in Hasc. destruct Hasc as [Hnow Hasc].
    cbn [inc_request_counter_calls] in Hrun.
    destruct (inc_request_counter_step now t) as [Htime Hcnt]; [lia|lia|lia|].
    pose proof (inc_request_counter_threw now t) as Hthrew.
    destruct (inc_request_counter now t) as [[] t1|e t1] eqn:Hcall; [|discriminate].
    cbn [state_of threw] in Htime, Hcnt, Hthrew.
    assert (Hc1 : m_request_counter t1 <= 9).
    { destruct (Z_lt_le_dec (m_request_counter t1) 10) as [Hlt|Hge]; [lia|].
      apply Hthrew in Hge. discriminate. }
    destruct (IH t1 t') as (Hsum & Hc' & _).
    + lia.
    + lia.
    + now rewrite Htime.
    + exact Hrun.
    + rewrite Htime in Hsum. cbn [length]. rewrite Nat2Z.inj_succ. lia.
Qed.

Lemma request_rate_bounded_witness :
  inc_request_counter_calls [0; 0; 0; 1; 2] Samples.idle
  = Ret tt (assign M_request_counter 3 (assign M_request_time_last 2 Samples.idle)) /\
  Z.of_nat (length [0; 0; 0; 1; 2]) <= 9 + (2 - 0).
Proof.
  split; [reflexivity|].
  apply (request_rate_bounded [0; 0; 0; 1; 2] Samples.idle
           (assign M_request_counter 3 (assign M_request_time_last 2 Samples.idle))).
  - vm_compute. discriminate.
  - vm_compute. split; discriminate.
  - vm_compute. repeat split; discriminate.
  - reflexivity.
Defined.

End Throttle_rate.

(** ** How [cycle_group] and [promote] move the entries *)

Section Moves.

Import Algo.
Local Open Scope nat_scope.

Lemma iter_swap_neighbours {A} `{Inhabited A} (pre : list A) x y rest :
  iter_swap (S (length pre)) (length pre) (pre ++ x :: y :: rest)
  = pre ++ y :: x :: rest.
Proof.
  unfold iter_swap.
  rewrite (list_lookup_total_middle pre (y :: rest) x (length pre) eq_refl).
  replace ((pre ++ x :: y :: rest) !!! S (length pre)) with y.
  2:{ symmetry. apply list_lookup_total_correct. rewrite lookup_app_r by lia.
      now replace (S (length pre) - length pre) with 1 by lia. }
  rewrite (insert_app_r_alt pre) by lia. rewrite Nat.sub_diag.
  rewrite (insert_app_r_alt pre) by lia.
  now replace (S (length pre) - length pre) with 1 by lia.
Qed.

Lemma iter_swap_same {A} `{Inhabited A} i (l : list A) : iter_swap i i l = l.
Proof.
  unfold iter_swap. destruct (decide (i < length l)) as [Hlt|Hge].
  - destruct (lookup_lt_is_Some_2 l i Hlt) as [x Hx].
    rewrite (list_lookup_total_correct _ _ _ Hx).
    rewrite (list_insert_id l i x Hx). now apply list_insert_id.
  - rewrite (list_insert_ge l) by lia. apply list_insert_ge. lia.
Qed.

(** The loop of [cycle_group] carries the entry where the group begins
    over the further entries of the group. *)
Lemma cycle_loop_rotates w g (seg : list ptr) : forall fuel pre x post,
  length seg < fuel ->
  Forall (fun p => m_group (TrackerList.deref w p) = g) seg ->
  match post with
  | [] => True
  | y :: _ => m_group (TrackerList.deref w y) <> g
  end ->
  TrackerList.cycle_loop w g fuel (length pre) (length pre) (pre ++ x :: seg ++ post)
  = Some (pre ++ seg ++ x :: post).
Proof.
  induction seg as [|y seg IH]; intros fuel pre x post Hfuel Hseg Hpost.
  - destruct fuel as [|fuel]; [cbn in Hfuel; lia|].
    cbn [TrackerList.cycle_loop app].
    replace ((pre ++ x :: post) !! S (length pre)) with (post !! 0).
    2:{ rewrite lookup_app_r by lia. now replace (S (length pre) - length pre) with 1 by lia. }
    destruct post as [|y post]; [reflexivity|].
    cbn [lookup list_lookup].
    destruct (Z.eqb_spec (m_group (TrackerList.deref w y)) g) as [Heq|Hne];
      [contradiction|reflexivity].
  - destruct fuel as [|fuel]; [cbn in Hfuel; lia|].
    cbn [TrackerList.cycle_loop app].
    replace ((pre ++ x :: y :: seg ++ post) !! S (length pre)) with (Some y).
    2:{ rewrite lookup_app_r by lia.
        now replace (S (length pre) - length pre) with 1 by lia. }
    apply Forall_cons in Hseg as [Hy Hseg].
    rewrite Hy, Z.eqb_refl, iter_swap_neighbours.
    specialize (IH fuel (pre ++ [y]) x post).
    rewrite length_app, Nat.add_1_r in IH. cbn [length] in Hfuel.
    rewrite <- !(assoc_L (++) pre [y]) in IH. apply IH; [lia|exact Hseg|exact Hpost].
Qed.

(** X2: [cycle_group] rotates the run of the group by one place: the
    entry where the group begins goes behind the further entries of the
    group, which each move up one place, and nothing else changes. *)
Theorem cycle_group_rotates (g : Z) (w : World) (pre : list ptr) (x : ptr)
        (seg post : list ptr) :
  Props2.group_stretch w g pre x seg post ->
  TrackerList.cycle_group g w
  = Some {| heap := heap w; tlist := pre ++ seg ++ x :: post; calls := calls w |}.
Proof.
  intros (Hl & Hpre & Hgroup & Hpost).
  apply Forall_cons in Hgroup as [Hx Hseg].
  unfold TrackerList.cycle_group. rewrite <- Hpre, Hl.
  rewrite (list_lookup_middle pre (seg ++ post) x (length pre) eq_refl).
  rewrite Hx, Z.eqb_refl. cbn [negb].
  rewrite cycle_loop_rotates; [reflexivity| |exact Hseg|exact Hpost].
  rewrite !length_app. cbn [length]. rewrite length_app. lia.
Qed.

Lemma cycle_group_rotates_witness :
  TrackerList.cycle_group 0 Samples.tiers
  = Some {| heap := heap Samples.tiers; tlist := [3; 1; 2]; calls := calls Samples.tiers |}.
Proof.
  apply (cycle_group_rotates 0 Samples.tiers [] 1 [3] [2]).
  split; [reflexivity|]. split; [reflexivity|]. split.
  - repeat constructor.
  - vm_compute. discriminate.
Defined.

(** X3: [promote] on a valid iterator never raises: it swaps the entry
    with the one where its group begins, which is not behind it, and leaves
    everything else as it was; promoting the entry once more changes
    nothing. *)
Theorem promote_swaps_to_front (itr : nat) (w : World) (p : ptr) :
  tlist w !! itr = Some p ->
  exists first w',
    TrackerList.promote itr w = Done first w' /\
    first = TrackerList.begin_group (m_group (TrackerList.deref w p)) w /\
    first <= itr /\
    tlist w' !! first = Some p /\
    tlist w' !! itr = tlist w !! first /\
    (forall k, k <> first -> k <> itr -> tlist w' !! k = tlist w !! k) /\
    heap w' = heap w /\ calls w' = calls w /\
    tlist w' ≡ₚ tlist w /\
    TrackerList.promote first w' = Done first w'.
Proof.
  intros Hp.
  pose proof (begin_group_at_most w itr p Hp) as Hle.
  pose proof (lookup_lt_Some _ _ _ Hp) as Hlt.
  set (first := TrackerList.begin_group (m_group (TrackerList.deref w p)) w) in *.
  set (w' := {| heap := heap w; tlist := iter_swap first itr (tlist w); calls := calls w |}).
  assert (Hfirst : tlist w' !! first = Some p).
  { unfold w'. cbn [tlist]. rewrite iter_swap_lookup_l by lia.
    now rewrite (list_lookup_total_correct _ _ _ Hp). }
  exists first, w'. split; [exact (promote_done w itr p Hp)|].
  split; [reflexivity|]. split; [exact Hle|]. split; [exact Hfirst|].
  split.
  { unfold w'. cbn [tlist]. destruct (decide (itr = first)) as [->|Hne].
    - rewrite iter_swap_same. reflexivity.
    - rewrite iter_swap_lookup_r by lia.
      destruct (lookup_lt_is_Some_2 (tlist w) first) as [q Hq]; [lia|].
      now rewrite (list_lookup_total_correct _ _ _ Hq). }
  split; [intros k Hk1 Hk2; now apply iter_swap_lookup_ne|].
  split; [reflexivity|]. split; [reflexivity|].
  split; [apply iter_swap_perm; lia|].
  rewrite (promote_done w' first p Hfirst).
  assert (Hsame : TrackerList.begin_group (m_group (TrackerList.deref w' p)) w' = first).
  { apply (find_if_first _ _ first (TrackerList.deref w' p)).
    - now apply trackers_lookup.
    - apply Z.leb_refl.
    - intros i y Hi Hy.
      assert (Hyw : TrackerList.trackers w !! i = Some y).
      { unfold TrackerList.trackers in *. unfold w' in Hy. cbn [tlist] in Hy.
        rewrite list_lookup_fmap in Hy. rewrite iter_swap_lookup_ne in Hy by lia.
        now rewrite list_lookup_fmap. }
      exact (find_if_before _ _ i y Hi Hyw). }
  rewrite Hsame, iter_swap_same. reflexivity.
Qed.

Lemma promote_swaps_to_front_witness :
  exists w', TrackerList.promote 2 Samples.world3 = Done 0 w' /\ tlist w' = [3; 2; 1].
Proof.
  destruct (promote_swaps_to_front 2 Samples.world3 3 eq_refl)
    as (first & w' & Hrun & -> & _).
  exists w'. split; [exact Hrun|].
  rewrite (promote_done Samples.world3 2 3 eq_refl) in Hrun.
  injection Hrun as <-. reflexivity.
Defined.

End Moves.

(** ** The queries of the list *)

Section Queries_facts.

Import Algo Queries.
Local Open Scope nat_scope.

Lemma count_if_le {A} (p : A -> bool) (l : list A) : count_if p l <= length l.
Proof. induction l as [|x l IH]; cbn; [lia|]. destruct (p x); lia. Qed.

Lemma count_if_find_if {A} (p : A -> bool) (l : list A) :
  count_if p l = 0 <-> find_if p l = length l.
Proof.
  induction l as [|x l IH]; cbn; [tauto|].
  destruct (p x); [split; discriminate|]. rewrite IH. lia.
Qed.

Lemma find_if_mono {A} (p q : A -> bool) (l : list A) :
  (forall x, q x = true -> p x = true) -> find_if p l <= find_if q l.
Proof.
  intros Hpq. induction l as [|x l IH]; cbn; [lia|].
  destruct (q x) eqn:Hq; [now rewrite (Hpq x Hq)|].
  destruct (p x); lia.
Qed.

Lemma find_if_drop_bounds {A} (p : A -> bool) (l : list A) itr :
  itr <= length l -> itr <= itr + find_if p (drop itr l) <= length l.
Proof.
  intros Hle. pose proof (find_if_le p (drop itr l)) as H.
  rewrite length_drop in H. lia.
Qed.

Lemma has_usable_loop_find env (l : list Tracker) :
  has_usable_loop env l = negb (find_if (TrackerList.is_usable env) l =? length l).
Proof.
  induction l as [|t l IH]; [reflexivity|].
  cbn [has_usable_loop find_if length]. destruct (TrackerList.is_usable env t); [reflexivity|].
  rewrite IH. reflexivity.
Qed.

Lemma count_usable_loop_count env (l : list Tracker) : forall count,
  in_range count ->
  count_usable_loop env l count
  = wrap32 (count + Z.of_nat (count_if (TrackerList.is_usable env) l)).
Proof.
  induction l as [|t l IH]; intros count Hc.
  - cbn. rewrite Z.add_0_r. symmetry. now apply wrap32_small.
  - cbn [count_usable_loop count_if]. destruct (TrackerList.is_usable env t).
    + rewrite IH by apply wrap32_in_range. unfold U32.incr, wrap32.
      rewrite Nat2Z.inj_succ, Zplus_mod_idemp_l. f_equal. lia.
    + now apply IH.
Qed.

(** X4: the queries for usable trackers agree on a list of fewer than
    2^32 entries: [count_usable] is the number of usable entries,
    [has_usable] holds exactly when that number is not 0 and exactly when
    [find_usable] from the beginning finds an entry; [find_usable] from a
    position returns the first usable entry from there on, or [end()]. *)
Theorem usable_queries_agree (env : Env) (w : World) :
  (Z.of_nat (size w) < modulus)%Z ->
  count_usable env w = Z.of_nat (count_if (TrackerList.is_usable env) (TrackerList.trackers w)) /\
  (0 <= count_usable env w <= Z.of_nat (size w))%Z /\
  (has_usable env w = true <-> (0 < count_usable env w)%Z) /\
  (has_usable env w = true <-> find_usable env 0 w < size w) /\
  forall itr, itr <= size w ->
    itr <= find_usable env itr w <= size w /\
    (forall t, TrackerList.trackers w !! find_usable env itr w = Some t ->
       TrackerList.is_usable env t = true) /\
    (forall i t, itr <= i < find_usable env itr w -> TrackerList.trackers w !! i = Some t ->
       TrackerList.is_usable env t = false).
Proof.
  intros Hsize.
  assert (Hlen : length (TrackerList.trackers w) = size w)
    by apply length_fmap.
  pose proof (count_if_le (TrackerList.is_usable env) (TrackerList.trackers w)) as Hle.
  assert (Hcount : count_usable env w
                   = Z.of_nat (count_if (TrackerList.is_usable env) (TrackerList.trackers w))).
  { unfold count_usable. rewrite count_usable_loop_count by (unfold in_range, modulus; lia).
    apply wrap32_small. unfold in_range. lia. }
  pose proof (count_if_find_if (TrackerList.is_usable env) (TrackerList.trackers w)) as Hzero.
  pose proof (find_if_le (TrackerList.is_usable env) (TrackerList.trackers w)) as Hfle.
  assert (Hhas : has_usable env w = true
                 <-> find_if (TrackerList.is_usable env) (TrackerList.trackers w) < size w).
  { unfold has_usable. rewrite has_usable_loop_find, negb_true_iff, Nat.eqb_neq. lia. }
  split; [exact Hcount|]. split; [lia|]. split; [rewrite Hhas; lia|].
  split; [unfold find_usable; rewrite drop_0; exact Hhas|].
  intros itr Hitr. unfold find_usable.
  split; [rewrite <- Hlen in *; now apply find_if_drop_bounds|]. split.
  - intros t Ht. rewrite <- lookup_drop in Ht. exact (find_if_lookup _ _ _ Ht).
  - intros i t Hi Ht.
    apply (find_if_before (TrackerList.is_usable env) (drop itr (TrackerList.trackers w))
             (i - itr) t); [lia|].
    rewrite lookup_drop. now replace (itr + (i - itr)) with i by lia.
Qed.

Lemma usable_queries_agree_witness :
  count_usable Samples.env0 Samples.world3 = 3%Z /\
  has_usable Samples.env0 Samples.world3 = true /\
  find_usable Samples.env0 0 Samples.world3 = 0.
Proof.
  destruct (usable_queries_agree Samples.env0 Samples.world3) as (Hc & _ & _ & _ & _).
  - vm_compute. reflexivity.
  - split; [exact Hc|]. split; reflexivity.
Defined.

(** X5: [has_active] and [count_active] agree on a list of fewer than
    2^32 entries: the count is the number of busy entries, at most the
    size, and [has_active] holds exactly when it is not 0. *)
Theorem active_queries_agree (w : World) :
  (Z.of_nat (size w) < modulus)%Z ->
  count_active w = Z.of_nat (count_if is_busy (TrackerList.trackers w)) /\
  (0 <= count_active w <= Z.of_nat (size w))%Z /\
  (has_active w = true <-> (0 < count_active w)%Z) /\
  (has_active w = true <->
   exists p, p ∈ tlist w /\ is_busy (TrackerList.deref w p) = true).
Proof.
  intros Hsize.
  assert (Hlen : length (TrackerList.trackers w) = size w) by apply length_fmap.
  pose proof (count_if_le is_busy (TrackerList.trackers w)) as Hle.
  assert (Hcount : count_active w = Z.of_nat (count_if is_busy (TrackerList.trackers w))).
  { unfold count_active. apply wrap32_small. unfold in_range. lia. }
  pose proof (count_if_find_if is_busy (TrackerList.trackers w)) as Hzero.
  pose proof (find_if_le is_busy (TrackerList.trackers w)) as Hfle.
  assert (Hhas : has_active w = true <-> find_if is_busy (TrackerList.trackers w) < size w).
  { unfold has_active. rewrite negb_true_iff, Nat.eqb_neq. fold (size w). lia. }
  split; [exact Hcount|]. split; [lia|]. split; [rewrite Hhas; lia|].
  rewrite Hhas. split.
  - intros Hlt. destruct (find_if_found is_busy (TrackerList.trackers w)) as (t & Ht & Hbusy);
      [lia|].
    unfold TrackerList.trackers in Ht. rewrite list_lookup_fmap in Ht.
    destruct (tlist w !! _) as [p|] eqn:Hp; [|discriminate].
    cbn in Ht. injection Ht as <-. exists p. split; [|exact Hbusy].
    apply list_elem_of_lookup. eauto.
  - intros (p & Hp & Hbusy). apply list_elem_of_lookup in Hp as [i Hi].
    pose proof (find_if_at_most is_busy (TrackerList.trackers w) i _
                  (trackers_lookup w i p Hi) Hbusy) as Hmost.
    apply lookup_lt_Some in Hi. unfold size. lia.
Qed.

Lemma active_queries_agree_witness :
  count_active Samples.world3 = 0%Z /\ has_active Samples.world3 = false.
Proof.
  destruct (active_queries_agree Samples.world3) as (Hc & _).
  - vm_compute. reflexivity.
  - split; [exact Hc|reflexivity].
Defined.

(** The scan for a better candidate returns the candidate or the position
    of a tracker of the rest that can be requested. *)
Lemma better_scan_result env (rest : list Tracker) : forall itr cur bc,
  TrackerList.better_scan env itr cur bc rest = itr \/
  exists t, bc <= TrackerList.better_scan env itr cur bc rest < bc + length rest /\
            rest !! (TrackerList.better_scan env itr cur bc rest - bc) = Some t /\
            Props.eligible env t = true.
Proof.
  induction rest as [|b rest IH]; intros itr cur bc; [now left|].
  cbn [TrackerList.better_scan length].
  change (TrackerList.is_usable env b && can_request_state b) with (Props.eligible env b).
  assert (Hlater : forall itr' cur',
    (TrackerList.better_scan env itr' cur' (S bc) rest = itr' \/
     exists t, S bc <= TrackerList.better_scan env itr' cur' (S bc) rest < S bc + length rest /\
               rest !! (TrackerList.better_scan env itr' cur' (S bc) rest - S bc) = Some t /\
               Props.eligible env t = true) ->
    (itr' = itr \/ (itr' = bc /\ Props.eligible env b = true)) ->
    TrackerList.better_scan env itr' cur' (S bc) rest = itr \/
    exists t, bc <= TrackerList.better_scan env itr' cur' (S bc) rest < bc + S (length rest) /\
              (b :: rest) !! (TrackerList.better_scan env itr' cur' (S bc) rest - bc) = Some t /\
              Props.eligible env t = true).
  { intros itr' cur' [Heq|(t & Hrange & Ht & Hel)] Hitr'.
    - rewrite Heq. destruct Hitr' as [->|[-> Hb]]; [now left|].
      right. exists b. rewrite Nat.sub_diag. split; [lia|]. now split.
    - right. exists t. split; [lia|]. split; [|exact Hel].
      replace (TrackerList.better_scan env itr' cur' (S bc) rest - bc)
        with (S (TrackerList.better_scan env itr' cur' (S bc) rest - S bc)) by lia.
      exact Ht. }
  destruct (Props.eligible env b) eqn:Hel; cbn [negb].
  - destruct (m_failed_counter b =? 0)%Z; cbn [negb].
    + destruct (_ <? _)%Z; [|now left].
      right. exists b. rewrite Nat.sub_diag. split; [lia|]. now split.
    + destruct (_ <? _)%Z; (apply Hlater; [apply IH|]); [right|left]; auto.
  - apply Hlater; [apply IH|now left].
Qed.

(** X6: [find_next_to_request] from a position of the list returns a
    position from there on, never before the first usable entry; the tracker
    it returns is usable and can be requested; and it returns [end()]
    exactly when no tracker from the position on is both, as when the list
    has no usable tracker at all. *)
Theorem find_next_to_request_result (env : Env) (itr : nat) (w : World) :
  itr <= size w ->
  find_usable env itr w <= TrackerList.find_next_to_request env itr w <= size w /\
  (forall t, TrackerList.trackers w !! TrackerList.find_next_to_request env itr w = Some t ->
     TrackerList.is_usable env t = true /\ can_request_state t = true) /\
  (TrackerList.find_next_to_request env itr w = size w <->
   forall i t, itr <= i -> TrackerList.trackers w !! i = Some t ->
     TrackerList.is_usable env t && can_request_state t = false) /\
  (has_usable env w = false -> TrackerList.find_next_to_request env itr w = size w).
Proof.
  intros Hitr.
  assert (Hlen : length (TrackerList.trackers w) = size w) by apply length_fmap.
  unfold TrackerList.find_next_to_request, TrackerList.find_next_in, find_usable.
  set (ts := TrackerList.trackers w) in *.
  change (fun t => TrackerList.is_usable env t && can_request_state t)
    with (Props.eligible env).
  set (itr1 := itr + find_if (Props.eligible env) (drop itr ts)).
  assert (Hb1 : itr <= itr1 <= length ts) by (apply find_if_drop_bounds; lia).
  assert (Hu : itr + find_if (TrackerList.is_usable env) (drop itr ts) <= itr1).
  { unfold itr1. apply Nat.add_le_mono_l, find_if_mono.
    intros x Hx. unfold Props.eligible in Hx. now apply andb_true_iff in Hx as [? _]. }
  assert (Hnone : itr1 = length ts <->
                  forall i t, itr <= i -> ts !! i = Some t -> Props.eligible env t = false).
  { split.
    - intros Heq i t Hi Ht.
      apply (find_if_before (Props.eligible env) (drop itr ts) (i - itr) t).
      + apply lookup_lt_Some in Ht. unfold itr1 in Heq. lia.
      + rewrite lookup_drop. now replace (itr + (i - itr)) with i by lia.
    - intros Hall. unfold itr1. rewrite find_if_none; [rewrite length_drop; lia|].
      intros x Hx. apply list_elem_of_lookup in Hx as [i Hi]. rewrite lookup_drop in Hi.
      apply (Hall (itr + i) x); [lia|exact Hi]. }
  assert (Hres : forall r,
    r = match ts !! itr1 with
        | Some cur =>
            if negb (m_failed_counter cur =? 0)%Z
            then TrackerList.better_scan env itr1 cur (S itr1) (drop (S itr1) ts)
            else itr1
        | None => itr1
        end ->
    itr1 <= r <= length ts /\
    (forall t, ts !! r = Some t -> Props.eligible env t = true) /\
    (r = length ts <-> itr1 = length ts)).
  { intros r ->. destruct (ts !! itr1) as [cur|] eqn:Hcur.
    - pose proof (lookup_lt_Some _ _ _ Hcur) as Hlt.
      assert (Hel : Props.eligible env cur = true).
      { unfold itr1 in Hcur. rewrite <- lookup_drop in Hcur.
        exact (find_if_lookup _ _ _ Hcur). }
      assert (Hhere : itr1 <= itr1 <= length ts /\
                      (forall t, ts !! itr1 = Some t -> Props.eligible env t = true) /\
                      (itr1 = length ts <-> itr1 = length ts)).
      { split; [lia|]. split; [|tauto]. intros t Ht. congruence. }
      destruct (negb _); [|exact Hhere].
      destruct (better_scan_result env (drop (S itr1) ts) itr1 cur (S itr1))
        as [->|(t & Hrange & Ht & Helt)]; [exact Hhere|].
      rewrite length_drop in Hrange. split; [lia|]. split; [|lia].
      intros t' Ht'. rewrite lookup_drop in Ht.
      replace (S itr1 + (_ - S itr1)) with
        (TrackerList.better_scan env itr1 cur (S itr1) (drop (S itr1) ts)) in Ht by lia.
      congruence.
    - split; [lia|]. split; [|tauto]. intros t Ht. congruence. }
  destruct (Hres _ eq_refl) as (Hrange & Helig & Hend).
  rewrite <- Hlen. split; [lia|]. split.
  - intros t Ht. apply Helig in Ht. unfold Props.eligible in Ht.
    now apply andb_true_iff in Ht.
  - split; [rewrite Hend; exact Hnone|].
    intros Hno. apply Hend, Hnone. intros i t Hi Ht.
    unfold has_usable in Hno. rewrite has_usable_loop_find in Hno.
    apply negb_false_iff, Nat.eqb_eq in Hno. fold ts in Hno.
    unfold Props.eligible.
    rewrite (find_if_before (TrackerList.is_usable env) ts i t); [reflexivity| |exact Ht].
    apply lookup_lt_Some in Ht. lia.
Qed.

Lemma find_next_to_request_result_witness :
  find_usable Samples.env0 1 Samples.world3
    <= TrackerList.find_next_to_request Samples.env0 1 Samples.world3 <= 3.
Proof.
  apply (find_next_to_request_result Samples.env0 1 Samples.world3).
  vm_compute. lia.
Defined.

End Queries_facts.

(** ** Switching a tracker on and off *)

Section Enabled_status.

Import TrackerVirtual Dispatch Status.

(** X7: [set_enabled_status] with the status the tracker has does
    nothing.  With another status, and a [close] that leaves the status and
    the type of the tracker alone, it stores the status, calls [close] once
    exactly when the new status is [off] or the tracker was switched on and
    no longer is, and calls the slot for enabled or for disabled trackers, if
    set, exactly when the tracker goes from switched off to switched on or
    back; a tracker counts as switched on when its status is [on], or
    [undefined] with the protocol of its type enabled. *)
Theorem set_enabled_status_effects (env : Env) (sl : Slots) (vt : Virtuals) (this : ptr)
        (s : enabled_status_t) (w : World) :
  (forall h, m_enabled_status (close vt this h !!! this) = m_enabled_status (h !!! this) /\
             m_type (close vt this h !!! this) = m_type (h !!! this)) ->
  let t := TrackerList.deref w this in
  let protocol_is_on := TrackerList.is_protocol_enabled env (m_type t) in
  let was_on := switched_on protocol_is_on (m_enabled_status t) in
  let is_on := switched_on protocol_is_on s in
  let closes := enabled_status_eqb s off || (was_on && negb is_on) in
  (s = m_enabled_status t -> set_enabled_status env sl vt this s w = (w, [])) /\
  (s <> m_enabled_status t ->
   set_enabled_status env sl vt this s w
   = (with_heap ((if closes then close vt this else id)
                   (<[this := with_enabled_status s t]> (heap w))) w,
      (if closes then [call_close this] else []) ++
      (if Bool.eqb is_on was_on then []
       else if is_on
            then (if m_slot_tracker_enabled env then [slot_tracker_enabled this] else [])
            else (if m_slot_tracker_disabled sl then [slot_tracker_disabled this] else [])))).
Proof.
  intros Hclose t protocol_is_on was_on is_on closes.
  unfold set_enabled_status. fold t. split.
  - intros ->. now destruct (m_enabled_status t).
  - intros Hne.
    set (h1 := <[this := with_enabled_status s t]> (heap w)).
    assert (Hh1 : h1 !!! this = with_enabled_status s t)
      by apply lookup_total_insert_eq.
    destruct (Hclose h1) as [Hst Hty]. rewrite Hh1 in Hst, Hty.
    unfold receive_tracker_enabled_change.
    rewrite Hh1. cbn [with_enabled_status m_enabled_status].
    destruct s; cbn [enabled_status_eqb].
    + (* on *)
      rewrite Hh1. cbn [with_enabled_status m_enabled_status m_type enabled_status_eqb].
      fold protocol_is_on. subst closes was_on is_on.
      destruct (m_enabled_status t); [congruence| |]; cbn;
        destruct protocol_is_on; cbn; rewrite ?app_nil_r; reflexivity.
    + (* off *)
      rewrite Hst, Hty. cbn [with_enabled_status m_enabled_status m_type enabled_status_eqb].
      fold protocol_is_on. subst closes was_on is_on.
      destruct (m_enabled_status t); [|congruence|]; cbn;
        destruct protocol_is_on; cbn; rewrite ?app_nil_r; reflexivity.
    + (* undefined *)
      rewrite Hh1. cbn [with_enabled_status m_enabled_status m_type enabled_status_eqb].
      fold protocol_is_on. subst closes was_on is_on.
      destruct (m_enabled_status t); [| |congruence]; cbn;
        destruct protocol_is_on; cbn; rewrite ?app_nil_r; reflexivity.
Qed.

Lemma set_enabled_status_effects_witness :
  set_enabled_status Samples.env0 Samples2.no_slots Samples2.idle_virtuals 2%nat off
    Samples.world3
  = (with_heap (<[2%nat := with_enabled_status off Samples.idle]> (heap Samples.world3))
       Samples.world3,
     [call_close 2%nat]).
Proof.
  apply (proj2 (set_enabled_status_effects Samples.env0 Samples2.no_slots
                  Samples2.idle_virtuals 2%nat off Samples.world3
                  (fun h => conj eq_refl eq_refl))).
  vm_compute. discriminate.
Defined.

End Enabled_status.

(** ** Dispatching, closing and disowning *)

Section Dispatching.

Import TrackerVirtual Dispatch.

Lemma event_code_inj a b : event_code a = event_code b -> a = b.
Proof. destruct a, b; cbn; intros H; try reflexivity; discriminate. Qed.

Lemma inc_request_counter_raises now t e s :
  TrackerOps.inc_request_counter now t = Throw e s -> is_internal_error e = true.
Proof.
  unfold TrackerOps.inc_request_counter. destruct (10 <=? _); [|discriminate].
  intros [= <- _]. reflexivity.
Qed.

(** X8: [send_state] does nothing at all for a tracker that is not
    usable, for the event [SCRAPE], and for a tracker that is busy with
    anything but a scrape.  Otherwise it closes the tracker if it is busy
    with a scrape, dispatches the event once and then counts the request:
    the exception of the request counter leaves the function after the
    event has been dispatched, exactly when the counter has reached 10.  The
    list and the slots are not touched. *)
Theorem send_state_guards (env : Env) (vt : Virtuals) (tracker : ptr) (new_event : Z)
        (w : World) :
  let t := TrackerList.deref w tracker in
  let r := Dispatch.send_state env vt tracker new_event w in
  let h1 := TrackerVirtual.send_state vt tracker new_event
              ((if is_busy t then close vt tracker else id) (heap w)) in
  (TrackerList.is_usable env t = false \/ new_event = event_code EVENT_SCRAPE \/
   (is_busy t = true /\ m_latest_event t <> EVENT_SCRAPE) ->
   r = MkRun w [] None) /\
  (TrackerList.is_usable env t = true -> new_event <> event_code EVENT_SCRAPE ->
   (is_busy t = true -> m_latest_event t = EVENT_SCRAPE) ->
   effects r = (if is_busy t then [call_close tracker] else [])
               ++ [call_send_state tracker new_event] /\
   tlist (final r) = tlist w /\ calls (final r) = calls w /\
   heap (final r)
   = <[tracker := state_of (TrackerOps.inc_request_counter (cachedTime env) (h1 !!! tracker))]>
       h1 /\
   (raised r <> None <-> 10 <= m_request_counter (TrackerList.deref (final r) tracker)) /\
   (forall e, raised r = Some e -> is_internal_error e = true)).
Proof.
  intros t r h1. subst r. unfold Dispatch.send_state. fold t. split.
  - intros [Hu|[He|[Hb Hl]]].
    + now rewrite Hu.
    + rewrite He, Z.eqb_refl, orb_true_r. reflexivity.
    + destruct (negb (TrackerList.is_usable env t) || _); [reflexivity|].
      rewrite Hb.
      destruct (Z.eqb_spec (event_code (m_latest_event t)) (event_code EVENT_SCRAPE))
        as [Heq|Hne]; [|reflexivity].
      now apply event_code_inj in Heq.
  - intros Hu He Hb. rewrite Hu. cbn [negb orb].
    destruct (Z.eqb_spec new_event (event_code EVENT_SCRAPE)) as [|_]; [contradiction|].
    assert (Hdispatch : forall h before,
      let h' := TrackerVirtual.send_state vt tracker new_event h in
      let r := match TrackerOps.inc_request_counter (cachedTime env) (h' !!! tracker) with
               | Ret _ t2 =>
                   MkRun (with_heap (<[tracker := t2]> h') w)
                         (before ++ [call_send_state tracker new_event]) None
               | Throw e t2 =>
                   MkRun (with_heap (<[tracker := t2]> h') w)
                         (before ++ [call_send_state tracker new_event]) (Some e)
               end in
      effects r = before ++ [call_send_state tracker new_event] /\
      tlist (final r) = tlist w /\ calls (final r) = calls w /\
      heap (final r)
      = <[tracker := state_of (TrackerOps.inc_request_counter (cachedTime env)
                                 (h' !!! tracker))]> h' /\
      (raised r <> None <-> 10 <= m_request_counter (TrackerList.deref (final r) tracker)) /\
      (forall e, raised r = Some e -> is_internal_error e = true)).
    { intros h before h'. cbv zeta.
      pose proof (inc_request_counter_threw (cachedTime env) (h' !!! tracker)) as Hthrew.
      pose proof (inc_request_counter_raises (cachedTime env) (h' !!! tracker)) as Hexc.
      destruct (TrackerOps.inc_request_counter (cachedTime env) (h' !!! tracker))
        as [[] t2|e t2];
        cbn [effects final raised with_heap heap tlist calls state_of];
        cbn [threw state_of] in Hthrew;
        (split; [reflexivity|]); (split; [reflexivity|]); (split; [reflexivity|]);
        (split; [reflexivity|]);
        unfold TrackerList.deref; cbn [heap with_heap]; rewrite lookup_total_insert_eq.
      - split; [|discriminate].
        split; [congruence|]. intros Hge. apply Hthrew in Hge. discriminate.
      - split; [split; [intros _; now apply Hthrew|discriminate]|].
        intros e' [= <-]. now apply (Hexc e t2). }
    destruct (is_busy t) eqn:Hbusy.
    + rewrite (Hb eq_refl), Z.eqb_refl. cbn [negb]. apply Hdispatch.
    + apply (Hdispatch (heap w) []).
Qed.

Lemma send_state_guards_witness :
  Dispatch.send_state Samples.env0 Samples2.idle_virtuals 1%nat (event_code EVENT_SCRAPE)
    Samples.world3 = MkRun Samples.world3 [] None /\
  effects (Dispatch.send_state Samples.env0 Samples2.idle_virtuals 1%nat
             (event_code EVENT_STARTED) Samples.world3)
  = [call_send_state 1%nat (event_code EVENT_STARTED)].
Proof.
  split.
  - apply (proj1 (send_state_guards Samples.env0 Samples2.idle_virtuals 1%nat
                    (event_code EVENT_SCRAPE) Samples.world3)).
    right. left. reflexivity.
  - apply (proj2 (send_state_guards Samples.env0 Samples2.idle_virtuals 1%nat
                    (event_code EVENT_STARTED) Samples.world3)).
    + reflexivity.
    + vm_compute. discriminate.
    + vm_compute. discriminate.
Defined.

(** Whether the bit of an event is set in a bitmap. *)
Lemma in_bitmap_testbit event_bitmap t :
  in_bitmap event_bitmap t = Z.testbit event_bitmap (event_code (m_latest_event t)).
Proof.
  unfold in_bitmap.
  assert (Hcode : 0 <= event_code (m_latest_event t))
    by (destruct (m_latest_event t); cbn; lia).
  set (n := event_code (m_latest_event t)) in *.
  destruct (Z.testbit event_bitmap n) eqn:Hbit.
  - apply negb_true_iff, Z.eqb_neq. intros Hzero.
    assert (Hn : Z.testbit (Z.land event_bitmap (Z.shiftl 1 n)) n = true).
    { rewrite Z.land_spec, Hbit, Z.shiftl_spec, Z.sub_diag by lia. reflexivity. }
    rewrite Hzero, Z.bits_0 in Hn. discriminate.
  - apply negb_false_iff, Z.eqb_eq, Z.bits_inj'. intros k Hk.
    rewrite Z.land_spec, Z.bits_0, Z.shiftl_spec by lia.
    destruct (Z.eq_dec k n) as [->|Hne]; [now rewrite Hbit|].
    replace (Z.testbit 1 (k - n)) with false; [apply andb_false_r|].
    symmetry. destruct (Z_lt_le_dec (k - n) 0) as [Hneg|Hpos].
    + now apply Z.testbit_neg_r.
    + apply (Z.bits_above_log2 1 (k - n)); cbn; lia.
Qed.

Lemma close_loop_spec vt event_bitmap (l : list ptr) : forall h,
  (forall p h q, m_latest_event (close vt p h !!! q) = m_latest_event (h !!! q)) ->
  (close_loop vt event_bitmap l h).2
  = call_close <$> filter (fun p => in_bitmap event_bitmap (h !!! p) = false) l /\
  forall q, m_latest_event ((close_loop vt event_bitmap l h).1 !!! q)
            = m_latest_event (h !!! q).
Proof.
  induction l as [|p l IH]; intros h Hkeep; [now split|].
  cbn [close_loop]. rewrite filter_cons.
  destruct (in_bitmap event_bitmap (h !!! p)) eqn:Hbit.
  - rewrite decide_False by discriminate. now apply IH.
  - rewrite decide_True by reflexivity.
    destruct (IH (close vt p h) Hkeep) as [Hes Hev].
    destruct (close_loop vt event_bitmap l (close vt p h)) as [h' es].
    cbn [fst snd] in *. split.
    + rewrite fmap_cons, Hes. f_equal. f_equal. apply list_filter_iff.
      intros q. unfold in_bitmap. now rewrite Hkeep.
    + intros q. now rewrite Hev, Hkeep.
Qed.

Lemma disown_loop_spec vt event_bitmap (l : list ptr) : forall h,
  (forall p h q, m_latest_event (disown vt p h !!! q) = m_latest_event (h !!! q)) ->
  (disown_loop vt event_bitmap l h).2
  = call_disown <$> filter (fun p => in_bitmap event_bitmap (h !!! p) = true) l /\
  forall q, m_latest_event ((disown_loop vt event_bitmap l h).1 !!! q)
            = m_latest_event (h !!! q).
Proof.
  induction l as [|p l IH]; intros h Hkeep; [now split|].
  cbn [disown_loop]. rewrite filter_cons.
  destruct (in_bitmap event_bitmap (h !!! p)) eqn:Hbit.
  - rewrite decide_True by reflexivity.
    destruct (IH (disown vt p h) Hkeep) as [Hes Hev].
    destruct (disown_loop vt event_bitmap l (disown vt p h)) as [h' es].
    cbn [fst snd] in *. split.
    + rewrite fmap_cons, Hes. f_equal. f_equal. apply list_filter_iff.
      intros q. unfold in_bitmap. now rewrite Hkeep.
    + intros q. now rewrite Hev, Hkeep.
  - rewrite decide_False by discriminate. now apply IH.
Qed.

(** X9: with [close] and [disown] that leave the latest events alone,
    [close_all_excluding] closes, in list order, exactly the entries whose
    latest event has its bit clear in the bitmap, and
    [disown_all_including] disowns exactly those whose bit is set; so for
    one bitmap every entry is either closed by the one or disowned by the
    other, never both.  The bit of an event is set in the bitmap [1 <<
    event] of another event only if the two are the same, and in the union
    of two bitmaps if it is set in one of them. *)
Theorem close_and_disown_split (vt : Virtuals) (event_bitmap : Z) (w : World) :
  (forall p h q, m_latest_event (close vt p h !!! q) = m_latest_event (h !!! q)) ->
  (forall p h q, m_latest_event (disown vt p h !!! q) = m_latest_event (h !!! q)) ->
  (close_all_excluding vt event_bitmap w).2
  = call_close <$> filter (fun p => Z.testbit event_bitmap
        (event_code (m_latest_event (TrackerList.deref w p))) = false) (tlist w) /\
  (disown_all_including vt event_bitmap w).2
  = call_disown <$> filter (fun p => Z.testbit event_bitmap
        (event_code (m_latest_event (TrackerList.deref w p))) = true) (tlist w) /\
  tlist (close_all_excluding vt event_bitmap w).1 = tlist w /\
  tlist (disown_all_including vt event_bitmap w).1 = tlist w /\
  (forall p, p ∈ tlist w ->
     (call_close p ∈ (close_all_excluding vt event_bitmap w).2 <->
      call_disown p ∉ (disown_all_including vt event_bitmap w).2)) /\
  (forall e t, in_bitmap (Z.shiftl 1 (event_code e)) t = true <-> m_latest_event t = e) /\
  (forall a b t, in_bitmap (Z.lor a b) t = in_bitmap a t || in_bitmap b t).
Proof.
  intros Hclose Hdisown.
  destruct (close_loop_spec vt event_bitmap (tlist w) (heap w) Hclose) as [Hc _].
  destruct (disown_loop_spec vt event_bitmap (tlist w) (heap w) Hdisown) as [Hd _].
  unfold close_all_excluding, disown_all_including.
  destruct (close_loop vt event_bitmap (tlist w) (heap w)) as [hc ec].
  destruct (disown_loop vt event_bitmap (tlist w) (heap w)) as [hd ed].
  cbn [fst snd with_heap tlist] in *.
  assert (Hc' : ec = call_close <$> filter (fun p => Z.testbit event_bitmap
        (event_code (m_latest_event (TrackerList.deref w p))) = false) (tlist w)).
  { rewrite Hc. f_equal. apply list_filter_iff. intros p.
    now rewrite in_bitmap_testbit. }
  assert (Hd' : ed = call_disown <$> filter (fun p => Z.testbit event_bitmap
        (event_code (m_latest_event (TrackerList.deref w p))) = true) (tlist w)).
  { rewrite Hd. f_equal. apply list_filter_iff. intros p.
    now rewrite in_bitmap_testbit. }
  split; [exact Hc'|]. split; [exact Hd'|]. split; [reflexivity|]. split; [reflexivity|].
  split.
  - intros p Hp. rewrite Hc', Hd', !list_elem_of_fmap. split.
    + intros (q & [= <-] & Hq) (q' & [= <-] & Hq').
      apply list_elem_of_filter in Hq as [Hq _], Hq' as [Hq' _]. congruence.
    + intros Hnot. exists p. split; [reflexivity|]. apply list_elem_of_filter.
      split; [|exact Hp].
      destruct (Z.testbit _ _) eqn:Hbit; [|reflexivity].
      exfalso. apply Hnot. exists p. split; [reflexivity|].
      apply list_elem_of_filter. now split.
  - split.
    + intros e t. rewrite in_bitmap_testbit.
      assert (He : forall x, 0 <= event_code x) by (intros x; destruct x; cbn; lia).
      rewrite Z.shiftl_spec by apply He. split.
      * intros Hbit. apply event_code_inj.
        destruct (Z.eq_dec (event_code (m_latest_event t)) (event_code e)) as [|Hne];
          [assumption|].
        destruct (Z_lt_le_dec (event_code (m_latest_event t) - event_code e) 0) as [Hn|Hp].
        -- rewrite Z.testbit_neg_r in Hbit by assumption. discriminate.
        -- rewrite (Z.bits_above_log2 1) in Hbit by (cbn; lia). discriminate.
      * intros ->. now rewrite Z.sub_diag.
    + intros a b t. rewrite !in_bitmap_testbit. apply Z.lor_spec.
Qed.

Lemma close_and_disown_split_witness :
  (close_all_excluding Samples2.idle_virtuals (Z.shiftl 1 (event_code EVENT_STOPPED))
     Samples.world3).2 = [call_close 1%nat; call_close 2%nat; call_close 3%nat] /\
  (disown_all_including Samples2.idle_virtuals (Z.shiftl 1 (event_code EVENT_STOPPED))
     Samples.world3).2 = [].
Proof.
  destruct (close_and_disown_split Samples2.idle_virtuals
              (Z.shiftl 1 (event_code EVENT_STOPPED)) Samples.world3
              (fun _ _ _ => eq_refl) (fun _ _ _ => eq_refl)) as (Hc & Hd & _).
  split; [rewrite Hc|rewrite Hd]; reflexivity.
Defined.

End Dispatching.

(** ** Statistics and scrape results *)

Section Statistics.

Import Algo Dispatch.
Local Open Scope nat_scope.

Lemma find_if_ext2 {A} (p q : A -> bool) (l' l : list A) :
  Forall2 (fun x' x => p x' = q x) l' l -> find_if p l' = find_if q l.
Proof. induction 1 as [|x' x l' l Hx _ IH]; cbn; [reflexivity|]. now rewrite Hx, IH. Qed.

Lemma better_scan_ext env (rest' rest : list Tracker) :
  Forall2 (Props2.same_schedule env) rest' rest ->
  forall itr cur' cur bc,
    TrackerOps.failed_time_next cur' = TrackerOps.failed_time_next cur ->
    TrackerList.better_scan env itr cur' bc rest'
    = TrackerList.better_scan env itr cur bc rest.
Proof.
  induction 1 as [|b' b rest' rest (Hu & Hc & Hf & Hfn & Hsn) _ IH];
    intros itr cur' cur bc Hcur; [reflexivity|].
  cbn [TrackerList.better_scan]. rewrite Hu, Hc, Hf, Hfn, Hsn, Hcur.
  destruct (negb _); [now apply IH|].
  destruct (negb _); [|reflexivity].
  destruct (_ <? _)%Z; now apply IH.
Qed.

(** [find_next_to_request] reads of the trackers only what
    [same_schedule] compares. *)
Lemma find_next_in_ext env (ts' ts : list Tracker) itr :
  Forall2 (Props2.same_schedule env) ts' ts ->
  TrackerList.find_next_in env ts' itr = TrackerList.find_next_in env ts itr.
Proof.
  intros Hall. unfold TrackerList.find_next_in.
  rewrite (find_if_ext2 (fun t => TrackerList.is_usable env t && can_request_state t)
             (fun t => TrackerList.is_usable env t && can_request_state t)
             (drop itr ts') (drop itr ts)).
  2:{ apply Forall2_drop. eapply Forall2_impl; [exact Hall|].
      intros x y (Hu & Hc & _). cbn. now rewrite Hu, Hc. }
  set (itr1 := itr + _).
  destruct (ts !! itr1) as [cur|] eqn:Hcur.
  - destruct (Forall2_lookup_r _ _ _ _ _ Hall Hcur) as (cur' & -> & (_ & _ & Hf & Hfn & _)).
    rewrite Hf. destruct (negb _); [|reflexivity].
    apply better_scan_ext; [now apply Forall2_drop|exact Hfn].
  - assert (ts' !! itr1 = None) as ->; [|reflexivity].
    apply lookup_ge_None. apply lookup_ge_None in Hcur.
    now rewrite (Forall2_length _ _ _ Hall).
Qed.

Lemma clear_stats_idem t :
  TrackerOps.clear_stats (TrackerOps.clear_stats t) = TrackerOps.clear_stats t.
Proof. reflexivity. Qed.

Lemma clear_stats_fold (l : list ptr) : forall (h : gmap ptr Tracker) p,
  foldl (fun h p => <[p := TrackerOps.clear_stats (h !!! p)]> h) h l !! p
  = if decide (p ∈ l) then Some (TrackerOps.clear_stats (h !!! p)) else h !! p.
Proof.
  induction l as [|a l IH]; intros h p.
  - cbn. rewrite decide_False; [reflexivity|apply not_elem_of_nil].
  - cbn [foldl]. rewrite IH.
    destruct (decide (p = a)) as [->|Hne].
    + rewrite lookup_total_insert_eq, lookup_insert_eq, clear_stats_idem.
      rewrite (decide_True (P := a ∈ a :: l)) by apply list_elem_of_here.
      now destruct (decide (a ∈ l)).
    + rewrite lookup_total_insert_ne, lookup_insert_ne by congruence.
      destruct (decide (p ∈ l)) as [Hin|Hnin].
      * rewrite decide_True; [reflexivity|now apply list_elem_of_further].
      * rewrite decide_False; [reflexivity|].
        intros Hin. apply elem_of_cons in Hin as [?|?]; contradiction.
Qed.

(** X10: [TrackerList::clear_stats] clears the statistics of every
    tracker of the list, each as [Tracker::clear_stats] does, and touches no
    other object, nor the order of the list; afterwards no tracker counts as
    failed, so [find_next_to_request] returns the first tracker from the
    position on that is usable and can be requested. *)
Theorem clear_stats_all (env : Env) (w : World) :
  tlist (Dispatch.clear_stats w) = tlist w /\
  calls (Dispatch.clear_stats w) = calls w /\
  (forall p, p ∈ tlist w ->
     heap (Dispatch.clear_stats w) !! p
     = Some (TrackerOps.clear_stats (TrackerList.deref w p))) /\
  (forall p, p ∉ tlist w -> heap (Dispatch.clear_stats w) !! p = heap w !! p) /\
  (forall t, t ∈ TrackerList.trackers (Dispatch.clear_stats w) ->
     m_failed_counter t = 0%Z /\ m_success_counter t = 0%Z /\ m_scrape_counter t = 0%Z /\
     m_latest_new_peers t = 0%Z /\ m_latest_sum_peers t = 0%Z) /\
  (forall itr,
     TrackerList.find_next_to_request env itr (Dispatch.clear_stats w)
     = itr + find_if (fun t => TrackerList.is_usable env t && can_request_state t)
               (drop itr (TrackerList.trackers w))).
Proof.
  assert (Hin : forall p, p ∈ tlist w ->
            heap (Dispatch.clear_stats w) !! p
            = Some (TrackerOps.clear_stats (TrackerList.deref w p))).
  { intros p Hp. unfold Dispatch.clear_stats. cbn [with_heap heap].
    rewrite clear_stats_fold. now rewrite decide_True. }
  assert (Hts : TrackerList.trackers (Dispatch.clear_stats w)
                = TrackerOps.clear_stats <$> TrackerList.trackers w).
  { unfold TrackerList.trackers. change (tlist (Dispatch.clear_stats w)) with (tlist w).
    rewrite <- list_fmap_compose. apply list_fmap_ext. intros i p Hp. cbn.
    apply deref_Some, Hin. apply list_elem_of_lookup. eauto. }
  split; [reflexivity|]. split; [reflexivity|]. split; [exact Hin|]. split.
  { intros p Hp. unfold Dispatch.clear_stats. cbn [with_heap heap].
    rewrite clear_stats_fold. now rewrite decide_False. }
  split.
  { intros t Ht. rewrite Hts in Ht. apply list_elem_of_fmap in Ht as (t0 & -> & _).
    repeat split. }
  intros itr. unfold TrackerList.find_next_to_request, TrackerList.find_next_in.
  rewrite Hts, <- fmap_drop, find_if_fmap.
  set (itr1 := itr + _).
  rewrite list_lookup_fmap. destruct (TrackerList.trackers w !! itr1); reflexivity.
Qed.

(** X11: a scrape result for a tracker that is not of the list, or is
    busy, raises [internal_error] and changes nothing.  Otherwise
    [receive_scrape_success] stamps the time and counts the scrape, and
    [receive_scrape_failed] changes no object; each calls its slot if it is
    set; neither moves an entry nor changes what [find_next_to_request]
    returns. *)
Theorem scrape_results_keep_schedule (env : Env) (sl : Slots) (tb : ptr) (msg : string)
        (w : World) :
  let ok := receive_scrape_success env sl tb w in
  let ko := receive_scrape_failed sl tb msg w in
  (tb ∉ tlist w \/ is_busy (TrackerList.deref w tb) = true ->
   ok = MkRun w [] (Some (internal_error
          "TrackerList::receive_success(...) called but the iterator is invalid.")) /\
   ko = MkRun w [] (Some (internal_error
          "TrackerList::receive_failed(...) called but the iterator is invalid."))) /\
  (tb ∈ tlist w -> is_busy (TrackerList.deref w tb) = false ->
   ko = MkRun w (if m_slot_scrape_failed sl then [slot_scrape_failed tb msg] else []) None /\
   raised ok = None /\
   effects ok = (if m_slot_scrape_success sl then [slot_scrape_success tb] else []) /\
   tlist (final ok) = tlist w /\ calls (final ok) = calls w /\
   heap (final ok)
   = <[tb := assign M_scrape_counter (U32.incr (m_scrape_counter (TrackerList.deref w tb)))
               (assign M_scrape_time_last (wrap32 (cachedTime env))
                  (TrackerList.deref w tb))]> (heap w) /\
   forall itr, TrackerList.find_next_to_request env itr (final ok)
               = TrackerList.find_next_to_request env itr w).
Proof.
  intros ok ko. subst ok ko. unfold receive_scrape_success, receive_scrape_failed. split.
  - intros [Hnot|Hbusy].
    + rewrite (find_not_elem tb w Hnot). now rewrite !decide_True.
    + rewrite Hbusy. now destruct (decide _).
  - intros Hin Hbusy. destruct (find_elem tb w Hin) as (Hlt & _).
    rewrite !decide_False by lia. rewrite Hbusy.
    cbn [final effects raised with_heap heap tlist calls].
    split; [reflexivity|]. split; [reflexivity|]. split; [reflexivity|].
    split; [reflexivity|]. split; [reflexivity|]. split; [reflexivity|].
    intros itr. unfold TrackerList.find_next_to_request. apply find_next_in_ext.
    unfold TrackerList.trackers. cbn [tlist]. apply Forall2_fmap, Forall_Forall2_diag.
    apply Forall_forall. intros p _. unfold TrackerList.deref. cbn [heap with_heap].
    destruct (decide (tb = p)) as [->|Hne].
    + rewrite lookup_total_insert_eq. repeat split.
    + rewrite lookup_total_insert_ne by exact Hne. repeat split.
Qed.

Lemma scrape_results_keep_schedule_witness :
  raised (receive_scrape_success Samples.env0 Samples2.no_slots 2 Samples.world3) = None /\
  m_scrape_counter
    (TrackerList.deref
       (final (receive_scrape_success Samples.env0 Samples2.no_slots 2 Samples.world3)) 2)
  = 1%Z /\
  raised (receive_scrape_failed Samples2.no_slots 7 "timed out" Samples.world3)
  = Some (internal_error
            "TrackerList::receive_failed(...) called but the iterator is invalid.").
Proof.
  pose proof (scrape_results_keep_schedule Samples.env0 Samples2.no_slots 2 "timed out"
                Samples.world3) as [_ Hok].
  destruct Hok as (_ & Hraised & _ & _ & _ & Hheap & _).
  { apply list_elem_of_lookup. exists 1. reflexivity. }
  { reflexivity. }
  split; [exact Hraised|]. split.
  { unfold TrackerList.deref. rewrite Hheap. reflexivity. }
  pose proof (scrape_results_keep_schedule Samples.env0 Samples2.no_slots 7 "timed out"
                Samples.world3) as [Hko _].
  destruct Hko as [_ ->]; [|reflexivity].
  left. intros Hin. repeat (apply elem_of_cons in Hin as [Hin|Hin]; [discriminate|]).
  now apply not_elem_of_nil in Hin.
Defined.

End Statistics.

(** ** Inserting by URL and finding by URL *)

Section Urls.

Import Algo Queries.
Local Open Scope nat_scope.

Lemma vector_insert_length {A} pos (x : A) l : length (vector_insert pos x l) = S (length l).
Proof.
  unfold vector_insert. rewrite length_app, length_take. cbn [length].
  rewrite length_drop. lia.
Qed.

Lemma vector_insert_elem {A} pos (x : A) l : x ∈ vector_insert pos x l.
Proof. unfold vector_insert. apply elem_of_app. right. apply list_elem_of_here. Qed.

(** X12: [insert_url] constructs a tracker for a URL that begins with
    [http://], [https://] or [udp://], or with [dht://] when the DHT tracker
    is allowed: a new object with that URL, of the class of the scheme, in
    the group asked for and with the flag of extra trackers if asked for;
    the list grows by one entry, the objects there were stay as they are,
    and [find_url] then finds an entry with this URL.  Any other URL is
    passed over in silence, unless the tracker is an extra one, when
    [input_error] is raised; the list stays as it is. *)
Theorem insert_url_find_url (env : Env) (g : Z) (url : string) (extra : bool) (w : World) :
  (forall ty, Props2.scheme_of env url = Some ty ->
     exists w' p,
       TrackerList.insert_url env g url extra w = Done tt w' /\
       heap w !! p = None /\ p ∈ tlist w' /\
       heap w' !! p
       = Some (assign M_group g
                 (TrackerOps.new_Tracker (cachedTime env) ty (new_is_busy env ty url)
                    (new_is_usable env ty url) (new_can_request_state env ty url) url
                    (if extra then Z.lor 0 (flag_extra_tracker env) else 0%Z))) /\
       (forall q, q <> p -> heap w' !! q = heap w !! q) /\
       size w' = S (size w) /\
       calls w' = calls w ++ (if m_slot_tracker_enabled env then [SlotTrackerEnabled p] else []) /\
       find_url url w' < size w' /\
       (forall t, TrackerList.trackers w' !! find_url url w' = Some t -> m_url t = url)) /\
  (Props2.scheme_of env url = None ->
   TrackerList.insert_url env g url extra w
   = if extra
     then Raised (input_error ("could find matching tracker protocol (url:" ++ url ++ ")")) w
     else Done tt w).
Proof.
  unfold Props2.scheme_of, TrackerList.insert_url.
  set (flags := if extra then Z.lor 0 (flag_extra_tracker env) else 0%Z).
  assert (Hbuild : forall ty,
    exists w' p,
      (let '(tracker, w1) := TrackerList.new_tracker env ty url flags w in
       match TrackerList.insert env g tracker w1 with
       | Done _ w2 => Done tt w2
       | Raised e w2 => Raised e w2
       | Undefined => Undefined
       end) = Done tt w' /\
      heap w !! p = None /\ p ∈ tlist w' /\
      heap w' !! p
      = Some (assign M_group g
                (TrackerOps.new_Tracker (cachedTime env) ty (new_is_busy env ty url)
                   (new_is_usable env ty url) (new_can_request_state env ty url) url flags)) /\
      (forall q, q <> p -> heap w' !! q = heap w !! q) /\
      size w' = S (size w) /\
      calls w' = calls w ++ (if m_slot_tracker_enabled env then [SlotTrackerEnabled p] else []) /\
      find_url url w' < size w' /\
      (forall t, TrackerList.trackers w' !! find_url url w' = Some t -> m_url t = url)).
  { intros ty. unfold TrackerList.new_tracker, TrackerList.insert. cbn [heap tlist calls].
    set (p := fresh (dom (heap w))).
    set (t := TrackerOps.new_Tracker _ _ _ _ _ _ _).
    rewrite lookup_insert_eq.
    set (h' := <[p := assign M_group g t]> (<[p := t]> (heap w))).
    set (itr := TrackerList.end_group g _).
    set (w' := if m_slot_tracker_enabled env
               then {| heap := h'; tlist := vector_insert itr p (tlist w);
                       calls := calls w ++ [SlotTrackerEnabled p] |}
               else {| heap := h'; tlist := vector_insert itr p (tlist w);
                       calls := calls w |}).
    assert (Hheap : heap w' = h') by (unfold w'; now destruct (m_slot_tracker_enabled env)).
    assert (Hlist : tlist w' = vector_insert itr p (tlist w))
      by (unfold w'; now destruct (m_slot_tracker_enabled env)).
    assert (Hp : heap w' !! p = Some (assign M_group g t))
      by (rewrite Hheap; apply lookup_insert_eq).
    assert (Hin : p ∈ tlist w') by (rewrite Hlist; apply vector_insert_elem).
    assert (Hsize : size w' = S (size w))
      by (unfold size; rewrite Hlist; apply vector_insert_length).
    assert (Hfound : find_url url w' < size w').
    { apply list_elem_of_lookup in Hin as [i Hi].
      pose proof (lookup_lt_Some _ _ _ Hi) as Hlt.
      pose proof (find_if_at_most (fun t => String.eqb url (m_url t))
                    (TrackerList.trackers w') i _ (trackers_lookup w' i p Hi)) as Hmost.
      rewrite (deref_Some w' p _ Hp) in Hmost.
      specialize (Hmost (String.eqb_refl url)). unfold find_url, size. lia. }
    exists w', p. split; [reflexivity|].
    split; [apply not_elem_of_dom, is_fresh|].
    split; [exact Hin|]. split; [exact Hp|].
    split; [intros q Hq; rewrite Hheap; unfold h'; now rewrite !lookup_insert_ne by congruence|].
    split; [exact Hsize|].
    split; [unfold w'; destruct (m_slot_tracker_enabled env); cbn [calls];
            [reflexivity|now rewrite app_nil_r]|].
    split; [exact Hfound|].
    intros t' Ht'. apply find_if_lookup in Ht'. symmetry. now apply String.eqb_eq. }
  split.
  - intros ty Hty.
    destruct (StdString.starts_with "http://" url || StdString.starts_with "https://" url);
      [injection Hty as <-; apply Hbuild|].
    destruct (StdString.starts_with "udp://" url); [injection Hty as <-; apply Hbuild|].
    destruct (StdString.starts_with "dht://" url && TrackerDht_is_allowed env);
      [injection Hty as <-; apply Hbuild|discriminate].
  - intros Hnone.
    destruct (StdString.starts_with "http://" url || StdString.starts_with "https://" url);
      [discriminate|].
    destruct (StdString.starts_with "udp://" url); [discriminate|].
    destruct (StdString.starts_with "dht://" url && TrackerDht_is_allowed env);
      [discriminate|reflexivity].
Qed.

Lemma insert_url_find_url_witness :
  (exists w', TrackerList.insert_url Samples.env0 0 "udp://t.example:6969" false
                Samples.world3 = Done tt w' /\ size w' = 4) /\
  TrackerList.insert_url Samples.env0 0 "ftp://t.example" false Samples.world3
  = Done tt Samples.world3.
Proof.
  split.
  - destruct (proj1 (insert_url_find_url Samples.env0 0 "udp://t.example:6969" false
                       Samples.world3) TRACKER_UDP eq_refl)
      as (w' & p & Hrun & _ & _ & _ & _ & Hsize & _).
    exists w'. split; [exact Hrun|exact Hsize].
  - apply (proj2 (insert_url_find_url Samples.env0 0 "ftp://t.example" false
                    Samples.world3) eq_refl).
Defined.

End Urls.

(** ** The resolvers, the cache and the custom server *)

Section Resolvers.

Import Dns DnsServer.

Lemma last_cons_cons {A} (x y : A) l : last (x :: y :: l) = last (y :: l).
Proof. reflexivity. Qed.

Lemma parse_answers_a_records msgs : forall sa,
  parse_answers msgs sa
  = if forallb (fun rr => rdlength rr =? 4) (a_records msgs)
    then inr (match last (a_records msgs) with
              | Some rr => Some (MkSockaddr AF_INET (rdata rr))
              | None => sa
              end)
    else inl (internal_error "Invalid rd length.").
Proof.
  induction msgs as [|[rr|] msgs IH]; intros sa; [reflexivity| |apply IH].
  cbn [parse_answers a_records]. destruct (rr_type rr =? ns_t_a); [|apply IH].
  cbn [forallb]. destruct (rdlength rr =? 4); [|reflexivity].
  cbn [negb andb]. rewrite IH. destruct (forallb _ _); [|reflexivity].
  destruct (a_records msgs) as [|rr' recs]; [reflexivity|].
  rewrite last_cons_cons. destruct (last (rr' :: recs)) eqn:Hlast; [reflexivity|].
  apply last_None in Hlast. discriminate.
Qed.

(** X13: [resolve_host_custom] asks the name server once and never
    looks at the family or the socket type.  If the query and the parsing of
    the answer succeed, an A record whose data are not 4 bytes long raises
    [internal_error]; otherwise the address is that of the last A record of
    the answer, as an IPv4 address with error code 0.  With no A record, or
    after a failed query, the error code is [errno], whatever it holds, and
    there is no address. *)
Theorem resolve_host_custom_last_record (lk : Lookup) (host : string) (family socktype : Z) :
  let recs := a_records (answers lk) in
  let answered := (-1 <? res_nquery_ret lk) && (-1 <? ns_initparse_ret lk) in
  let r := resolve_host_custom lk host family socktype in
  r.1 = [res_nquery host] /\
  (forall family' socktype', resolve_host_custom lk host family' socktype' = r) /\
  (answered = true -> Exists (fun rr => rdlength rr <> 4) recs ->
   r.2 = inl (internal_error "Invalid rd length.")) /\
  (answered = true -> Forall (fun rr => rdlength rr = 4) recs ->
   forall rr, last recs = Some rr -> r.2 = inr (0, Some (MkSockaddr AF_INET (rdata rr)))) /\
  (answered = false \/ recs = [] -> r.2 = inr (errno lk, None)).
Proof.
  intros recs answered r. subst r. unfold resolve_host_custom. cbn [fst snd].
  fold answered. rewrite parse_answers_a_records. fold recs.
  split; [reflexivity|]. split; [reflexivity|]. split; [|split].
  - intros -> Hex.
    assert (forallb (fun rr => rdlength rr =? 4) recs = false) as ->; [|reflexivity].
    apply not_true_is_false. intros Hall. rewrite forallb_forall in Hall.
    apply Exists_exists in Hex as (rr & Hin & Hne).
    apply list_elem_of_In, Hall, Z.eqb_eq in Hin. contradiction.
  - intros -> Hall rr Hlast.
    assert (forallb (fun rr => rdlength rr =? 4) recs = true) as ->.
    { apply forallb_forall. intros x Hx. apply Z.eqb_eq.
      rewrite Forall_forall in Hall. now apply Hall, list_elem_of_In. }
    now rewrite Hlast.
  - intros [->| ->]; [reflexivity|].
    now destruct answered.
Qed.

Lemma resolve_host_custom_last_record_witness :
  (resolve_host_custom Samples2.two_a_records "tracker.example" AF_INET 1).2
  = inr (0, Some (MkSockaddr AF_INET 22)).
Proof.
  destruct (resolve_host_custom_last_record Samples2.two_a_records "tracker.example"
              AF_INET 1) as (_ & _ & _ & Hlast & _).
  apply (Hlast eq_refl (ltac:(repeat constructor)) (MkRr 1 4 22) eq_refl).
Defined.

Lemma new_events_emit2 d evs1 evs2 c :
  new_events d (emit evs2 (set_cache c (emit evs1 d))) = evs1 ++ evs2.
Proof.
  unfold new_events, emit, set_cache. cbn [events]. rewrite <- (assoc_L (++)).
  now rewrite drop_app_length.
Qed.

Lemma new_events_same d : new_events d d = [].
Proof. unfold new_events. apply drop_all. Qed.

(** X14: what a call of [resolve] does, whatever comes of it.  A manager
    that is off does nothing; a cached triple is answered from the cache with
    one callback and no query.  Otherwise there is one query: with the system
    resolver [getaddrinfo], around which the main thread, and only it,
    releases the global lock and acquires it again before the callback; with
    a custom server [res_nquery], around which the lock is never released,
    followed by at most one callback.  Read with the lock held at the start,
    the events leave it held; the callback and [res_nquery] happen with the
    lock held, and [getaddrinfo] with the lock released exactly on the main
    thread. *)
Theorem resolve_events (lk : Lookup) (host : string) (family socktype : Z) (d : DnsManager) :
  let evs := new_events d (state_of (resolve lk host family socktype d)) in
  let key := MkKey host family socktype in
  (is_on d = false -> evs = []) /\
  (is_on d = true ->
   (forall v, m_cache d !! key = Some v -> evs = [cb (m_sa v) (m_error_code v)]) /\
   (m_cache d !! key = None -> m_custom_server d = None ->
    evs = (if is_current lk then [release_global_lock] else [])
          ++ [getaddrinfo host family socktype]
          ++ (if is_current lk then [acquire_global_lock] else [])
          ++ [cb (if getaddrinfo_ret lk =? 0 then Some (ai_addr lk) else None)
                (getaddrinfo_ret lk)]) /\
   (m_cache d !! key = None -> m_custom_server d <> None ->
    evs = [res_nquery host] \/ exists sa error_code, evs = [res_nquery host; cb sa error_code])) /\
  Props2.lock_after true evs = Some true /\
  Forall (fun held => held = negb (is_current lk)) (Props2.held_at Props2.is_getaddrinfo true evs) /\
  Forall (fun held => held = true) (Props2.held_at Props2.is_res_nquery true evs) /\
  Forall (fun held => held = true) (Props2.held_at is_cb true evs) /\
  (length (filter (fun e => is_query e = true) evs) <= 1)%nat /\
  (length (filter (fun e => is_cb e = true) evs) <= 1)%nat.
Proof.
  intros evs key. subst evs. unfold resolve. fold key.
  destruct (is_on d) eqn:Hon.
  2:{ cbn [state_of]. rewrite new_events_same.
      split; [reflexivity|]. split; [discriminate|]. cbn.
      repeat split; try constructor; lia. }
  unfold retrieve.
  destruct (m_cache d !! key) as [v|] eqn:Hkey.
  { cbn [state_of]. rewrite new_events_emit.
    split; [discriminate|]. split.
    - intros _. split; [intros v' [= <-]; reflexivity|]. split; discriminate.
    - cbn. rewrite ?filter_cons, ?filter_nil. cbn.
      repeat split; try constructor; try reflexivity; try constructor; cbn; lia. }
  destruct (m_custom_server d) as [srv|] eqn:Hsrv.
  - (* the custom server *)
    unfold resolve_host_custom.
    destruct (if (-1 <? res_nquery_ret lk) && (-1 <? ns_initparse_ret lk)
              then parse_answers (answers lk) None else inr None) as [e|sa].
    + cbn [state_of]. rewrite new_events_emit.
      split; [discriminate|]. split.
      * intros _. split; [discriminate|]. split; [discriminate|]. intros _. now left.
      * cbn. rewrite ?filter_cons, ?filter_nil. cbn.
        repeat split; try constructor; try reflexivity; try constructor; cbn; lia.
    + rewrite add_miss by exact Hkey. cbn [state_of]. rewrite new_events_emit2.
      split; [discriminate|]. split.
      * intros _. split; [discriminate|]. split; [discriminate|]. intros _. right. eauto.
      * cbn. rewrite ?filter_cons, ?filter_nil. cbn.
        repeat split; try constructor; try reflexivity; try constructor; cbn; lia.
  - (* the system resolver *)
    unfold resolve_host_system. rewrite add_miss by exact Hkey.
    cbn [state_of]. rewrite new_events_emit2.
    split; [discriminate|]. split.
    + intros _. split; [discriminate|]. split; [|congruence].
      intros _ _. now rewrite <- !(assoc_L (++)).
    + destruct (is_current lk); cbn; rewrite ?filter_cons, ?filter_nil; cbn;
        repeat split; try constructor; try reflexivity; try constructor; cbn; lia.
Qed.

Lemma resolve_events_witness :
  new_events Samples2.warm_manager
    (state_of (resolve (Samples.not_found (-2)) "tracker.example" AF_INET 1
                 Samples2.warm_manager))
  = [cb (Some (MkSockaddr AF_INET 7)) 0].
Proof.
  destruct (resolve_events (Samples.not_found (-2)) "tracker.example" AF_INET 1
              Samples2.warm_manager) as (_ & H & _).
  destruct (H eq_refl) as (Hhit & _).
  apply (Hhit (MkValue (Some (MkSockaddr AF_INET 7)) 0)).
  reflexivity.
Defined.

End Resolvers.

(** ** The cache, its keys and the custom server *)

Section Cache_and_server.

Import Dns DnsServer.

(** X15: [cache_clear] empties the cache and nothing else: on a manager
    that is on, the next [resolve] asks a resolver again, whatever the cache
    held before, and if it returns, the cache holds the answer just given to
    the callback, for this triple alone. *)
Theorem cache_clear_forgets (lk : Lookup) (host : string) (family socktype : Z)
        (d : DnsManager) :
  is_on d = true ->
  let d1 := cache_clear d in
  let r := resolve lk host family socktype d1 in
  is_on d1 = true /\ events d1 = events d /\ m_custom_server d1 = m_custom_server d /\
  m_cache d1 = ∅ /\
  existsb is_query (new_events d1 (state_of r)) = true /\
  (forall b d2, r = Ret b d2 ->
     exists sa error_code,
       m_cache d2 = {[ MkKey host family socktype := MkValue sa error_code ]} /\
       last (events d2) = Some (cb sa error_code)).
Proof.
  intros Hon d1 r.
  assert (Hon1 : is_on d1 = true) by exact Hon.
  split; [exact Hon1|]. split; [reflexivity|]. split; [reflexivity|].
  split; [reflexivity|].
  subst r. unfold resolve. rewrite Hon1. unfold retrieve.
  change (m_cache d1) with (∅ : gmap Key Value). rewrite lookup_empty.
  assert (Hadd : forall error_code sa_u,
            add (MkKey host family socktype) error_code sa_u ∅
            = ({[ MkKey host family socktype := MkValue sa_u error_code ]}, sa_u)).
  { intros. rewrite add_miss by apply lookup_empty. now rewrite insert_empty. }
  destruct (m_custom_server d1) as [srv|].
  - unfold resolve_host_custom.
    destruct (if (-1 <? res_nquery_ret lk) && (-1 <? ns_initparse_ret lk)
              then parse_answers (answers lk) None else inr None) as [e|sa].
    + cbn [state_of]. rewrite new_events_emit. split; [reflexivity|]. discriminate.
    + rewrite Hadd. cbn [state_of]. rewrite new_events_emit2. split; [reflexivity|].
      intros b d2 [= <- <-]. eexists _, _. split; [reflexivity|].
      cbn [emit events]. apply last_snoc.
  - unfold resolve_host_system. rewrite Hadd. cbn [state_of]. rewrite new_events_emit2.
    split; [destruct (is_current lk); reflexivity|].
    intros b d2 [= <- <-]. eexists _, _. split; [reflexivity|].
    cbn [emit events]. apply last_snoc.
Qed.

Lemma cache_clear_forgets_witness :
  existsb is_query
    (new_events (cache_clear Samples2.warm_manager)
       (state_of (resolve (Samples.found 9) "tracker.example" AF_INET 1
                    (cache_clear Samples2.warm_manager)))) = true.
Proof.
  apply (cache_clear_forgets (Samples.found 9) "tracker.example" AF_INET 1
           Samples2.warm_manager eq_refl).
Defined.

Lemma ascii_compare_refl c : Ascii.compare c c = Eq.
Proof. unfold Ascii.compare. apply N.compare_refl. Qed.

Lemma ascii_compare_lt_trans a b c :
  Ascii.compare a b = Lt -> Ascii.compare b c = Lt -> Ascii.compare a c = Lt.
Proof.
  unfold Ascii.compare. rewrite !N.compare_lt_iff. apply N.lt_trans.
Qed.

Lemma string_compare_lt_trans a : forall b c,
  String.compare a b = Lt -> String.compare b c = Lt -> String.compare a c = Lt.
Proof.
  induction a as [|x a IH]; intros [|y b] [|z c]; cbn; try discriminate; try reflexivity.
  destruct (Ascii.compare x y) eqn:Hxy; try discriminate;
    destruct (Ascii.compare y z) eqn:Hyz; try discriminate; intros Hab Hbc.
  - apply Ascii.compare_eq_iff in Hxy as ->. apply Ascii.compare_eq_iff in Hyz as ->.
    rewrite ascii_compare_refl. now apply (IH b c).
  - apply Ascii.compare_eq_iff in Hxy as ->. now rewrite Hyz.
  - apply Ascii.compare_eq_iff in Hyz as <-. now rewrite Hxy.
  - now rewrite (ascii_compare_lt_trans x y z).
Qed.

Lemma string_ltb_trans a b c :
  String.ltb a b = true -> String.ltb b c = true -> String.ltb a c = true.
Proof.
  unfold String.ltb. intros Hab Hbc.
  destruct (String.compare a b) eqn:Eab; try discriminate.
  destruct (String.compare b c) eqn:Ebc; try discriminate.
  now rewrite (string_compare_lt_trans a b c).
Qed.

Lemma string_ltb_irrefl a : String.ltb a a = false.
Proof.
  unfold String.ltb. replace (String.compare a a) with Eq; [reflexivity|].
  symmetry. induction a as [|x a IH]; [reflexivity|].
  cbn. now rewrite ascii_compare_refl.
Qed.

(** X16: [operator<] of the keys of the cache is a strict total order of
    the triples, as [std::map] needs it: no key is below itself, the relation
    is transitive, and of two different keys exactly one is below the
    other. *)
Theorem Key_lt_strict_total_order :
  (forall a, Key_lt a a = false) /\
  (forall a b c, Key_lt a b = true -> Key_lt b c = true -> Key_lt a c = true) /\
  (forall a b, a <> b -> Key_lt a b = negb (Key_lt b a)).
Proof.
  assert (Htrans : forall a b c,
            Key_lt a b = true -> Key_lt b c = true -> Key_lt a c = true).
  { intros [h1 f1 s1] [h2 f2 s2] [h3 f3 s3]. unfold Key_lt. cbn [m_host m_family m_socktype].
    destruct (String.eqb_spec h1 h2) as [->|H12]; cbn [negb].
    - destruct (String.eqb_spec h2 h3) as [->|H23]; cbn [negb]; [|auto].
      destruct (Z.eqb_spec f1 f2) as [->|F12]; cbn [negb].
      + destruct (Z.eqb_spec f2 f3) as [->|F23]; cbn [negb]; [lia|auto].
      + destruct (Z.eqb_spec f2 f3) as [->|F23]; cbn [negb].
        * destruct (Z.eqb_spec f1 f3); [congruence|]. auto.
        * destruct (Z.eqb_spec f1 f3); cbn [negb]; lia.
    - destruct (String.eqb_spec h2 h3) as [->|H23]; cbn [negb].
      + destruct (String.eqb_spec h1 h3); [congruence|]. auto.
      + intros Hlt12 Hlt23. pose proof (string_ltb_trans _ _ _ Hlt12 Hlt23) as Hlt13.
        destruct (String.eqb_spec h1 h3) as [->|H13]; cbn [negb]; [|exact Hlt13].
        now rewrite string_ltb_irrefl in Hlt13. }
  split; [exact Key_lt_irrefl|]. split; [exact Htrans|].
  intros a b Hne.
  destruct (Key_lt a b) eqn:Hab, (Key_lt b a) eqn:Hba; try reflexivity.
  - pose proof (Htrans a b a Hab Hba) as Haa. now rewrite Key_lt_irrefl in Haa.
  - now pose proof (Key_lt_equiv a b Hab Hba).
Qed.

(** X17: [server_set] succeeds only where the resolver library is
    compiled in, with an IPv4 address and after [res_ninit] has returned 0.
    It then makes that address the only name server of the resolver,
    replacing a port 0 by 53 in network byte order, and switches the manager
    to the custom server with the cache left as it is: cached triples are
    still answered from the cache, the others by [res_nquery].  A failure
    leaves the manager as it was; with a null address the call raises or has
    no defined behaviour, so no call goes back to the system resolver. *)
Theorem server_set_outcomes (HAVE_RESOLV_H : bool) (htons_53 res_ninit_ret : Z)
        (res_init : res_state) (sa : option sockaddr_in) (d : DnsManager) (res : res_state) :
  let r := server_set HAVE_RESOLV_H htons_53 res_ninit_ret res_init sa d res in
  ((exists d' res', r = served_done d' res') <->
   HAVE_RESOLV_H = true /\ res_ninit_ret = 0 /\ exists a, sa = Some a /\ sin_family a = AF_INET) /\
  (forall d' res', r = served_done d' res' ->
     exists a, sa = Some a /\
       m_custom_server d' = Some (MkSockaddr AF_INET (sin_addr a)) /\
       m_cache d' = m_cache d /\ events d' = events d /\ is_on d' = is_on d /\
       res' = MkRes (MkSockaddrIn AF_INET (if sin_port a =? 0 then htons_53 else sin_port a)
                       (sin_addr a)) 1 /\
       (forall lk host family socktype,
          is_on d' = true ->
          match m_cache d !! MkKey host family socktype with
          | Some v => new_events d' (state_of (resolve lk host family socktype d'))
                      = [cb (m_sa v) (m_error_code v)]
          | None => head (new_events d' (state_of (resolve lk host family socktype d')))
                    = Some (res_nquery host)
          end)) /\
  (forall e d' res', r = served_throw e d' res' ->
     d' = d /\
     ((HAVE_RESOLV_H = false /\ res' = res /\
       e = internal_error "Can't set custom DNS server, it was compiled out.") \/
      (HAVE_RESOLV_H = true /\ res' = res /\ (exists a, sa = Some a /\ sin_family a <> AF_INET) /\
       e = input_error "Tried to set a custom dns server that is not ipv4.") \/
      (HAVE_RESOLV_H = true /\ res' = res_init /\ res_ninit_ret <> 0 /\
       e = internal_error "Failed to res_init."))) /\
  (r = served_undefined <-> HAVE_RESOLV_H = true /\ sa = None /\ res_ninit_ret = 0).
Proof.
  intros r. subst r. unfold server_set.
  destruct HAVE_RESOLV_H; cbn [negb].
  2:{ split; [split; [intros (? & ? & [=])|intros ([=] & _)]|].
      split; [discriminate|]. split; [|split; [discriminate|intros ([=] & _)]].
      intros e d' res' [= <- <- <-]. split; [reflexivity|]. left. auto. }
  destruct sa as [a|].
  2:{ destruct (Z.eqb_spec res_ninit_ret 0) as [Hret|Hret]; cbn [negb].
      - split; [split; [intros (? & ? & [=])|intros (_ & _ & ? & [=] & _)]|].
        split; [discriminate|]. split; [discriminate|]. now split.
      - split; [split; [intros (? & ? & [=])|intros (_ & _ & ? & [=] & _)]|].
        split; [discriminate|]. split; [|split; [discriminate|intros (_ & _ & ?); contradiction]].
        intros e d' res' [= <- <- <-]. split; [reflexivity|]. right. right. auto. }
  destruct (Z.eqb_spec (sin_family a) AF_INET) as [Hfam|Hfam]; cbn [negb].
  2:{ split; [split; [intros (? & ? & [=])|intros (_ & _ & ? & [= <-] & ?); contradiction]|].
      split; [discriminate|]. split; [|split; [discriminate|intros (_ & [=] & _)]].
      intros e d' res' [= <- <- <-]. split; [reflexivity|]. right. left.
      split; [reflexivity|]. split; [reflexivity|]. split; [|reflexivity]. eauto. }
  destruct (Z.eqb_spec res_ninit_ret 0) as [Hret|Hret]; cbn [negb].
  2:{ split; [split; [intros (? & ? & [=])|intros (_ & ? & _); contradiction]|].
      split; [discriminate|]. split; [|split; [discriminate|intros (_ & [=] & _)]].
      intros e d' res' [= <- <- <-]. split; [reflexivity|]. right. right. auto. }
  split; [split; [intros _; eauto 6|intros _; eauto]|].
  split; [|split; [discriminate|split; [discriminate|intros (_ & [=] & _)]]].
  intros d' res' [= <- <-]. exists a. split; [reflexivity|].
  rewrite Hfam. split; [reflexivity|]. split; [reflexivity|]. split; [reflexivity|].
  split; [reflexivity|]. split; [now destruct (sin_port a =? 0), a; cbn in *; subst|].
  intros lk host family socktype Hon.
  set (d' := with_custom_server _ d) in *.
  unfold resolve. rewrite Hon. unfold retrieve.
  change (m_cache d') with (m_cache d).
  destruct (m_cache d !! MkKey host family socktype) as [v|] eqn:Hkey.
  - cbn [state_of]. apply new_events_emit.
  - change (m_custom_server d') with (Some (MkSockaddr AF_INET (sin_addr a))).
    unfold resolve_host_custom.
    destruct (if (-1 <? res_nquery_ret lk) && (-1 <? ns_initparse_ret lk)
              then parse_answers (answers lk) None else inr None) as [e|sa'].
    + cbn [state_of]. now rewrite new_events_emit.
    + rewrite add_miss by exact Hkey. cbn [state_of]. now rewrite new_events_emit2.
Qed.

Lemma server_set_outcomes_witness :
  exists d', server_set true 13568 0 (MkRes (MkSockaddrIn 0 0 0) 0)
               (Some (MkSockaddrIn AF_INET 0 16843009)) Samples.on_manager
               (MkRes (MkSockaddrIn 0 0 0) 0)
             = served_done d' (MkRes (MkSockaddrIn AF_INET 13568 16843009) 1) /\
             m_custom_server d' = Some (MkSockaddr AF_INET 16843009).
Proof.
  destruct (server_set_outcomes true 13568 0 (MkRes (MkSockaddrIn 0 0 0) 0)
              (Some (MkSockaddrIn AF_INET 0 16843009)) Samples.on_manager
              (MkRes (MkSockaddrIn 0 0 0) 0)) as (_ & Hdone & _).
  destruct (Hdone _ _ eq_refl) as (a & [= <-] & Hsrv & _).
  eexists. split; [reflexivity|exact Hsrv].
Defined.

End Cache_and_server.

(** ** More on single trackers and on the connection manager *)

Section Status_codes.

Import Status.

(** X18: the status of a tracker survives the conversion to [int64] and
    back, for each of the three statuses, exactly when the enumeration gives
    [off] the value 0, [on] the value 1 and [undefined] any other value; the
    conversion from [int64] never fails, and turns every value other than 0
    and 1 into [undefined]. *)
Theorem enabled_status_round_trip (enumerator : enabled_status_t -> Z) :
  ((forall s, enabled_status_from_int64 (enabled_status_to_int64 enumerator s) = s) <->
   enumerator off = 0 /\ enumerator on = 1 /\
   enumerator undefined <> 0 /\ enumerator undefined <> 1) /\
  (forall raw, enabled_status_from_int64 raw = undefined <-> raw <> 0 /\ raw <> 1) /\
  (forall raw, enabled_status_from_int64 raw = off <-> raw = 0) /\
  (forall raw, enabled_status_from_int64 raw = on <-> raw = 1).
Proof.
  assert (Hfrom : forall raw,
            (raw = 0 /\ enabled_status_from_int64 raw = off) \/
            (raw = 1 /\ enabled_status_from_int64 raw = on) \/
            (raw <> 0 /\ raw <> 1 /\ enabled_status_from_int64 raw = undefined)).
  { intros raw. unfold enabled_status_from_int64.
    destruct (Z.eqb_spec raw 0); [auto|]. destruct (Z.eqb_spec raw 1); auto. }
  split; [|split; [|split]].
  - unfold enabled_status_to_int64. split.
    + intros Hall.
      pose proof (Hall off) as Hoff. pose proof (Hall on) as Hon.
      pose proof (Hall undefined) as Hun.
      destruct (Hfrom (enumerator off)) as [[? ?]|[[? ?]|(? & ? & ?)]]; try congruence.
      destruct (Hfrom (enumerator on)) as [[? ?]|[[? ?]|(? & ? & ?)]]; try congruence.
      destruct (Hfrom (enumerator undefined)) as [[? ?]|[[? ?]|(? & ? & ?)]];
        try congruence.
      auto.
    + intros (Hoff & Hon & Hun0 & Hun1) [| |]; [now rewrite Hon|now rewrite Hoff|].
      destruct (Hfrom (enumerator undefined)) as [[? ?]|[[? ?]|(? & ? & ?)]]; congruence.
  - intros raw. destruct (Hfrom raw) as [[? ?]|[[? ?]|(? & ? & ?)]];
      split; intros; try congruence; try lia; auto.
  - intros raw. destruct (Hfrom raw) as [[? ?]|[[? ?]|(? & ? & ?)]];
      split; intros; try congruence; try lia.
  - intros raw. destruct (Hfrom raw) as [[? ?]|[[? ?]|(? & ? & ?)]];
      split; intros; try congruence; try lia.
Qed.

End Status_codes.

Section Schedule.

Import TrackerOps.

(** X19: [receive_failed] for a tracker of the list that is not busy
    returns, and afterwards [failed_time_next] of the tracker is the present
    second plus 5 seconds doubled once for each failure that was counted
    before, at most 6 times: between 5 and 320 seconds, as long as the
    counter has not reached the largest value it can hold. *)
Theorem receive_failed_schedule (env : Env) (tb : ptr) (msg : string) (w : World)
        (t : Tracker) :
  heap w !! tb = Some t -> tb ∈ tlist w -> is_busy t = false ->
  0 <= m_failed_counter t < modulus - 1 ->
  exists w',
    TrackerList.receive_failed env tb msg w = Done tt w' /\
    failed_time_next (TrackerList.deref w' tb)
    = U32.add (wrap32 (cachedTime env)) (5 * 2 ^ Z.min (m_failed_counter t) 6) /\
    5 <= 5 * 2 ^ Z.min (m_failed_counter t) 6 <= 320 /\
    success_time_next (TrackerList.deref w' tb) = success_time_next t.
Proof.
  intros Ht Hin Hbusy Hfc.
  destruct (find_elem tb w Hin) as (Hlt & _).
  unfold TrackerList.receive_failed.
  rewrite decide_False by (intros Heq; rewrite Heq in Hlt; apply (Nat.lt_irrefl _ Hlt)).
  rewrite (deref_Some w tb t Ht), Hbusy.
  eexists. split; [reflexivity|].
  unfold TrackerList.deref. cbn [heap]. rewrite lookup_total_insert_eq.
  assert (Hincr : U32.incr (m_failed_counter t) = m_failed_counter t + 1)
    by (apply incr_small; lia).
  split; [|split; [|reflexivity]].
  - unfold failed_time_next. cbn -[U32.incr U32.sub U32.add wrap32 Z.shiftl Z.min Z.mul Z.pow].
    rewrite Hincr.
    destruct (Z.eqb_spec (m_failed_counter t + 1) 0) as [Hz|_]; [lia|].
    rewrite sub_small by (unfold in_range, modulus in *; lia).
    replace (m_failed_counter t + 1 - 1) with (m_failed_counter t) by lia.
    rewrite shiftl_5 by lia. reflexivity.
  - replace (m_failed_counter t) with (m_failed_counter t + 1 - 1) by lia.
    apply backoff_bounds. lia.
Qed.

Lemma receive_failed_schedule_witness :
  exists w',
    TrackerList.receive_failed Samples.env0 1%nat "timed out"
      (MkWorld (<[1%nat := Samples.failed 2 100]> ∅) [1%nat] []) = Done tt w' /\
    failed_time_next (TrackerList.deref w' 1%nat) = 1020.
Proof.
  destruct (receive_failed_schedule Samples.env0 1%nat "timed out"
              (MkWorld (<[1%nat := Samples.failed 2 100]> ∅) [1%nat] [])
              (Samples.failed 2 100)) as (w' & Hrun & Hnext & _).
  - reflexivity.
  - apply list_elem_of_here.
  - reflexivity.
  - vm_compute. split; [discriminate|reflexivity].
  - exists w'. split; [exact Hrun|]. rewrite Hnext. reflexivity.
Defined.

(** X20: [receive_success] for a tracker of the list that is not busy
    returns, and afterwards the tracker no longer counts as failed, and
    [success_time_next] is the present second plus the normal interval of
    the tracker, as long as the counter of successes has not reached the
    largest value it can hold. *)
Theorem receive_success_schedule (env : Env) (tb : ptr) (l : list socket_address)
        (w : World) (t : Tracker) :
  heap w !! tb = Some t -> tb ∈ tlist w -> is_busy t = false ->
  0 <= m_success_counter t < modulus - 1 ->
  exists l' w',
    TrackerList.receive_success env tb l w = Done l' w' /\
    failed_time_next (TrackerList.deref w' tb) = 0 /\
    success_time_next (TrackerList.deref w' tb)
    = U32.add (wrap32 (cachedTime env)) (m_normal_interval t).
Proof.
  intros Ht Hin Hbusy Hsc.
  destruct (find_elem tb w Hin) as (Hlt & Hat & _).
  unfold TrackerList.receive_success.
  rewrite decide_False by (intros Heq; rewrite Heq in Hlt; apply (Nat.lt_irrefl _ Hlt)).
  rewrite (deref_Some w tb t Ht), Hbusy.
  rewrite (promote_done w _ tb Hat).
  eexists _, _. split; [reflexivity|].
  unfold TrackerList.deref. cbn [heap]. rewrite lookup_total_insert_eq.
  rewrite (lookup_total_correct _ _ _ Ht).
  assert (Hincr : U32.incr (m_success_counter t) = m_success_counter t + 1)
    by (apply incr_small; lia).
  split; [reflexivity|].
  unfold success_time_next. cbn -[U32.incr U32.add wrap32].
  rewrite Hincr.
  destruct (Z.eqb_spec (m_success_counter t + 1) 0) as [Hz|_]; [lia|reflexivity].
Qed.

Lemma receive_success_schedule_witness :
  exists l' w',
    TrackerList.receive_success Samples.env0 2%nat [] Samples.world3 = Done l' w' /\
    success_time_next (TrackerList.deref w' 2%nat) = 2800.
Proof.
  destruct (receive_success_schedule Samples.env0 2%nat [] Samples.world3 Samples.idle)
    as (l' & w' & Hrun & _ & Hnext).
  - reflexivity.
  - apply list_elem_of_lookup. exists 1%nat. reflexivity.
  - reflexivity.
  - vm_compute. split; [discriminate|reflexivity].
  - exists l', w'. split; [exact Hrun|]. rewrite Hnext. reflexivity.
Defined.

End Schedule.

Section Scrape_url_again.

Import StdString TrackerOps.

Lemma length_append a b : String.length (a +:+ b) = (String.length a + String.length b)%nat.
Proof.
  induction a as [|c a IH]; [now rewrite append_nil|].
  rewrite append_cons. cbn [String.length]. now rewrite IH.
Qed.

(** X21: the URL that [scrape_url_from] returns is two characters
    shorter than the URL it was made from, and [scrape_url_from] does not
    accept it: made from a scrape URL, it raises [internal_error]. *)
Theorem scrape_url_from_not_twice (url s : string) :
  scrape_url_from url = inr s ->
  scrape_url_from s = inl (internal_error "Tried to make scrape url from invalid url.") /\
  String.length url = (String.length s + 2)%nat.
Proof.
  intros Hs.
  destruct (rfind "/" url) as [d|] eqn:Hd.
  2:{ apply rfind_None in Hd. rewrite (scrape_url_from_no_slash url Hd) in Hs. discriminate. }
  apply rfind_Some in Hd as (pre & tl & -> & _ & Htl).
  rewrite (scrape_url_from_split pre tl Htl) in Hs.
  destruct (starts_with "announce" tl) eqn:Hst; [|discriminate].
  apply starts_with_inv in Hst as [r ->].
  assert (Hdrop : drop_str 8 ("announce" +:+ r) = r).
  { transitivity (drop_str 0 r); [exact (drop_str_app "announce" r 0)|now destruct r]. }
  rewrite Hdrop in Hs. injection Hs as <-.
  rewrite contains_char_app in Htl. apply orb_false_iff in Htl as [_ Hrs].
  split.
  - change (pre +:+ "/scrape" +:+ r) with (pre +:+ String "/" ("scrape" +:+ r)).
    rewrite scrape_url_from_split.
    + reflexivity.
    + rewrite contains_char_app, Hrs. reflexivity.
  - rewrite !length_append. cbn [String.length].
    change (String.length ("announce" +:+ r)) with (String.length (String "a" ("nnounce" +:+ r))).
    change ("/scrape" +:+ r) with (String "/" ("scrape" +:+ r)).
    cbn [String.length]. rewrite !length_append. cbn [String.length]. lia.
Qed.

Lemma scrape_url_from_not_twice_witness :
  scrape_url_from "http://x/scrape?foo=1"
  = inl (internal_error "Tried to make scrape url from invalid url.").
Proof.
  apply (scrape_url_from_not_twice "http://x/announce?foo=1" "http://x/scrape?foo=1").
  reflexivity.
Defined.

End Scrape_url_again.

Section Backlog.

Import ConnectionManager.

(** X22: [set_listen_backlog] stores the value exactly when it is
    between 1 and 65535 and the listener is not open; otherwise it raises
    [input_error] and leaves the manager as it is.  So a backlog within
    these bounds stays within them over any calls, and no call changes the
    backlog of an open listener. *)
Theorem set_listen_backlog_bounds (vs : list Z) (cm : ConnectionManager) :
  1 <= m_listen_backlog cm < 65536 ->
  1 <= m_listen_backlog (set_listen_backlogs vs cm) < 65536 /\
  listen_is_open (set_listen_backlogs vs cm) = listen_is_open cm /\
  (listen_is_open cm = true ->
   m_listen_backlog (set_listen_backlogs vs cm) = m_listen_backlog cm) /\
  (forall v, (exists cm', set_listen_backlog v cm = Ret tt cm') <->
             1 <= v < 65536 /\ listen_is_open cm = false) /\
  (forall v cm', set_listen_backlog v cm = Ret tt cm' -> m_listen_backlog cm' = v) /\
  (forall v e cm', set_listen_backlog v cm = Throw e cm' ->
     cm' = cm /\ exists msg, e = input_error msg).
Proof.
  assert (Hone : forall v c,
    (1 <= v < 65536 /\ listen_is_open c = false /\
     set_listen_backlog v c
     = Ret tt (MkConnectionManager (m_size c) (m_maxSize c) v (listen_is_open c))) \/
    ((~ (1 <= v < 65536) \/ listen_is_open c = true) /\
     exists msg, set_listen_backlog v c = Throw (input_error msg) c)).
  { intros v c. unfold set_listen_backlog. change (Z.shiftl 1 16) with 65536.
    destruct (Z.ltb_spec v 1); cbn [orb]; [right; split; [lia|eauto]|].
    destruct (Z.leb_spec 65536 v); [right; split; [lia|eauto]|].
    destruct (listen_is_open c) eqn:Hopen; [right; split; eauto|].
    left. split; [lia|]. now split. }
  intros Hb.
  assert (Hall : forall vs c, 1 <= m_listen_backlog c < 65536 ->
    1 <= m_listen_backlog (set_listen_backlogs vs c) < 65536 /\
    listen_is_open (set_listen_backlogs vs c) = listen_is_open c /\
    (listen_is_open c = true ->
     m_listen_backlog (set_listen_backlogs vs c) = m_listen_backlog c)).
  { clear Hb. intros vs0. induction vs0 as [|v vs0 IH]; intros c Hc; [cbn; auto|].
    unfold set_listen_backlogs. cbn [foldl]. fold (set_listen_backlogs vs0).
    destruct (Hone v c) as [(Hv & Hopen & ->)|(_ & msg & ->)]; cbn [state_of].
    - destruct (IH (MkConnectionManager (m_size c) (m_maxSize c) v (listen_is_open c)))
        as (H1 & H2 & H3); [exact Hv|].
      split; [exact H1|]. split; [exact H2|]. intros Ho. congruence.
    - now apply IH. }
  destruct (Hall vs cm Hb) as (H1 & H2 & H3).
  split; [exact H1|]. split; [exact H2|]. split; [exact H3|]. split; [|split].
  - intros v. destruct (Hone v cm) as [(Hv & Hopen & Hrun)|(Hbad & msg & Hrun)].
    + split; [auto|]. intros _. eauto.
    + split; [intros [cm' Hret]; congruence|].
      intros [Hv Ho]. destruct Hbad; [contradiction|congruence].
  - intros v cm' Hret. destruct (Hone v cm) as [(_ & _ & Hrun)|(_ & msg & Hrun)];
      [|congruence].
    rewrite Hrun in Hret. now injection Hret as <-.
  - intros v e cm' Hthrow. destruct (Hone v cm) as [(_ & _ & Hrun)|(_ & msg & Hrun)];
      [congruence|].
    rewrite Hrun in Hthrow. injection Hthrow as <- <-. eauto.
Qed.

Lemma set_listen_backlog_bounds_witness :
  m_listen_backlog
    (set_listen_backlogs [0; 70000; 64] (MkConnectionManager 0 0 128 false)) = 64.
Proof.
  destruct (set_listen_backlog_bounds [0; 70000] (MkConnectionManager 0 0 128 false))
    as (_ & _ & _ & _ & Hret & _); [cbn; lia|].
  apply (Hret 64 _ eq_refl).
Defined.

End Backlog.

(** ** Groups as ranges, and shuffling within them *)

Section Group_ranges.

Import Algo Queries.
Local Open Scope nat_scope.

(** X23: [begin_group] never goes back as the group grows; on a list
    sorted by group, the entries of a group are exactly those from
    [begin_group] of the group up to [begin_group] of the next group. *)
Theorem begin_group_range (g : Z) (w : World) :
  StronglySorted Z.le (TrackerList.groups w) ->
  (forall g', (g <= g')%Z -> TrackerList.begin_group g w <= TrackerList.begin_group g' w) /\
  TrackerList.begin_group (g + 1) w <= size w /\
  (forall i p, tlist w !! i = Some p ->
     (i < TrackerList.begin_group g w <-> (m_group (TrackerList.deref w p) < g)%Z)) /\
  (forall i p, tlist w !! i = Some p ->
     (m_group (TrackerList.deref w p) = g <->
      TrackerList.begin_group g w <= i < TrackerList.begin_group (g + 1) w)).
Proof.
  intros Hsorted.
  assert (Hlen : length (TrackerList.trackers w) = size w) by apply length_fmap.
  assert (Hbelow : forall g0 i p, tlist w !! i = Some p ->
            (i < TrackerList.begin_group g0 w <-> (m_group (TrackerList.deref w p) < g0)%Z)).
  { intros g0 i p Hp. split; [intros Hi; exact (begin_group_before w g0 i p Hi Hp)|].
    intros Hlt. destruct (Nat.lt_ge_cases i (TrackerList.begin_group g0 w)) as [|Hge];
      [assumption|exfalso].
    pose proof (lookup_lt_Some _ _ _ Hp) as Hi.
    destruct (begin_group_found g0 w) as (q & Hq & Hgq); [lia|].
    assert (Hle : (m_group (TrackerList.deref w q) <= m_group (TrackerList.deref w p))%Z).
    { apply (sorted_lookup (TrackerList.groups w) (TrackerList.begin_group g0 w) i);
        [exact Hsorted|exact Hge| |].
      - unfold TrackerList.groups. rewrite list_lookup_fmap.
        now rewrite (trackers_lookup w _ q Hq).
      - unfold TrackerList.groups. rewrite list_lookup_fmap.
        now rewrite (trackers_lookup w _ p Hp). }
    lia. }
  split; [|split; [|split]].
  - intros g' Hg. unfold TrackerList.begin_group. apply find_if_mono.
    intros t Ht. apply Z.leb_le in Ht. apply Z.leb_le. lia.
  - rewrite <- Hlen. apply find_if_le.
  - exact (Hbelow g).
  - intros i p Hp. pose proof (Hbelow g i p Hp) as H1.
    pose proof (Hbelow (g + 1)%Z i p Hp) as H2. split; [intros Hg|intros [Hlo Hhi]].
    + split; [|apply H2; lia].
      destruct (Nat.lt_ge_cases i (TrackerList.begin_group g w)) as [Hlt|]; [|assumption].
      apply H1 in Hlt. lia.
    + apply H2 in Hhi.
      destruct (Z_lt_le_dec (m_group (TrackerList.deref w p)) g) as [Hlt|Hge]; [|lia].
      apply H1 in Hlt. lia.
Qed.

Lemma begin_group_range_witness :
  TrackerList.begin_group 0 Samples.tiers = 0 /\ TrackerList.begin_group 1 Samples.tiers = 2 /\
  (m_group (TrackerList.deref Samples.tiers 3) = 0%Z <-> 0 <= 1 < 2).
Proof.
  split; [reflexivity|]. split; [reflexivity|].
  destruct (begin_group_range 0 Samples.tiers) as (_ & _ & _ & Hrange).
  - vm_compute. repeat constructor; discriminate.
  - exact (Hrange 1 3 eq_refl).
Defined.

Lemma end_group_after w itr (l : list ptr) p :
  l !! itr = Some p ->
  itr < TrackerList.end_group (m_group (TrackerList.deref w p))
          {| heap := heap w; tlist := l; calls := calls w |}.
Proof.
  intros Hp. pose proof (lookup_lt_Some _ _ _ Hp) as Hlt.
  unfold TrackerList.end_group. cbn [tlist].
  set (w1 := {| heap := heap w; tlist := l; calls := calls w |}).
  set (g := m_group (TrackerList.deref w p)).
  assert (Ht : TrackerList.trackers w1 !! itr = Some (TrackerList.deref w p))
    by exact (trackers_lookup w1 itr p Hp).
  destruct (after_last _ _) as [i|] eqn:Hlast; [|exact Hlt].
  apply after_last_Some in Hlast as (l1 & x & l2 & Heq & -> & _ & Hl2).
  destruct (Nat.lt_ge_cases itr (S (length l1))) as [|Hge]; [assumption|exfalso].
  rewrite Heq in Ht. rewrite lookup_app_r in Ht by lia.
  destruct (itr - length l1) as [|k] eqn:Hk; [lia|]. cbn in Ht.
  rewrite Forall_forall in Hl2.
  assert (Hin : TrackerList.deref w p ∈ l2) by (apply list_elem_of_lookup; eauto).
  apply Hl2 in Hin. unfold g in Hin. now rewrite Z.eqb_refl in Hin.
Qed.

(** [std::shuffle] may leave every stretch as it is. *)
Lemma randomize_from_refl w (l : list ptr) : forall n itr,
  length l - itr <= n -> TrackerList.randomize_from w itr l l.
Proof.
  induction n as [|n IH]; intros itr Hn.
  - apply TrackerList.randomize_end. lia.
  - destruct (l !! itr) as [p|] eqn:Hp.
    2:{ apply TrackerList.randomize_end. now apply lookup_ge_None. }
    pose proof (end_group_after w itr l p Hp) as Hafter.
    set (tmp := TrackerList.end_group _ _) in Hafter.
    assert (Hsame : take itr l ++ take (tmp - itr) (drop itr l) ++ drop tmp l = l).
    { replace (drop tmp l) with (drop (tmp - itr) (drop itr l)).
      - now rewrite take_drop, take_drop.
      - rewrite drop_drop. f_equal. lia. }
    apply (TrackerList.randomize_shuffle w itr l p tmp (take (tmp - itr) (drop itr l)) l);
      [exact Hp|reflexivity|exact Hafter|reflexivity|].
    rewrite Hsame. apply IH. lia.
Qed.

(** X24: [randomize_group_entries] always has an outcome, and on a list
    sorted by group every outcome keeps the entries and the group at each
    position: the entries are shuffled within their groups only, and no
    object changes. *)
Theorem randomize_within_groups (w : World) :
  StronglySorted Z.le (TrackerList.groups w) ->
  TrackerList.randomize_group_entries w w /\
  forall w', TrackerList.randomize_group_entries w w' ->
    TrackerList.groups w' = TrackerList.groups w /\
    tlist w' ≡ₚ tlist w /\ heap w' = heap w /\ calls w' = calls w /\
    (forall g, TrackerList.begin_group g w' = TrackerList.begin_group g w).
Proof.
  intros Hsorted. split.
  - split; [reflexivity|]. split; [reflexivity|].
    apply (randomize_from_refl w (tlist w) (length (tlist w))). lia.
  - intros w' (Hheap & Hcalls & Hfrom).
    rewrite groups_group_seq in Hsorted.
    destruct (randomize_from_groups w 0 (tlist w) (tlist w') Hfrom Hsorted) as [Hg Hperm].
    assert (Hgroups : TrackerList.groups w' = TrackerList.groups w)
      by (rewrite !groups_group_seq, Hheap; exact Hg).
    split; [exact Hgroups|]. split; [exact Hperm|]. split; [exact Hheap|].
    split; [exact Hcalls|].
    intros g. unfold TrackerList.begin_group.
    rewrite <- !(find_if_fmap m_group (fun x => (g <=? x)%Z)).
    fold (TrackerList.groups w'). fold (TrackerList.groups w). now rewrite Hgroups.
Qed.

Lemma randomize_within_groups_witness :
  TrackerList.randomize_group_entries Samples.tiers
    {| heap := heap Samples.tiers; tlist := [3; 1; 2]; calls := calls Samples.tiers |} /\
  TrackerList.groups
    {| heap := heap Samples.tiers; tlist := [3; 1; 2]; calls := calls Samples.tiers |}
  = [0; 0; 1]%Z.
Proof.
  assert (Hrun : TrackerList.randomize_group_entries Samples.tiers
            {| heap := heap Samples.tiers; tlist := [3; 1; 2];
               calls := calls Samples.tiers |}).
  { split; [reflexivity|]. split; [reflexivity|].
    apply (TrackerList.randomize_shuffle Samples.tiers 0 [1; 3; 2] 1 2 [3; 1] [3; 1; 2]);
      [reflexivity|reflexivity|lia|apply Permutation_swap|].
    apply (TrackerList.randomize_shuffle Samples.tiers 2 [3; 1; 2] 2 3 [2] [3; 1; 2]);
      [reflexivity|reflexivity|lia|reflexivity|].
    apply TrackerList.randomize_end. cbn. lia. }
  split; [exact Hrun|].
  destruct (randomize_within_groups Samples.tiers) as [_ Hall].
  - vm_compute. repeat constructor; discriminate.
  - destruct (Hall _ Hrun) as (Hg & _). rewrite Hg. reflexivity.
Defined.

End Group_ranges.

(** ** A tracker that is switched off, and the cache as a map *)

Section Switched_off.

Import Algo TrackerVirtual Dispatch Status.
Local Open Scope nat_scope.

(** The tracker that [find_next_to_request] returns is usable and can be
    requested. *)
Lemma find_next_to_request_eligible env itr w t :
  TrackerList.trackers w !! TrackerList.find_next_to_request env itr w = Some t ->
  Props.eligible env t = true.
Proof.
  unfold TrackerList.find_next_to_request, TrackerList.find_next_in.
  set (ts := TrackerList.trackers w).
  change (fun t => TrackerList.is_usable env t && can_request_state t)
    with (Props.eligible env).
  set (itr1 := itr + find_if (Props.eligible env) (drop itr ts)).
  destruct (ts !! itr1) as [cur|] eqn:Hcur; [|congruence].
  assert (Hel : Props.eligible env cur = true).
  { unfold itr1 in Hcur. rewrite <- lookup_drop in Hcur. exact (find_if_lookup _ _ _ Hcur). }
  destruct (negb _); [|congruence].
  destruct (better_scan_result env (drop (S itr1) ts) itr1 cur (S itr1))
    as [->|(t' & Hrange & Ht' & Helt)]; [congruence|].
  rewrite lookup_drop in Ht'.
  replace (S itr1 + (_ - S itr1)) with
    (TrackerList.better_scan env itr1 cur (S itr1) (drop (S itr1) ts)) in Ht' by lia.
  congruence.
Qed.

(** X25: once [set_enabled_status] has switched a tracker off, with a
    [close] that leaves the status alone, the list holds it for unusable
    whatever the tracker itself answers: [send_state] does nothing for it,
    and [find_next_to_request] never returns it. *)
Theorem switched_off_is_never_requested (env : Env) (sl : Slots) (vt : Virtuals) (p : ptr)
        (w : World) :
  (forall h, m_enabled_status (close vt p h !!! p) = m_enabled_status (h !!! p)) ->
  let w' := (set_enabled_status env sl vt p off w).1 in
  m_enabled_status (TrackerList.deref w' p) = off /\
  TrackerList.is_usable env (TrackerList.deref w' p) = false /\
  tlist w' = tlist w /\
  (forall new_event, Dispatch.send_state env vt p new_event w' = MkRun w' [] None) /\
  (forall itr, tlist w' !! TrackerList.find_next_to_request env itr w' <> Some p).
Proof.
  intros Hclose w'.
  assert (Hlist : tlist w' = tlist w).
  { unfold w', set_enabled_status. destruct (enabled_status_eqb _ _); [reflexivity|].
    destruct (if enabled_status_eqb _ off then _ else _) as [h2 closing].
    destruct (receive_tracker_enabled_change _ _ _ _ _ _ _) as [h3 rest]. reflexivity. }
  assert (Hoff : m_enabled_status (TrackerList.deref w' p) = off).
  { unfold w', set_enabled_status.
    destruct (m_enabled_status (TrackerList.deref w p)) eqn:Hst; cbn [enabled_status_eqb];
      [| exact Hst |].
    all: rewrite lookup_total_insert_eq; cbn [with_enabled_status m_enabled_status];
      cbn [enabled_status_eqb]; unfold receive_tracker_enabled_change;
      rewrite Hclose, lookup_total_insert_eq;
      cbn [with_enabled_status m_enabled_status enabled_status_eqb];
      rewrite ?andb_false_r; cbn [andb orb fst with_heap];
      unfold TrackerList.deref; cbn [heap with_heap];
      rewrite Hclose, lookup_total_insert_eq; reflexivity. }
  assert (Hunusable : TrackerList.is_usable env (TrackerList.deref w' p) = false)
    by (unfold TrackerList.is_usable; now rewrite Hoff).
  split; [exact Hoff|]. split; [exact Hunusable|]. split; [exact Hlist|]. split.
  - intros new_event. unfold Dispatch.send_state. now rewrite Hunusable.
  - intros itr Hp.
    pose proof (find_next_to_request_eligible env itr w' _ (trackers_lookup w' _ p Hp)) as Hel.
    unfold Props.eligible in Hel. now rewrite Hunusable in Hel.
Qed.

Lemma switched_off_is_never_requested_witness :
  TrackerList.find_next_to_request Samples.env0 0 Samples.world3 = 0 /\
  TrackerList.find_next_to_request Samples.env0 0
    (set_enabled_status Samples.env0 Samples2.no_slots Samples2.idle_virtuals 1 off
       Samples.world3).1 = 1 /\
  tlist (set_enabled_status Samples.env0 Samples2.no_slots Samples2.idle_virtuals 1 off
           Samples.world3).1
  !! TrackerList.find_next_to_request Samples.env0 0
       (set_enabled_status Samples.env0 Samples2.no_slots Samples2.idle_virtuals 1 off
          Samples.world3).1 <> Some 1.
Proof.
  split; [reflexivity|]. split; [reflexivity|].
  apply (switched_off_is_never_requested Samples.env0 Samples2.no_slots
           Samples2.idle_virtuals 1 Samples.world3 (fun _ => eq_refl)).
Defined.

End Switched_off.

Section Cache_map.

Import Dns.

(** X26: the cache keeps the first answer stored for a triple: [add]
    for a triple it holds changes nothing and returns the address stored
    before, [add] for a new triple stores the answer, and in both cases
    [retrieve] then finds for the triple the address that [add] returned,
    and for every other triple what it found before.  An error is stored and
    found like an address. *)
Theorem cache_add_retrieve (key : Key) (error_code : Z) (sa : option sockaddr)
        (m_values : gmap Key Value) :
  let r := add key error_code sa m_values in
  (retrieve key r.1
   = match retrieve key m_values with
     | Some found => Some found
     | None => Some (error_code, sa)
     end) /\
  (exists ec, retrieve key r.1 = Some (ec, r.2)) /\
  (forall other, other <> key -> retrieve other r.1 = retrieve other m_values) /\
  (is_Some (retrieve key m_values) -> r.1 = m_values) /\
  retrieve key ∅ = None.
Proof.
  intros r. subst r. unfold add, retrieve.
  destruct (m_values !! key) as [v|] eqn:Hkey; cbn [fst snd].
  - rewrite Hkey. split; [reflexivity|]. split; [eauto|]. split; [reflexivity|].
    split; [reflexivity|]. now rewrite lookup_empty.
  - rewrite lookup_insert_eq. split; [reflexivity|]. split; [eauto|]. split.
    + intros other Hne. now rewrite lookup_insert_ne by congruence.
    + split; [intros [? [=]]|]. now rewrite lookup_empty.
Qed.

Lemma cache_add_retrieve_witness :
  retrieve (MkKey "tracker.example" AF_INET 1)
    (add (MkKey "tracker.example" AF_INET 1) 0 (Some (MkSockaddr AF_INET 9))
       (m_cache Samples2.warm_manager)).1
  = Some (0, Some (MkSockaddr AF_INET 7)).
Proof.
  destruct (cache_add_retrieve (MkKey "tracker.example" AF_INET 1) 0
              (Some (MkSockaddr AF_INET 9)) (m_cache Samples2.warm_manager)) as (H & _).
  rewrite H. reflexivity.
Defined.

End Cache_map.

(** ** The two custom resolvers *)

Section Two_resolvers.

Import Dns DnsServer.

Lemma first_answer_a_records msgs :
  ConnectionResolver.first_answer msgs
  = match a_records msgs with
    | [] => inr None
    | rr :: _ =>
        if rdlength rr =? 4 then inr (Some (MkSockaddr AF_INET (rdata rr)))
        else inl (internal_error "Invalid rd length.")
    end.
Proof.
  induction msgs as [|[rr|] msgs IH]; [reflexivity| |exact IH].
  cbn [ConnectionResolver.first_answer a_records].
  destruct (rr_type rr =? ns_t_a); [|exact IH].
  now destruct (rdlength rr =? 4).
Qed.

(** X27: [resolve_host_custom] of the connection manager answers with
    the first A record of the answer: it calls the slot once with that
    address and error code 0, or raises [internal_error] if the data of that
    record are not 4 bytes long, and looks at no later record; with no A
    record, or after a failed query, it calls the slot with a null address
    and [errno].  With at most one A record it hands to its slot what
    [resolve_host_custom] of the DNS manager returns, and raises when that
    one raises. *)
Theorem custom_resolvers_first_and_last (lk : Lookup) (host : string) (family socktype : Z) :
  let recs := a_records (answers lk) in
  let answered := (-1 <? res_nquery_ret lk) && (-1 <? ns_initparse_ret lk) in
  let old := ConnectionResolver.resolve_host_custom lk host family socktype in
  let new := (resolve_host_custom lk host family socktype).2 in
  (answered = true -> forall rr rest, recs = rr :: rest ->
     old = if rdlength rr =? 4
           then ([res_nquery host; cb (Some (MkSockaddr AF_INET (rdata rr))) 0], None)
           else ([res_nquery host], Some (internal_error "Invalid rd length."))) /\
  (answered = false \/ recs = [] -> old = ([res_nquery host; cb None (errno lk)], None)) /\
  ((length recs <= 1)%nat ->
   match new with
   | inl e => old = ([res_nquery host], Some e)
   | inr (error_code, sa) => old = ([res_nquery host; cb sa error_code], None)
   end).
Proof.
  intros recs answered old new. subst old new.
  unfold ConnectionResolver.resolve_host_custom, resolve_host_custom. cbn [snd].
  fold answered. rewrite first_answer_a_records, parse_answers_a_records. fold recs.
  split; [|split].
  - intros -> rr rest ->. now destruct (rdlength rr =? 4).
  - intros [->| ->]; [reflexivity|]. now destruct answered.
  - intros Hlen. destruct answered; [|reflexivity].
    destruct recs as [|rr [|rr' rest]]; [reflexivity| |cbn in Hlen; lia].
    cbn [forallb last]. rewrite andb_true_r. now destruct (rdlength rr =? 4).
Qed.

Lemma custom_resolvers_first_and_last_witness :
  ConnectionResolver.resolve_host_custom Samples2.two_a_records "tracker.example" AF_INET 1
  = ([res_nquery "tracker.example"; cb (Some (MkSockaddr AF_INET 11)) 0], None) /\
  (resolve_host_custom Samples2.two_a_records "tracker.example" AF_INET 1).2
  = inr (0, Some (MkSockaddr AF_INET 22)).
Proof.
  split; [|reflexivity].
  destruct (custom_resolvers_first_and_last Samples2.two_a_records "tracker.example"
              AF_INET 1) as (Hfirst & _).
  exact (Hfirst eq_refl (MkRr 1 4 11) [MkRr 1 4 22] eq_refl).
Defined.

End Two_resolvers.

